(** * S.A.K. Utility: traversal, permission update, backup and de-duplication

    A shallow embedding of the file-processing core of [sak_utiliy.py]:

    - [fast_scan], the stack-based generator over [os.scandir];
    - [chunked_file_hash];
    - [PermissionUpdateWorker.run] and [_set_perms_posix];
    - [BackupWorker.run] with its nested [copy_one], executed by a thread
      pool whose interleavings are given by an explicit schedule;
    - [MainWindow.find_duplicates].

    The operating system is modelled by a finite map from canonical paths to
    inodes (regular files with mode bits and content, directories with mode
    bits, symbolic links), with POSIX path resolution (symlinks followed with
    a hop limit, search permission checked on every directory traversed) and
    the [posixpath] string functions the program calls.  The process is an
    ordinary (non-root) user that owns every inode, so the owner permission
    bits decide access. *)

From Stdlib Require Import ZArith Lia Ascii String.
From Stdlib.Strings Require Import Byte.
From stdpp Require Import gmap strings list fin_maps pretty.

Local Open Scope string_scope.
Local Open Scope list_scope.
Local Open Scope nat_scope.

(* ===================================================================== *)
(** ** Python string operations used by the program *)
(* ===================================================================== *)

Module pystr.

Definition is_sep (c : ascii) : bool := Ascii.eqb c "/"%char.

(** [s.startswith("/")] *)
Definition startswith_sep (s : string) : bool :=
  match s with
  | String c _ => is_sep c
  | EmptyString => false
  end.

(** [s.endswith("/")] *)
Fixpoint endswith_sep (s : string) : bool :=
  match s with
  | EmptyString => false
  | String c EmptyString => is_sep c
  | String _ s' => endswith_sep s'
  end.

(** [s.split("/")]: always at least one component. *)
Fixpoint split_sep (s : string) : list string :=
  match s with
  | EmptyString => [EmptyString]
  | String c s' =>
      if is_sep c then EmptyString :: split_sep s'
      else match split_sep s' with
           | h :: t => String c h :: t
           | [] => [String c EmptyString]
           end
  end.

(** ["/".join(l)] *)
Fixpoint join_sep (l : list string) : string :=
  match l with
  | [] => ""
  | [x] => x
  | x :: l' => x +:+ "/" +:+ join_sep l'
  end.

(** [(s[:i], s[i:])] for [i = s.rfind("/") + 1]. *)
Fixpoint rpartition_sep (s : string) : string * string :=
  match s with
  | EmptyString => ("", "")
  | String c s' =>
      let '(h, t) := rpartition_sep s' in
      match h with
      | EmptyString => if is_sep c then ("/", t) else ("", String c t)
      | _ => (String c h, t)
      end
  end.

(** [s.rstrip("/")] *)
Fixpoint rstrip_sep (s : string) : string :=
  match s with
  | EmptyString => ""
  | String c s' =>
      match rstrip_sep s' with
      | EmptyString => if is_sep c then "" else String c ""
      | r => String c r
      end
  end.

(** [s == "/" * len(s)] *)
Fixpoint all_sep (s : string) : bool :=
  match s with
  | EmptyString => true
  | String c s' => is_sep c && all_sep s'
  end.

(** [p.lstrip("*")] *)
Fixpoint lstrip_star (s : string) : string :=
  match s with
  | String c s' => if Ascii.eqb c "*"%char then lstrip_star s' else s
  | EmptyString => ""
  end.

Definition lower_ascii (c : ascii) : ascii :=
  let n := nat_of_ascii c in
  if Nat.leb 65 n && Nat.leb n 90 then ascii_of_nat (n + 32) else c.

(** [s.lower()] on ASCII text. *)
Fixpoint lower (s : string) : string :=
  match s with
  | EmptyString => ""
  | String c s' => String (lower_ascii c) (lower s')
  end.

(** [s.endswith(suffix)] *)
Definition endswith (s suffix : string) : bool :=
  let n := String.length s in
  let k := String.length suffix in
  Nat.leb k n && String.eqb (String.substring (n - k) k s) suffix.

(** ["/" in s] *)
Fixpoint has_sep (s : string) : bool :=
  match s with
  | EmptyString => false
  | String c s' => is_sep c || has_sep s'
  end.

(** A file name: not empty, no slash in it. *)
Definition valid_name (s : string) : bool :=
  negb (String.eqb s "") && negb (has_sep s).

(** [repr(s)] for a string without quotes or escapes. *)
Definition repr (s : string) : string := "'" +:+ s +:+ "'".

End pystr.

(* ===================================================================== *)
(** ** [posixpath]: the [os.path] functions the program calls *)
(* ===================================================================== *)

Module posixpath.
Import pystr.

Definition isabs (s : string) : bool := startswith_sep s.

(** [os.path.join(a, b)]: an absolute [b] discards [a]. *)
Definition join (a b : string) : string :=
  if startswith_sep b || String.eqb a "" then b
  else if endswith_sep a then a +:+ b
  else a +:+ "/" +:+ b.

(** [os.path.split(p)] *)
Definition split (p : string) : string * string :=
  let '(head, tail) := rpartition_sep p in
  let head' :=
    if negb (String.eqb head "") && negb (all_sep head)
    then rstrip_sep head else head in
  (head', tail).

Definition basename (p : string) : string := snd (rpartition_sep p).

Definition dirname (p : string) : string := fst (split p).

(** The loop of [normpath] over the components. *)
Fixpoint normpath_comps (initial_slashes : bool) (comps new_comps : list string)
  : list string :=
  match comps with
  | [] => new_comps
  | comp :: comps' =>
      if String.eqb comp "" || String.eqb comp "." then
        normpath_comps initial_slashes comps' new_comps
      else if negb (String.eqb comp "..")
              || (negb initial_slashes && bool_decide (new_comps = []))
              || match last new_comps with
                 | Some l => String.eqb l ".."
                 | None => false
                 end
      then normpath_comps initial_slashes comps' (new_comps ++ [comp])
      else normpath_comps initial_slashes comps' (removelast new_comps)
  end.

(** Number of leading slashes kept by [normpath]: 0, 1 or 2. *)
Definition initial_slashes (path : string) : nat :=
  match path with
  | String c1 (String c2 (String c3 _)) =>
      if is_sep c1 then (if is_sep c2 && negb (is_sep c3) then 2 else 1)
      else 0
  | String c1 (String c2 EmptyString) =>
      if is_sep c1 then (if is_sep c2 then 2 else 1) else 0
  | String c1 EmptyString => if is_sep c1 then 1 else 0
  | EmptyString => 0
  end.

Definition normpath (path : string) : string :=
  if String.eqb path "" then "."
  else
    let i := initial_slashes path in
    let comps := normpath_comps (negb (Nat.eqb i 0)) (split_sep path) [] in
    let p := join_sep comps in
    let p' := match i with
              | O => p
              | S O => "/" +:+ p
              | _ => "//" +:+ p
              end in
    if String.eqb p' "" then "." else p'.

(** [os.path.abspath(path)] with the working directory [cwd]. *)
Definition abspath (cwd path : string) : string :=
  if isabs path then normpath path else normpath (join cwd path).

Fixpoint commonprefix_len (a b : list string) : nat :=
  match a, b with
  | x :: a', y :: b' => if String.eqb x y then S (commonprefix_len a' b') else 0
  | _, _ => 0
  end.

Definition nonempty_comps (s : string) : list string :=
  filter (λ x, x ≠ "") (split_sep s).

(** [os.path.relpath(path, start)] for a non-empty [path] (the program
    only passes directories the scan yielded, never the empty string). *)
Definition relpath (cwd path start : string) : string :=
  let start_list := nonempty_comps (abspath cwd start) in
  let path_list := nonempty_comps (abspath cwd path) in
  let i := commonprefix_len start_list path_list in
  let rel_list := replicate (length start_list - i) ".." ++ drop i path_list in
  match rel_list with
  | [] => "."
  | x :: l => foldl join x l
  end.

End posixpath.

(** What [os.path.join] puts between a directory and a name. *)
Definition sepof (a : string) : string :=
  if String.eqb a "" || pystr.endswith_sep a then "" else "/".

(** Paths reached from [base]: [base] itself, or a longer path that does
    not end in a slash. *)
Definition below (base p : string) : Prop :=
  p = base ∨ (String.length base < String.length p ∧ pystr.endswith_sep p = false).



(* ===================================================================== *)
(** ** The operating system: inodes, path resolution, system calls *)
(* ===================================================================== *)

Module os.
Import pystr.

Inductive errno := ENOENT | EACCES | ENOTDIR | EISDIR | EEXIST | ELOOP.

(** The exceptions the modelled calls raise: [OSError] with its [errno]
    and file name, and [shutil.SameFileError]. *)
Inductive exn :=
| OSError (e : errno) (filename : string)
| SameFileError (src dst : string).

Definition strerror (e : errno) : string :=
  match e with
  | ENOENT => "[Errno 2] No such file or directory"
  | EACCES => "[Errno 13] Permission denied"
  | ENOTDIR => "[Errno 20] Not a directory"
  | EISDIR => "[Errno 21] Is a directory"
  | EEXIST => "[Errno 17] File exists"
  | ELOOP => "[Errno 40] Too many levels of symbolic links"
  end.

(** [str(e)] *)
Definition str (e : exn) : string :=
  match e with
  | OSError e f => strerror e +:+ ": " +:+ repr f
  | SameFileError s d => repr s +:+ " and " +:+ repr d +:+ " are the same file"
  end.

Inductive result (A : Type) :=
| Ok (a : A)
| Raise (e : exn).
Global Arguments Ok {A} a.
Global Arguments Raise {A} e.

Global Instance result_ret : MRet result := λ A a, Ok a.
Global Instance result_bind : MBind result :=
  λ A B f r, match r with Ok a => f a | Raise e => Raise e end.

Inductive inode :=
| IFile (mode : Z) (data : list byte)
| IDir (mode : Z)
| ILink (target : string).

(** A file system: inodes by canonical path (the list of names from the
    root, [[]] being the root directory) and the working directory. *)
Record filesystem := {
  inodes : gmap (list string) inode;
  cwd : list string
}.

(** Every name in the file system is a file name. *)
Definition valid_fs (fs : filesystem) : bool :=
  forallb (λ ki, forallb valid_name ki.1) (map_to_list (inodes fs)).

Definition set_inodes (fs : filesystem) (nd : gmap (list string) inode) :=
  {| inodes := nd; cwd := cwd fs |}.

(** Owner permission bits: 0o400, 0o200, 0o100. *)
Definition readable (mode : Z) : bool := Z.testbit mode 8.
Definition writable (mode : Z) : bool := Z.testbit mode 7.
Definition searchable (mode : Z) : bool := Z.testbit mode 6.

Definition umask : Z := 18.   (* 0o022 *)
Definition apply_umask (mode : Z) : Z := Z.land mode (Z.lnot umask).

Definition is_dir_inode (i : inode) : bool :=
  match i with IDir _ => true | _ => false end.

(** The canonical path as a string: ["/" + "/".join(c)]. *)
Definition canon_str (c : list string) : string := "/" +:+ join_sep c.

Definition MAXSYMLINKS : nat := 40.

(** Path resolution (the kernel's [namei]): walks the components [rest]
    from the directory [cur]; a symlink is replaced by the components of
    its target, at most [hops] times; looking a name up in a directory
    needs search permission on it. *)
Fixpoint namei (hops : nat) (nd : gmap (list string) inode) (orig : string)
    : list string → list string → result (list string) :=
  fix go (cur rest : list string) {struct rest} : result (list string) :=
    match rest with
    | [] => Ok cur
    | c :: rest' =>
        match nd !! cur with
        | Some (IDir m) =>
            if String.eqb c "" then go cur rest'
            else if negb (searchable m) then Raise (OSError EACCES orig)
            else if String.eqb c "." then go cur rest'
            else if String.eqb c ".." then go (removelast cur) rest'
            else
              match nd !! (cur ++ [c]) with
              | None => Raise (OSError ENOENT orig)
              | Some (ILink t) =>
                  match hops with
                  | O => Raise (OSError ELOOP orig)
                  | S h =>
                      if String.eqb t "" then Raise (OSError ENOENT orig)
                      else namei h nd orig
                             (if startswith_sep t then [] else cur)
                             (split_sep t ++ rest')
                  end
              | Some _ => go (cur ++ [c]) rest'
              end
        | Some _ => Raise (OSError ENOTDIR orig)
        | None => Raise (OSError ENOENT orig)
        end
    end.

(** The canonical path a path string denotes, symlinks followed. *)
Definition resolve (fs : filesystem) (path : string) : result (list string) :=
  if String.eqb path "" then Raise (OSError ENOENT path)
  else namei MAXSYMLINKS (inodes fs) path
         (if startswith_sep path then [] else cwd fs) (split_sep path).

(** [os.stat(path)]: canonical path and inode. *)
Definition stat (fs : filesystem) (path : string) : result (list string * inode) :=
  c ← resolve fs path;
  match inodes fs !! c with
  | Some i => Ok (c, i)
  | None => Raise (OSError ENOENT path)
  end.

Definition getcwd (fs : filesystem) : string := canon_str (cwd fs).

(** [os.path.realpath(path)]: the canonical path where the path resolves;
    otherwise the lexically normalised absolute path. *)
Definition realpath (fs : filesystem) (path : string) : string :=
  match resolve fs path with
  | Ok c => canon_str c
  | Raise _ => posixpath.abspath (getcwd fs) path
  end.

Definition isdir (fs : filesystem) (path : string) : bool :=
  match stat fs path with
  | Ok (_, IDir _) => true
  | _ => false
  end.

Definition exists_ (fs : filesystem) (path : string) : bool :=
  match stat fs path with
  | Ok _ => true
  | Raise _ => false
  end.

Definition dir_st_size : Z := 4096.

(** [os.path.getsize(path)] *)
Definition getsize (fs : filesystem) (path : string) : result Z :=
  '(_, i) ← stat fs path;
  match i with
  | IFile _ data => Ok (Z.of_nat (length data))
  | IDir _ => Ok dir_st_size
  | ILink _ => Raise (OSError ELOOP path)
  end.

(** [open(path, "rb").read()] *)
Definition read_file (fs : filesystem) (path : string) : result (list byte) :=
  '(_, i) ← stat fs path;
  match i with
  | IFile m data => if readable m then Ok data else Raise (OSError EACCES path)
  | IDir _ => Raise (OSError EISDIR path)
  | ILink _ => Raise (OSError ELOOP path)
  end.

(** A [DirEntry] of [os.scandir]: name, [entry.path] and the entry's own
    inode (its [d_type]; for a symlink the link, not its target). *)
Record DirEntry := {
  entry_name : string;
  entry_path : string;
  entry_inode : inode
}.

(** [entry.is_dir(follow_symlinks=False)]: decided by the entry's own
    type, which the directory listing reports; no system call is made. *)
Definition is_dir_nofollow (e : DirEntry) : result bool :=
  Ok (is_dir_inode (entry_inode e)).

(** The name under which [k] is an entry of directory [c]. *)
Definition child_name (c k : list string) : option string :=
  match last k with
  | Some n => if bool_decide (k = c ++ [n]) then Some n else None
  | None => None
  end.

Definition children (nd : gmap (list string) inode) (c : list string)
  : list (string * inode) :=
  omap (λ ki, n ← child_name c ki.1; Some (n, ki.2)) (map_to_list nd).

(** [list(os.scandir(path))]: needs read permission on the directory. *)
Definition scandir (fs : filesystem) (path : string) : result (list DirEntry) :=
  '(c, i) ← stat fs path;
  match i with
  | IDir m =>
      if readable m then
        Ok (map (λ ni, {| entry_name := ni.1;
                          entry_path := posixpath.join path ni.1;
                          entry_inode := ni.2 |})
                (children (inodes fs) c))
      else Raise (OSError EACCES path)
  | _ => Raise (OSError ENOTDIR path)
  end.

Definition set_mode (i : inode) (mode : Z) : inode :=
  match i with
  | IFile _ data => IFile mode data
  | IDir _ => IDir mode
  | ILink t => ILink t
  end.

(** [os.chmod(path, mode)]: the owner may always change the mode. *)
Definition chmod (fs : filesystem) (path : string) (mode : Z) : result filesystem :=
  '(c, i) ← stat fs path;
  Ok (set_inodes fs (<[c := set_mode i mode]> (inodes fs))).

(** Drops the empty components a trailing slash leaves. *)
Fixpoint strip_trailing_empty (comps : list string) : list string :=
  match comps with
  | [] => []
  | c :: comps' =>
      match strip_trailing_empty comps' with
      | [] => if String.eqb c "" then [] else [c]
      | r => c :: r
      end
  end.

(** The directory in which the last component of [path] is looked up,
    and that component. *)
Definition resolve_parent (fs : filesystem) (path : string)
  : result (list string * Z * string) :=
  if String.eqb path "" then Raise (OSError ENOENT path)
  else
    let comps := strip_trailing_empty (split_sep path) in
    match last comps with
    | None => Raise (OSError EEXIST path)          (* the root itself *)
    | Some name =>
        d ← namei MAXSYMLINKS (inodes fs) path
              (if startswith_sep path then [] else cwd fs) (removelast comps);
        match inodes fs !! d with
        | Some (IDir m) =>
            if searchable m then Ok (d, m, name) else Raise (OSError EACCES path)
        | Some _ => Raise (OSError ENOTDIR path)
        | None => Raise (OSError ENOENT path)
        end
    end.

(** [os.mkdir(path, mode)] *)
Definition mkdir (fs : filesystem) (path : string) (mode : Z) : result filesystem :=
  '(d, m, name) ← resolve_parent fs path;
  if String.eqb name "." || String.eqb name ".." then Raise (OSError EEXIST path)
  else
    match inodes fs !! (d ++ [name]) with
    | Some _ => Raise (OSError EEXIST path)
    | None =>
        if writable m
        then Ok (set_inodes fs (<[d ++ [name] := IDir (apply_umask mode)]> (inodes fs)))
        else Raise (OSError EACCES path)
    end.

(** [os.makedirs(name, exist_ok=True)]: the file system it leaves and the
    exception it raises, if any (the directories made before a failure
    stay).  The recursion is on the head of [os.path.split], which is
    shorter than [name]. *)
Fixpoint makedirs_fuel (fuel : nat) (fs : filesystem) (name : string)
  : filesystem * option exn :=
  match fuel with
  | O => (fs, Some (OSError ENOENT name))
  | S fuel' =>
      let '(head, tail) := posixpath.split name in
      let '(head, tail) :=
        if String.eqb tail "" then posixpath.split head else (head, tail) in
      let create (fs1 : filesystem) :=
        match mkdir fs1 name 511 with
        | Ok fs2 => (fs2, None)
        | Raise e => if isdir fs1 name then (fs1, None) else (fs1, Some e)
        end in
      if negb (String.eqb head "") && negb (String.eqb tail "")
         && negb (exists_ fs head)
      then
        match makedirs_fuel fuel' fs head with
        | (fs1, Some (OSError EEXIST _)) | (fs1, None) =>
            if String.eqb tail "." then (fs1, None) else create fs1
        | (fs1, Some e) => (fs1, Some e)
        end
      else create fs
  end.

Definition makedirs (fs : filesystem) (name : string) : filesystem * option exn :=
  makedirs_fuel (S (String.length name)) fs name.

(** [os.path.samefile] as [shutil._samefile] uses it: [False] when either
    path cannot be stat'ed. *)
Definition samefile (fs : filesystem) (a b : string) : bool :=
  match resolve fs a, resolve fs b with
  | Ok ca, Ok cb => bool_decide (ca = cb)
  | _, _ => false
  end.

(** [open(path, "wb").write(data)]: truncates an existing regular file,
    or creates the file (mode 0o666 under the umask) in its directory.
    [open] follows a symbolic link in the last component: where the link
    dangles, the file is created where the link points (a chain of such
    links is followed [hops] times at most); the exception names the path
    that was opened. *)
Fixpoint write_file_hops (hops : nat) (fs : filesystem) (path : string)
    (data : list byte) : result filesystem :=
  match stat fs path with
  | Ok (c, IFile m _) =>
      if writable m then Ok (set_inodes fs (<[c := IFile m data]> (inodes fs)))
      else Raise (OSError EACCES path)
  | Ok (_, _) => Raise (OSError EISDIR path)
  | Raise _ =>
      '(d, m, name) ← resolve_parent fs path;
      if String.eqb name "." || String.eqb name ".." then Raise (OSError EISDIR path)
      else
        match inodes fs !! (d ++ [name]) with
        | Some (ILink target) =>
            match hops with
            | O => Raise (OSError ELOOP path)
            | S hops' =>
                if String.eqb target "" then Raise (OSError ENOENT path)
                else
                  let path' :=
                    if startswith_sep target then target
                    else canon_str d +:+ "/" +:+ target in
                  match write_file_hops hops' fs path' data with
                  | Ok fs' => Ok fs'
                  | Raise (OSError e _) => Raise (OSError e path)
                  | Raise e => Raise e
                  end
            end
        | Some _ => Raise (OSError ENOENT path)
        | None =>
            if writable m
            then Ok (set_inodes fs (<[d ++ [name] := IFile (apply_umask 438) data]>
                                      (inodes fs)))
            else Raise (OSError EACCES path)
        end
  end.

Definition write_file (fs : filesystem) (path : string) (data : list byte)
  : result filesystem :=
  write_file_hops MAXSYMLINKS fs path data.

End os.

(* ===================================================================== *)
(** ** What the program takes from its platform *)
(* ===================================================================== *)

(** [hashlib.md5] as an incremental hasher, the platform test
    [sys.platform.startswith("win")], [os.cpu_count()], and the storage
    medium: [storage_write path data] is what the medium retains when [data]
    is written to [path] (the identity on a sound medium; anything else is
    the silent corruption that hash verification is there to catch). *)
Class Platform := {
  md5_state : Type;
  md5_new : md5_state;
  md5_update : md5_state → list byte → md5_state;
  md5_hexdigest : md5_state → string;
  storage_write : string → list byte → list byte;
  is_windows : bool;
  cpu_count : option nat
}.

(* ===================================================================== *)
(** ** [chunked_file_hash] *)
(* ===================================================================== *)

(** [f.read(n)] on the rest of a file: the chunk and what remains. *)
Fixpoint read_chunk (data : list byte) (n : N) : list byte * list byte :=
  match data with
  | [] => ([], [])
  | b :: data' =>
      if N.eqb n 0 then ([], data)
      else let '(chunk, rest) := read_chunk data' (N.pred n) in (b :: chunk, rest)
  end.

(** [for chunk in iter(lambda: f.read(chunk_size), b""): hasher.update(chunk)];
    every non-empty chunk consumes a byte, so [fuel] needs not exceed the
    length of the file. *)
Fixpoint hash_chunks `{Platform} (fuel : nat) (chunk_size : N) (data : list byte)
    (hasher : md5_state) : md5_state :=
  match fuel with
  | O => hasher
  | S fuel' =>
      match read_chunk data chunk_size with
      | ([], _) => hasher
      | (chunk, rest) => hash_chunks fuel' chunk_size rest (md5_update hasher chunk)
      end
  end.

Definition default_chunk_size : N := 1024 * 1024.

Definition chunked_file_hash `{Platform} (fs : os.filesystem) (filepath : string)
    : os.result string :=
  data ← os.read_file fs filepath;
  os.Ok (md5_hexdigest (hash_chunks (length data) default_chunk_size data md5_new)).

(* ===================================================================== *)
(** ** [fast_scan] *)
(* ===================================================================== *)

(** What the generator yields: [(dir_path, [subdirs], [files])]. *)
Record TraversalEntry := {
  dir_path : string;
  subdirs : list string;
  files : list string
}.

(** The generator's local state.  The Python list [stack] is kept with its
    end first: [stack.pop()] takes the head, [stack.extend(dirs)] puts
    [dirs] reversed in front. *)
Record scan_state := {
  stack : list string;
  visited : gset string
}.

Inductive scan_event :=
| ScanStop                                  (* the stack is empty *)
| ScanSkip (st : scan_state)                (* [continue] *)
| ScanYield (e : TraversalEntry) (st : scan_state).

(** The loop over [os.scandir(path)]: an entry whose test raises is left out. *)
Fixpoint classify (entries : list os.DirEntry) : list string * list string :=
  match entries with
  | [] => ([], [])
  | entry :: entries' =>
      let '(dirs, files) := classify entries' in
      match os.is_dir_nofollow entry with
      | os.Ok true => (os.entry_path entry :: dirs, files)
      | os.Ok false => (dirs, os.entry_path entry :: files)
      | os.Raise _ => (dirs, files)
      end
  end.

(** One iteration of [while stack:], up to the next [continue] or [yield]
    ([stack.extend(dirs)] runs when the generator is resumed; it touches
    nothing the consumer sees, so it is done here). *)
Definition scan_step (fs : os.filesystem) (st : scan_state) : scan_event :=
  match stack st with
  | [] => ScanStop
  | path :: stack' =>
      let real := os.realpath fs path in
      if decide (real ∈ visited st) then
        ScanSkip {| stack := stack'; visited := visited st |}
      else
        let visited' := {[real]} ∪ visited st in
        match os.scandir fs path with
        | os.Raise _ => ScanSkip {| stack := stack'; visited := visited' |}
        | os.Ok entries =>
            let '(dirs, files) := classify entries in
            ScanYield {| dir_path := path; subdirs := dirs; files := files |}
                      {| stack := reverse dirs ++ stack'; visited := visited' |}
        end
  end.

Definition scan_init (base_path : string) : scan_state :=
  {| stack := [base_path]; visited := ∅ |}.

(** The generator run to exhaustion on a file system the consumer leaves
    alone; [None] when [fuel] iterations do not empty the stack. *)
Fixpoint scan_all (fuel : nat) (fs : os.filesystem) (st : scan_state)
    : option (list TraversalEntry) :=
  match fuel with
  | O => None
  | S fuel' =>
      match scan_step fs st with
      | ScanStop => Some []
      | ScanSkip st' => scan_all fuel' fs st'
      | ScanYield e st' => cons e <$> scan_all fuel' fs st'
      end
  end.

(** Directories among the inodes, and the number of sub-directories of one. *)
Definition dir_keys (nd : gmap (list string) os.inode) : list (list string) :=
  (filter (λ ki, os.is_dir_inode ki.2) (map_to_list nd)).*1.

Definition nsubdirs (nd : gmap (list string) os.inode) (c : list string) : nat :=
  length (filter (λ ni, os.is_dir_inode ni.2) (os.children nd c)).

(** The sub-directories of the directories not yet visited: what may still
    be pushed on the stack. *)
Definition pending (nd : gmap (list string) os.inode) (visited : gset string) : nat :=
  sum_list (nsubdirs nd <$>
    filter (λ c, os.canon_str c ∉ visited) (dir_keys nd)).

(** Enough iterations for any traversal of [fs] (see [scan_all_terminates]). *)
Definition scan_bound (fs : os.filesystem) : nat := S (S (pending (os.inodes fs) ∅)).

(** The potential of a generator state: it falls with every iteration. *)
Definition potential (fs : os.filesystem) (st : scan_state) : nat :=
  length (stack st) + pending (os.inodes fs) (visited st).

Definition fast_scan (fs : os.filesystem) (base_path : string) : list TraversalEntry :=
  default [] (scan_all (scan_bound fs) fs (scan_init base_path)).

(* ===================================================================== *)
(** ** [PermissionUpdateWorker] *)
(* ===================================================================== *)

Module PermissionUpdateWorker.

(** What a run leaves behind: the file system, the lines logged, the
    [progress] signals [(processed, total, current_path)] in the order
    emitted, and the [finished] signal [(success, message)]. *)
Record outcome := {
  fs_after : os.filesystem;
  log : list string;
  progress : list (nat * nat * string);
  finished : bool * string
}.

(** [self._cancel] as the loop reads it before item number [processed]:
    [cancel_after = Some k] is a [cancel()] that the loop sees once [k]
    items are done, [None] is a run nobody cancels. *)
Definition cancel_seen (cancel_after : option nat) (processed : nat) : bool :=
  match cancel_after with
  | Some k => bool_decide (k ≤ processed)
  | None => false
  end.

Definition _set_perms_posix (fs : os.filesystem) (log : list string)
    (path : string) (is_dir : bool) : os.filesystem * list string :=
  let mode := if is_dir then 511%Z else 438%Z in     (* 0o777, 0o666 *)
  match os.chmod fs path mode with
  | os.Ok fs' => (fs', log)
  | os.Raise e => (fs, log ++ ["PERM ERROR (chmod) " +:+ path +:+ ": " +:+ os.str e])
  end.

(** The [icacls] grant acts on access-control lists, which the file system
    model does not have: only its log line is kept. *)
Definition _set_perms_windows (fs : os.filesystem) (log : list string)
    (base : string) : os.filesystem * list string :=
  (fs, log ++ ["PERM WINDOWS ROOT-GRANT " +:+ base +:+ " -> Everyone:(OI)(CI)M (/T)"]).

(** [all_items]: every yielded directory followed by its files. *)
Definition enumerate (fs : os.filesystem) (root_paths : list string) : list string :=
  base ← root_paths; e ← fast_scan fs base; dir_path e :: files e.

Definition cancelled_message : string := "Permission update cancelled.".

(** The POSIX loop [for path in all_items]; [None] as the final signal
    means the loop ran to its end. *)
Fixpoint set_each (items : list string) (processed total : nat)
    (cancel_after : option nat) (fs : os.filesystem) (log : list string)
    (progress : list (nat * nat * string))
    : os.filesystem * list string * list (nat * nat * string) * option (bool * string) :=
  match items with
  | [] => (fs, log, progress, None)
  | path :: items' =>
      if cancel_seen cancel_after processed
      then (fs, log, progress, Some (false, cancelled_message))
      else
        let '(fs', log') := _set_perms_posix fs log path (os.isdir fs path) in
        set_each items' (S processed) total cancel_after fs' log'
                 (progress ++ [(S processed, total, path)])
  end.

(** The Windows loop: progress only. *)
Fixpoint count_through (items : list string) (processed total : nat)
    (cancel_after : option nat) (progress : list (nat * nat * string))
    : list (nat * nat * string) * option (bool * string) :=
  match items with
  | [] => (progress, None)
  | path :: items' =>
      if cancel_seen cancel_after processed
      then (progress, Some (false, cancelled_message))
      else count_through items' (S processed) total cancel_after
                         (progress ++ [(S processed, total, path)])
  end.

Definition done_message (root_paths : list string) : bool * string :=
  (true, "Permissions updated for " +:+ pretty (length root_paths)
         +:+ " top-level path(s).").

Definition run `{Platform} (fs : os.filesystem) (root_paths : list string)
    (cancel_after : option nat) : outcome :=
  let all_items := enumerate fs root_paths in
  let total := length all_items in
  if is_windows then
    let '(fs1, log1) :=
      foldl (λ fl base, _set_perms_windows fl.1 fl.2 base) (fs, []) root_paths in
    let '(progress, fin) := count_through all_items 0 total cancel_after [] in
    {| fs_after := fs1; log := log1; progress := progress;
       finished := default (done_message root_paths) fin |}
  else
    let '(fs1, log1, progress, fin) :=
      set_each all_items 0 total cancel_after fs [] [] in
    {| fs_after := fs1; log := log1; progress := progress;
       finished := default (done_message root_paths) fin |}.

(** The mode the policy gives an inode: 0o666 to a file, 0o777 to a
    directory. *)
Definition normalise (i : os.inode) : os.inode :=
  match i with
  | os.IFile _ data => os.IFile 438 data
  | os.IDir _ => os.IDir 511
  | os.ILink t => os.ILink t
  end.

(** The mode bits of the inode at a canonical path. *)
Definition mode_at (fs : os.filesystem) (c : list string) : option Z :=
  match os.inodes fs !! c with
  | Some (os.IFile m _) | Some (os.IDir m) => Some m
  | _ => None
  end.

(** [fs'] is [fs] with the policy mode set on some inodes. *)
Definition normalised_from (fs fs' : os.filesystem) : Prop :=
  os.cwd fs' = os.cwd fs ∧
  ∀ c, os.inodes fs' !! c = os.inodes fs !! c ∨
       ∃ i, os.inodes fs !! c = Some i ∧ os.inodes fs' !! c = Some (normalise i).

End PermissionUpdateWorker.

(* ===================================================================== *)
(** ** [shutil.copy2] *)
(* ===================================================================== *)

Module shutil.

(** [shutil.copyfile(src, dst)]: refuses to copy a file onto itself; what
    reaches the medium is [storage_write dst data]. *)
Definition copyfile `{Platform} (fs : os.filesystem) (src dst : string)
    : os.result os.filesystem :=
  if os.samefile fs src dst then os.Raise (os.SameFileError src dst)
  else
    data ← os.read_file fs src;
    os.write_file fs dst (storage_write dst data).

(** [shutil.copystat(src, dst)]: the permission bits. *)
Definition copystat (fs : os.filesystem) (src dst : string)
    : os.result os.filesystem :=
  '(_, i) ← os.stat fs src;
  match i with
  | os.IFile m _ | os.IDir m => os.chmod fs dst m
  | os.ILink _ => os.Ok fs
  end.

(** [shutil.copy2(src, dst)]: the file system it leaves and the exception
    it raises, if any. *)
Definition copy2 `{Platform} (fs : os.filesystem) (src dst : string)
    : os.filesystem * option os.exn :=
  let dst' :=
    if os.isdir fs dst then posixpath.join dst (posixpath.basename src) else dst in
  match copyfile fs src dst' with
  | os.Raise e => (fs, Some e)
  | os.Ok fs1 =>
      match copystat fs1 src dst' with
      | os.Ok fs2 => (fs2, None)
      | os.Raise e => (fs1, Some e)
      end
  end.

End shutil.

(* ===================================================================== *)
(** ** [BackupWorker] *)
(* ===================================================================== *)

Module BackupWorker.

Local Open Scope Z_scope.

(** A task of the plan: [(src, dst, fsize)]. *)
Record task := {
  src : string;
  dst : string;
  fsize : Z
}.

(** A [progress_update] signal without its last field, the speed (a float
    computed from the wall clock):
    [(files_processed, file, file_size, copied_size)]. *)
Record progress_event := {
  files_processed : Z;
  file : string;
  file_size : Z;
  copied_so_far : Z
}.

(** The [finished] signal: [(files_copied, success, message)]. *)
Definition terminal_result : Type := Z * bool * string.

Definition nl : string := String (ascii_of_nat 10) "".

Definition py_bool (b : bool) : string := if b then "True" else "False".

(** [self.max_workers = max_workers or max(2, min(8, (os.cpu_count() or 4) * 2))] *)
Definition pool_size `{Platform} (max_workers : option nat) : nat :=
  match max_workers with
  | Some (S n) => S n
  | _ => let cpus := match cpu_count with Some (S n) => S n | _ => 4%nat end in
         Nat.max 2 (Nat.min 8 (cpus * 2))
  end.

(* --------------------------------------------------------------------- *)
(** *** Building the plan *)

(** [any(fname.lower().endswith(p.lstrip("*").lower()) or p == "*"
         for p in self.patterns)] *)
Definition matches (patterns : list string) (fname : string) : bool :=
  existsb (λ p, pystr.endswith (pystr.lower fname) (pystr.lower (pystr.lstrip_star p))
                || String.eqb p "*")
          patterns.

(** The local variables of the planning loop, the file system and the log. *)
Record planning := {
  plan_fs : os.filesystem;
  plan_log : list string;
  plan : list task;
  total_files : Z;
  total_size : Z
}.

(** The body of [for fname in files]. *)
Definition plan_file (patterns : list string) (root dst_folder : string)
    (st : planning) (fname : string) : planning :=
  if negb (matches patterns fname) then st
  else
    let src := posixpath.join root fname in
    let dst := posixpath.join dst_folder fname in
    let fsize := match os.getsize (plan_fs st) src with
                 | os.Ok n => n
                 | os.Raise _ => 0
                 end in
    {| plan_fs := plan_fs st; plan_log := plan_log st;
       plan := plan st ++ [{| src := src; dst := dst; fsize := fsize |}];
       total_files := total_files st + 1;
       total_size := total_size st + fsize |}.

(** The body of [for root, dirs, files in fast_scan(self.source_dir)]. *)
Definition plan_dir (source_dir destination_root : string) (patterns : list string)
    (st : planning) (e : TraversalEntry) : planning :=
  let root := dir_path e in
  let rel_path := posixpath.relpath (os.getcwd (plan_fs st)) root source_dir in
  let dst_folder := posixpath.join destination_root rel_path in
  let '(fs1, r) := os.makedirs (plan_fs st) dst_folder in
  let log1 := match r with
              | None => plan_log st
              | Some e => plan_log st ++
                  ["MKDIR ERROR " +:+ dst_folder +:+ ": " +:+ os.str e]
              end in
  foldl (plan_file patterns root dst_folder)
        {| plan_fs := fs1; plan_log := log1; plan := plan st;
           total_files := total_files st; total_size := total_size st |}
        (files e).

(** The planning loop.  [fast_scan] is a generator: each directory is
    listed when the loop asks for the next triple, after the loop body has
    made the destination folders of the triples before it.  [None] when
    [fuel] iterations of the generator do not empty its stack. *)
Fixpoint build_plan (fuel : nat) (source_dir destination_root : string)
    (patterns : list string) (scan : scan_state) (st : planning)
    : option planning :=
  match fuel with
  | O => None
  | S fuel' =>
      match scan_step (plan_fs st) scan with
      | ScanStop => Some st
      | ScanSkip scan' =>
          build_plan fuel' source_dir destination_root patterns scan' st
      | ScanYield e scan' =>
          build_plan fuel' source_dir destination_root patterns scan'
                     (plan_dir source_dir destination_root patterns st e)
      end
  end.

Definition start_message (source_dir destination_root : string) (verify_hash : bool)
    : string :=
  "START Backup" +:+ nl +:+ "  Source: " +:+ source_dir +:+ nl +:+
  "  DestRoot: " +:+ destination_root +:+ nl +:+
  "  Verify: " +:+ py_bool verify_hash.

(* --------------------------------------------------------------------- *)
(** *** [copy_one] *)

(** The [try] block of [copy_one] up to the lock: the file system and log
    it leaves, and the error string of the tuple it returns when it fails
    ([None] when it goes on to the counters). *)
Definition copy_body `{Platform} (verify_hash : bool) (fs : os.filesystem)
    (log : list string) (t : task) : os.filesystem * list string * option string :=
  let failed (fs' : os.filesystem) (e : os.exn) :=
    (fs', log ++ ["ERROR copying " +:+ src t +:+ " -> " +:+ dst t +:+ ": " +:+ os.str e],
     Some (os.str e)) in
  let '(fs1, r1) := os.makedirs fs (posixpath.dirname (dst t)) in
  match r1 with
  | Some e => failed fs1 e
  | None =>
      let '(fs2, r2) := shutil.copy2 fs1 (src t) (dst t) in
      match r2 with
      | Some e => failed fs2 e
      | None =>
          if verify_hash then
            match chunked_file_hash fs2 (src t) with
            | os.Raise e => failed fs2 e
            | os.Ok src_hash =>
                match chunked_file_hash fs2 (dst t) with
                | os.Raise e => failed fs2 e
                | os.Ok dst_hash =>
                    if negb (String.eqb src_hash dst_hash) then
                      (fs2, log ++ ["HASH MISMATCH " +:+ src t +:+ " -> " +:+ dst t],
                       Some "hash mismatch")
                    else (fs2, log, None)
                end
            end
          else (fs2, log, None)
      end
  end.

(** Where the pool thread that runs [copy_one(task)] stands. *)
Inductive worker :=
| Queued                                (* submitted; [copy_one] not entered *)
| Entered                               (* past [if self.cancelled] *)
| Copied                                (* copied and verified; before the lock *)
| Counted (files_processed copied_size : Z)
                                        (* lock released; before [emit] *)
| Returned (ok : bool) (err : option string).

Definition is_running (w : worker) : bool :=
  match w with
  | Entered | Copied | Counted _ _ => true
  | Queued | Returned _ _ => false
  end.

Definition is_returned (w : worker) : bool :=
  match w with
  | Returned _ _ => true
  | _ => false
  end.

(** The state of a run once the plan is made: the attributes of the
    worker object, the file system and log, the pool, the local variables
    of the main thread, and the signals emitted. *)
Record state := {
  fs : os.filesystem;
  log : list string;
  cancelled : bool;                  (* [self.cancelled] *)
  files_copied : Z;                  (* [self.files_copied] *)
  copied_size : Z;                   (* [self.copied_size] *)
  workers : list worker;             (* by index in the plan *)
  collected : list nat;              (* futures [as_completed] has given *)
  errors : Z;
  left_loop : bool;                  (* [break] taken *)
  events : list progress_event;      (* [progress_update], in emission order *)
  terminal : option terminal_result  (* [finished] *)
}.

Definition set_worker (i : nat) (w : worker) (st : state) : state :=
  {| fs := fs st; log := log st; cancelled := cancelled st;
     files_copied := files_copied st; copied_size := copied_size st;
     workers := <[i := w]> (workers st);
     collected := collected st; errors := errors st; left_loop := left_loop st;
     events := events st; terminal := terminal st |}.

(** What moves a run forward: the GUI thread calling [cancel()], a pool
    thread taking the next step of [copy_one] on task [i], the main thread
    receiving future [i] from [as_completed], and the main thread leaving
    the [with] block to emit [finished]. *)
Inductive action :=
| Cancel
| Work (i : nat)
| Collect (i : nat)
| Finish.

Definition running (ws : list worker) : nat := length (filter is_running ws).

(** One step of the pool thread on task [i]: the test of the flag; the
    copy and its verification; the counters under the lock; the emission
    and the return.  A task waits in the queue while all [pool] threads
    are busy. *)
Definition work `{Platform} (verify_hash : bool) (pool : nat) (tasks : list task)
    (i : nat) (st : state) : state :=
  match tasks !! i, workers st !! i with
  | Some t, Some Queued =>
      if bool_decide (running (workers st) < pool)%nat then
        if cancelled st then set_worker i (Returned false (Some "cancelled")) st
        else set_worker i Entered st
      else st
  | Some t, Some Entered =>
      let '(fs', log', r) := copy_body verify_hash (fs st) (log st) t in
      {| fs := fs'; log := log'; cancelled := cancelled st;
         files_copied := files_copied st; copied_size := copied_size st;
         workers := <[i := match r with
                           | Some err => Returned false (Some err)
                           | None => Copied
                           end]> (workers st);
         collected := collected st; errors := errors st; left_loop := left_loop st;
         events := events st; terminal := terminal st |}
  | Some t, Some Copied =>
      let n := files_copied st + 1 in
      let size := copied_size st + fsize t in
      {| fs := fs st; log := log st; cancelled := cancelled st;
         files_copied := n; copied_size := size;
         workers := <[i := Counted n size]> (workers st);
         collected := collected st; errors := errors st; left_loop := left_loop st;
         events := events st; terminal := terminal st |}
  | Some t, Some (Counted n size) =>
      {| fs := fs st;
         log := log st ++ ["COPIED " +:+ src t +:+ " -> " +:+ dst t +:+ " ("
                           +:+ pretty (fsize t) +:+ " bytes)"];
         cancelled := cancelled st;
         files_copied := files_copied st; copied_size := copied_size st;
         workers := <[i := Returned true None]> (workers st);
         collected := collected st; errors := errors st; left_loop := left_loop st;
         events := events st ++
           [{| files_processed := n; file := posixpath.basename (src t);
               file_size := fsize t; copied_so_far := size |}];
         terminal := terminal st |}
  | _, _ => st
  end.

(** The body of [for fut in as_completed(futures)] for future [i]. *)
Definition collect (i : nat) (st : state) : state :=
  match workers st !! i with
  | Some (Returned ok _) =>
      if left_loop st || bool_decide (i ∈ collected st)
         || bool_decide (is_Some (terminal st))
      then st
      else
        {| fs := fs st; log := log st; cancelled := cancelled st;
           files_copied := files_copied st; copied_size := copied_size st;
           workers := workers st;
           collected := i :: collected st;
           errors := if cancelled st then errors st
                     else if ok then errors st else errors st + 1;
           left_loop := cancelled st;
           events := events st; terminal := terminal st |}
  | _ => st
  end.

(** The loop over [as_completed(futures)] has seen every future. *)
Definition all_collected (st : state) : bool :=
  forallb (λ i, bool_decide (i ∈ collected st)) (seq 0 (length (workers st))).

Definition summary (files_copied errors : Z) : string :=
  "DONE. Files copied: " +:+ pretty files_copied +:+ "; Errors: " +:+ pretty errors.

Definition cancelled_message : string := "Backup cancelled by user.".

(** Leaving the [with ThreadPoolExecutor] block (which waits for every
    task) after the loop has ended, and emitting [finished]. *)
Definition finish (st : state) : state :=
  if bool_decide (is_Some (terminal st)) then st
  else if negb (forallb is_returned (workers st)) then st
  else if negb (left_loop st || all_collected st) then st
  else if cancelled st then
    {| fs := fs st; log := log st ++ ["CANCELLED by user"];
       cancelled := cancelled st;
       files_copied := files_copied st; copied_size := copied_size st;
       workers := workers st; collected := collected st; errors := errors st;
       left_loop := left_loop st; events := events st;
       terminal := Some (files_copied st, false, cancelled_message) |}
  else
    {| fs := fs st; log := log st ++ [summary (files_copied st) (errors st)];
       cancelled := cancelled st;
       files_copied := files_copied st; copied_size := copied_size st;
       workers := workers st; collected := collected st; errors := errors st;
       left_loop := left_loop st; events := events st;
       terminal := Some (files_copied st, bool_decide (errors st = 0),
                         if bool_decide (errors st = 0)
                         then "Backup completed successfully."
                         else summary (files_copied st) (errors st)) |}.

Definition cancel (st : state) : state :=
  {| fs := fs st; log := log st; cancelled := true;
     files_copied := files_copied st; copied_size := copied_size st;
     workers := workers st; collected := collected st; errors := errors st;
     left_loop := left_loop st; events := events st; terminal := terminal st |}.

Definition step `{Platform} (verify_hash : bool) (pool : nat) (tasks : list task)
    (st : state) (a : action) : state :=
  match a with
  | Cancel => cancel st
  | Work i => work verify_hash pool tasks i st
  | Collect i => collect i st
  | Finish => finish st
  end.

(** The steps of a schedule, in order. *)
Definition exec `{Platform} (verify_hash : bool) (pool : nat) (tasks : list task)
    (st : state) (schedule : list action) : state :=
  foldl (step verify_hash pool tasks) st schedule.

(** The state in which the pool is started. *)
Definition submitted (p : planning) : state :=
  {| fs := plan_fs p; log := plan_log p; cancelled := false;
     files_copied := 0; copied_size := 0;
     workers := replicate (length (plan p)) Queued;
     collected := []; errors := 0; left_loop := false;
     events := []; terminal := None |}.

Definition no_files_message (source_dir : string) : string :=
  "No files found to backup in: " +:+ source_dir.

(** The state in which [run] returns when the plan is empty. *)
Definition nothing_to_do (p : planning) (source_dir : string) : state :=
  {| fs := plan_fs p; log := plan_log p ++ [no_files_message source_dir];
     cancelled := false; files_copied := 0; copied_size := 0;
     workers := []; collected := []; errors := 0; left_loop := false;
     events := [];
     terminal := Some (0, false, no_files_message source_dir) |}.

(** The planning phase of [run]. *)
Definition make_plan (fuel : nat) (fs : os.filesystem)
    (source_dir destination_root : string) (patterns : list string)
    (verify_hash : bool) : option planning :=
  build_plan fuel source_dir destination_root patterns (scan_init source_dir)
    {| plan_fs := fs;
       plan_log := [start_message source_dir destination_root verify_hash];
       plan := []; total_files := 0; total_size := 0 |}.

(** [BackupWorker.run] under a schedule: the plan is built ([fuel] bounds
    the iterations of the scan); an empty plan ends the run at once;
    otherwise the pool, the main thread and the GUI thread take their steps
    in the order of [schedule].  The result is the state reached, with
    [terminal] set once [finished] has been emitted. *)
Definition run `{Platform} (fuel : nat) (fs : os.filesystem)
    (source_dir destination_root : string) (patterns : list string)
    (max_workers : option nat) (verify_hash : bool) (schedule : list action)
    : option state :=
  p ← make_plan fuel fs source_dir destination_root patterns verify_hash;
  if bool_decide (total_files p = 0) then Some (nothing_to_do p source_dir)
  else Some (exec verify_hash (pool_size max_workers) (plan p)
                  (submitted p) schedule).

(** A schedule that runs the tasks one after the other, collects the
    futures and finishes. *)
Definition sequential (n : nat) : list action :=
  (i ← seq 0 n; [Work i; Work i; Work i; Work i]) ++ (Collect <$> seq 0 n) ++ [Finish].

(** No progress event reports less than an event emitted before it. *)
Definition monotone_progress (evs : list progress_event) : Prop :=
  ∀ i j e1 e2, (i ≤ j)%nat → evs !! i = Some e1 → evs !! j = Some e2 →
    files_processed e1 ≤ files_processed e2 ∧ copied_so_far e1 ≤ copied_so_far e2.

(** The events are snapshots of counters that only grow: no two events
    report the same number of files, and the event with the larger number
    of files does not report fewer bytes. *)
Definition consistent_progress (evs : list progress_event) : Prop :=
  NoDup (files_processed <$> evs) ∧
  ∀ e1 e2, e1 ∈ evs → e2 ∈ evs →
    files_processed e1 < files_processed e2 → copied_so_far e1 ≤ copied_so_far e2.

(** The tasks that have returned [True]. *)
Definition returned_ok (w : worker) : bool :=
  match w with
  | Returned true _ => true
  | _ => false
  end.

Definition succeeded (ws : list worker) : nat := length (filter returned_ok ws).

(** The tasks that have passed the lock. *)
Definition counted (w : worker) : bool :=
  match w with
  | Counted _ _ | Returned true _ => true
  | _ => false
  end.

(* --------------------------------------------------------------------- *)
(** *** Invariants of a run *)

(** The counter [total_files] is the length of the plan, and no size in
    the plan is negative. *)
Definition plan_ok (st : planning) : Prop :=
  total_files st = Z.of_nat (length (plan st)) ∧
  Forall (λ t, 0 ≤ fsize t) (plan st).

(** [self.files_copied] counts the tasks that have passed the lock. *)
Definition counters_ok (st : state) : Prop :=
  files_copied st = Z.of_nat (length (filter counted (workers st))).

(** Once [finished] is emitted nothing moves any more: the terminal result
    carries the final value of the counter. *)
Definition terminal_ok (st : state) : Prop :=
  ∀ r, terminal st = Some r →
    forallb is_returned (workers st) = true ∧ r.1.1 = files_copied st.

(** With the flag set, the only terminal result is the cancellation. *)
Definition cancel_reported (st : state) : Prop :=
  cancelled st = true ∧
  (terminal st = None ∨ ∃ n, terminal st = Some (n, false, cancelled_message)).

Definition queued_or_cancelled (i : nat) (st : state) : Prop :=
  cancelled st = true ∧
  (workers st !! i = Some Queued ∨
   workers st !! i = Some (Returned false (Some "cancelled"))).

(** The main thread's account of failures: every future it has received
    has returned; unless the flag is set, the loop is still running and
    every failed task it has received is counted in [errors]; and a
    terminal result is either the cancellation or the verdict of a loop
    that has received, and counted, every failed task. *)
Definition errors_ok (st : state) : Prop :=
  0 ≤ errors st ∧
  (∀ i, i ∈ collected st → ∃ ok err, workers st !! i = Some (Returned ok err)) ∧
  (cancelled st = false →
     left_loop st = false ∧
     ∀ i err, i ∈ collected st → workers st !! i = Some (Returned false err) →
       1 ≤ errors st) ∧
  (∀ n ok msg, terminal st = Some (n, ok, msg) →
     (ok = false ∧ msg = cancelled_message) ∨
     (ok = bool_decide (errors st = 0) ∧
      msg = (if bool_decide (errors st = 0) then "Backup completed successfully."
             else summary n (errors st)) ∧
      ∀ i err, workers st !! i = Some (Returned false err) → 1 ≤ errors st)).

(** The snapshots of the counters taken under the lock — those already
    emitted as events and those held by workers between the lock and the
    [emit] ([held i n s]: worker [i] holds [(n, s)]) — are consistent with
    counters that only grow. *)
Definition snaps_ok (fc cs : Z) (evs : list progress_event)
    (held : nat → Z → Z → Prop) : Prop :=
  0 ≤ fc ∧
  (∀ e, e ∈ evs → 1 ≤ files_processed e ≤ fc ∧ copied_so_far e ≤ cs) ∧
  (∀ i n s, held i n s → 1 ≤ n ≤ fc ∧ s ≤ cs) ∧
  (∀ e1 e2, e1 ∈ evs → e2 ∈ evs →
     files_processed e1 < files_processed e2 → copied_so_far e1 ≤ copied_so_far e2) ∧
  (∀ e i n s, e ∈ evs → held i n s →
     files_processed e ≠ n ∧
     (files_processed e < n → copied_so_far e ≤ s) ∧
     (n < files_processed e → s ≤ copied_so_far e)) ∧
  (∀ i j n s n' s', held i n s → held j n' s' →
     (n = n' → i = j) ∧ (n < n' → s ≤ s')) ∧
  NoDup (files_processed <$> evs).

Definition holds (st : state) (i : nat) (n s : Z) : Prop :=
  workers st !! i = Some (Counted n s).

Definition snapshots_ok (st : state) : Prop :=
  snaps_ok (files_copied st) (copied_size st) (events st) (holds st).

(** With one thread in the pool, a snapshot held by a worker is the
    current value of the counters, and the events are emitted in the
    order in which the counters were read. *)
Definition serial_ok (st : state) : Prop :=
  (running (workers st) ≤ 1)%nat ∧
  monotone_progress (events st) ∧
  (∀ e, e ∈ events st →
     files_processed e ≤ files_copied st ∧ copied_so_far e ≤ copied_size st) ∧
  (∀ i n s, workers st !! i = Some (Counted n s) →
     n = files_copied st ∧ s = copied_size st).

(** The source and the destination of a task are the same path. *)
Definition onto_itself (t : task) : Prop := dst t = src t.

(** Nothing is ever counted or emitted when every task is a copy of a
    path onto itself. *)
Definition nothing_copied (st : state) : Prop :=
  files_copied st = 0 ∧ events st = [] ∧
  ∀ i w, workers st !! i = Some w →
    w = Queued ∨ w = Entered ∨ ∃ err, w = Returned false err.

(** A terminal result emitted with the flag clear is the verdict of the
    loop: [success] says whether [errors] is zero, a failure shows the
    count in its message, and every task that returned [False] is in it. *)
Definition verdict_ok (st : state) : Prop :=
  ∀ n ok msg, terminal st = Some (n, ok, msg) →
    cancelled st = true ∨
    (ok = bool_decide (errors st = 0) ∧
     msg = (if bool_decide (errors st = 0) then "Backup completed successfully."
            else summary n (errors st)) ∧
     ∀ i err, workers st !! i = Some (Returned false err) → 1 ≤ errors st).

(** The tasks that have returned [False]. *)
Definition returned_failed (w : worker) : bool :=
  match w with
  | Returned false _ => true
  | _ => false
  end.

Definition failed_at (ws : list worker) (i : nat) : bool :=
  from_option returned_failed false (ws !! i).

(** The main thread's tally: no future is received twice; while the flag
    is clear, [errors] counts the futures received that returned [False];
    and a verdict emitted with the flag clear is the one of a loop that
    has received every future. *)
Definition tally_ok (st : state) : Prop :=
  NoDup (collected st) ∧
  (cancelled st = false →
     errors st = Z.of_nat (length (filter (λ i, failed_at (workers st) i)
                                          (collected st)))) ∧
  (∀ n ok msg, terminal st = Some (n, ok, msg) →
     cancelled st = true ∨
     (all_collected st = true ∧ ok = bool_decide (errors st = 0) ∧
      msg = if bool_decide (errors st = 0) then "Backup completed successfully."
            else summary n (errors st))).

(** The bytes of the tasks of a plan, and of those that have passed the
    lock. *)
Definition plan_size (tasks : list task) : Z :=
  foldr (λ t acc, fsize t + acc) 0 tasks.

Fixpoint size_of_counted (tasks : list task) (ws : list worker) : Z :=
  match tasks, ws with
  | t :: tasks', w :: ws' =>
      (if counted w then fsize t else 0) + size_of_counted tasks' ws'
  | _, _ => 0
  end.

(** [self.total_size] is the sum of the sizes in the plan. *)
Definition size_ok (st : planning) : Prop :=
  total_size st = plan_size (plan st).

(** [self.copied_size] is the sum of the sizes of the tasks that have
    passed the lock. *)
Definition bytes_ok (tasks : list task) (st : state) : Prop :=
  copied_size st = size_of_counted tasks (workers st).

End BackupWorker.

(* ===================================================================== *)
(** ** [MainWindow.find_duplicates] *)
(* ===================================================================== *)

Module MainWindow.

(** [file_extensions and not filename.lower().endswith(tuple(file_extensions))] *)
Definition extension_rejected (file_extensions : option (list string))
    (filename : string) : bool :=
  match file_extensions with
  | None | Some [] => false
  | Some exts => negb (existsb (pystr.endswith (pystr.lower filename)) exts)
  end.

(** The two dictionaries of the loop. *)
Record dedupe_state := {
  hashes : gmap string string;
  duplicates : gmap string (list string)
}.

Definition dedupe_init : dedupe_state := {| hashes := ∅; duplicates := ∅ |}.

(** The path that is hashed for a name the scan yielded. *)
Definition filepath_of (dirpath filename : string) : string :=
  if negb (posixpath.isabs filename)
  then posixpath.join dirpath (posixpath.basename filename)
  else filename.

(** The [if file_hash in hashes: ... else: ...] at the end of the loop body. *)
Definition record_hash (file_hash filepath : string) (st : dedupe_state)
    : dedupe_state :=
  match hashes st !! file_hash with
  | Some first_path =>
      let group := default [] (duplicates st !! file_hash) ++ [filepath] in
      let group' :=
        if bool_decide (first_path ∈ group) then group else group ++ [first_path] in
      {| hashes := hashes st;
         duplicates := <[file_hash := group']> (duplicates st) |}
  | None =>
      {| hashes := <[file_hash := filepath]> (hashes st);
         duplicates := duplicates st |}
  end.

(** The tests of the loop body before the dictionaries are touched: the
    path and digest of a file that gets that far, [None] after a [continue]. *)
Definition hashed_file `{Platform} (fs : os.filesystem) (min_size : Z)
    (file_extensions : option (list string)) (dirpath filename : string)
    : option (string * string) :=
  if extension_rejected file_extensions filename then None
  else
    let filepath := filepath_of dirpath filename in
    match os.getsize fs filepath with
    | os.Raise _ => None
    | os.Ok size =>
        if (size <? min_size)%Z then None
        else match chunked_file_hash fs filepath with
             | os.Raise _ => None
             | os.Ok file_hash => Some (filepath, file_hash)
             end
    end.

(** The body of [for filename in filenames]. *)
Definition scan_file `{Platform} (fs : os.filesystem) (min_size : Z)
    (file_extensions : option (list string)) (dirpath : string)
    (st : dedupe_state) (filename : string) : dedupe_state :=
  match hashed_file fs min_size file_extensions dirpath filename with
  | Some (filepath, file_hash) => record_hash file_hash filepath st
  | None => st
  end.

(** The two nested loops over [fast_scan(directory)]. *)
Definition scan_tree `{Platform} (fs : os.filesystem) (directory : string)
    (min_size : Z) (file_extensions : option (list string)) : dedupe_state :=
  foldl (λ st e,
           foldl (scan_file fs min_size file_extensions (dir_path e)) st (files e))
        dedupe_init (fast_scan fs directory).

Definition find_duplicates `{Platform} (fs : os.filesystem) (directory : string)
    (min_size : Z) (file_extensions : option (list string))
    : gmap string (list string) :=
  filter (λ kv, 1 < length kv.2)
         (duplicates (scan_tree fs directory min_size file_extensions)).

(** The files the loop hashes, with their digests, in the order in which
    the traversal meets them. *)
Definition hashed_files `{Platform} (fs : os.filesystem) (directory : string)
    (min_size : Z) (file_extensions : option (list string))
    : list (string * string) :=
  e ← fast_scan fs directory;
  omap (hashed_file fs min_size file_extensions (dir_path e)) (files e).

(** The paths met with digest [h], in that order. *)
Definition paths_with_hash (h : string) (l : list (string * string)) : list string :=
  (filter (λ ph, ph.2 = h) l).*1.

(** One pass of the loop body over an already hashed file. *)
Definition record_pair (st : dedupe_state) (ph : string * string) : dedupe_state :=
  record_hash ph.2 ph.1 st.

(** What "Delete Duplicates" and "Move Duplicates" act on: [paths[1:]]. *)
Definition acted_on (paths : list string) : list string := drop 1 paths.

End MainWindow.

(* ===================================================================== *)
(** ** Example file systems *)
(* ===================================================================== *)

Module examples.
Import os.

Definition bytes_of (s : string) : list byte := list_byte_of_string s.

(** A stand-in hasher for the examples: the state is the data seen so far
    and the digest spells it out, so equal digests mean equal content. *)
Definition spell (data : list byte) : string := string_of_list_byte data.

#[local] Instance sound_posix : Platform := {|
  md5_state := list byte;
  md5_new := [];
  md5_update := λ st chunk, st ++ chunk;
  md5_hexdigest := spell;
  storage_write := λ _ data, data;
  is_windows := false;
  cpu_count := Some 4%nat
|}.

(** The same platform on a medium that loses the last byte written. *)
#[local] Instance lossy_posix : Platform := {|
  md5_state := list byte;
  md5_new := [];
  md5_update := λ st chunk, st ++ chunk;
  md5_hexdigest := spell;
  storage_write := λ _ data, removelast data;
  is_windows := false;
  cpu_count := Some 4%nat
|}.

Definition mkfs (l : list (list string * inode)) : filesystem :=
  {| inodes := list_to_map l; cwd := [] |}.

(** [/t/a/loop -> /t] and [/t/b/back -> ../a]: a symlink cycle. *)
Definition cyclic : filesystem := mkfs [
  ([], IDir 493);
  (["t"], IDir 493);
  (["t"; "a"], IDir 493);
  (["t"; "a"; "loop"], ILink "/t");
  (["t"; "a"; "f.txt"], IFile 420 (bytes_of "hello"));
  (["t"; "b"], IDir 493);
  (["t"; "b"; "back"], ILink "../a");
  (["t"; "b"; "g.txt"], IFile 420 (bytes_of "world"))
].

(** [a.txt] and [b.txt] with the same ten bytes, [c.txt] with five others. *)
Definition twins : filesystem := mkfs [
  ([], IDir 493);
  (["d"], IDir 493);
  (["d"; "a.txt"], IFile 420 (bytes_of "0123456789"));
  (["d"; "b.txt"], IFile 420 (bytes_of "0123456789"));
  (["d"; "c.txt"], IFile 420 (bytes_of "abcde"))
].

(** [/t] is readable but not searchable (mode 0o600), as after a
    recursive [chmod 600]; below it a directory and two files. *)
Definition locked : filesystem := mkfs [
  ([], IDir 493);
  (["t"], IDir 384);
  (["t"; "f"], IFile 384 (bytes_of "top"));
  (["t"; "sub"], IDir 448);
  (["t"; "sub"; "g"], IFile 384 (bytes_of "deep"))
].

(** Five small files under [/src], an empty [/dst]. *)
Definition five_files (cwd : list string) : filesystem :=
  {| inodes := list_to_map [
       ([], IDir 493);
       (["src"], IDir 493);
       (["src"; "1"], IFile 420 (bytes_of "one"));
       (["src"; "2"], IFile 420 (bytes_of "two"));
       (["src"; "3"], IFile 420 (bytes_of "three"));
       (["src"; "4"], IFile 420 (bytes_of "four"));
       (["src"; "5"], IFile 420 (bytes_of "five"));
       (["dst"], IDir 493)
     ];
     cwd := cwd |}.

(** Three files of 100 bytes under [/src], an empty [/dst]. *)
Definition three_files (cwd : list string) : filesystem :=
  {| inodes := list_to_map [
       ([], IDir 493);
       (["src"], IDir 493);
       (["src"; "a.txt"], IFile 420 (replicate 100 "a"%byte));
       (["src"; "b.txt"], IFile 420 (replicate 100 "b"%byte));
       (["src"; "c.txt"], IFile 420 (replicate 100 "c"%byte));
       (["dst"], IDir 493)
     ];
     cwd := cwd |}.

End examples.


(* ===================================================================== *)
(** * Properties *)
(* ===================================================================== *)

Example join_absolute_second :
  posixpath.join "/dst/." "/src/a.txt" = "/src/a.txt".
Proof. reflexivity. Qed.

Example join_relative : posixpath.join "/src" "a.txt" = "/src/a.txt".
Proof. reflexivity. Qed.

Example relpath_same : posixpath.relpath "/" "/src" "/src" = ".".
Proof. reflexivity. Qed.

Example relpath_sub : posixpath.relpath "/" "/src/x/y" "/src" = "x/y".
Proof. reflexivity. Qed.

Example split_trailing_dot : posixpath.split "/dst/." = ("/dst", ".").
Proof. reflexivity. Qed.

Example basename_ex : posixpath.basename "/src/a.txt" = "a.txt".
Proof. reflexivity. Qed.

Example endswith_ex : pystr.endswith (pystr.lower "/src/A.TXT") ".txt" = true.
Proof. reflexivity. Qed.

(* ===================================================================== *)
(** ** [fast_scan]: termination, and every real directory at most once *)
(* ===================================================================== *)

Section sum_filter.
Context {A : Type} (f : A → nat).
Context (P Q : A → Prop) `{∀ x, Decision (P x)} `{∀ x, Decision (Q x)}.
Hypothesis Q_P : ∀ x, Q x → P x.

Lemma sum_filter_mono (l : list A) :
  sum_list (f <$> filter Q l) ≤ sum_list (f <$> filter P l).
Proof.
  induction l as [|x l IH]; [done|].
  rewrite !filter_cons.
  destruct (decide (Q x)) as [HQ|HQ]; destruct (decide (P x)) as [HP|HP]; csimpl.
  - lia.
  - destruct HP. by apply Q_P.
  - lia.
  - done.
Qed.

Lemma sum_filter_drop (l : list A) (c : A) :
  c ∈ l → P c → ¬ Q c →
  sum_list (f <$> filter Q l) + f c ≤ sum_list (f <$> filter P l).
Proof.
  induction l as [|x l IH]; [by intros ?%elem_of_nil|].
  intros Hin HP HQ. rewrite !filter_cons.
  apply elem_of_cons in Hin as [<-|Hin].
  - rewrite decide_False by done. rewrite decide_True by done.
    csimpl. pose proof (sum_filter_mono l). lia.
  - specialize (IH Hin HP HQ).
    destruct (decide (Q x)) as [HQx|HQx]; destruct (decide (P x)) as [HPx|HPx]; csimpl.
    + lia.
    + destruct HPx. by apply Q_P.
    + lia.
    + done.
Qed.
End sum_filter.

Lemma pending_mono nd (V V' : gset string) :
  V ⊆ V' → pending nd V' ≤ pending nd V.
Proof.
  intros HV. unfold pending. apply sum_filter_mono. set_solver.
Qed.

Lemma pending_visit nd (V : gset string) c :
  c ∈ dir_keys nd → os.canon_str c ∉ V →
  pending nd ({[os.canon_str c]} ∪ V) + nsubdirs nd c ≤ pending nd V.
Proof.
  intros Hc HV. unfold pending.
  apply sum_filter_drop; [set_solver|done|done|set_solver].
Qed.

Lemma classify_spec entries :
  classify entries =
    (os.entry_path <$> filter (λ e, os.is_dir_inode (os.entry_inode e)) entries,
     os.entry_path <$> filter (λ e, ¬ os.is_dir_inode (os.entry_inode e)) entries).
Proof.
  induction entries as [|e es IH]; [done|].
  simpl. rewrite IH. rewrite !filter_cons. unfold os.is_dir_nofollow.
  destruct (os.is_dir_inode (os.entry_inode e)) eqn:Hd; simpl; reflexivity.
Qed.

(** What a successful [os.scandir] tells about the file system. *)
Lemma scandir_Ok fs path entries :
  os.scandir fs path = os.Ok entries →
  ∃ c m, os.resolve fs path = os.Ok c ∧
         os.inodes fs !! c = Some (os.IDir m) ∧
         os.readable m = true ∧
         entries = map (λ ni, {| os.entry_name := ni.1;
                                 os.entry_path := posixpath.join path ni.1;
                                 os.entry_inode := ni.2 |})
                       (os.children (os.inodes fs) c).
Proof.
  unfold os.scandir, os.stat. intros Hs.
  destruct (os.resolve fs path) as [c|e] eqn:Hr; simpl in Hs; [|done].
  destruct (os.inodes fs !! c) as [i|] eqn:Hi; simpl in Hs; [|done].
  destruct i as [m d|m|t]; try done.
  destruct (os.readable m) eqn:Hm; [|done].
  exists c, m. by inversion Hs.
Qed.

Lemma scandir_subdirs_length fs path entries c m :
  os.resolve fs path = os.Ok c →
  os.inodes fs !! c = Some (os.IDir m) →
  os.scandir fs path = os.Ok entries →
  length (classify entries).1 = nsubdirs (os.inodes fs) c.
Proof.
  intros Hr Hi Hs. apply scandir_Ok in Hs as (c' & m' & Hr' & _ & _ & ->).
  rewrite Hr in Hr'. inversion Hr'; subst c'.
  rewrite classify_spec. simpl. rewrite length_fmap. unfold nsubdirs.
  generalize (os.children (os.inodes fs) c). intros l.
  induction l as [|x l IH]; [done|].
  simpl. rewrite !filter_cons. simpl.
  destruct (decide (os.is_dir_inode x.2)); simpl; by rewrite IH.
Qed.

Lemma dir_keys_elem nd c m :
  nd !! c = Some (os.IDir m) → c ∈ dir_keys nd.
Proof.
  intros Hc. unfold dir_keys. apply list_elem_of_fmap.
  exists (c, os.IDir m). split; [done|].
  apply list_elem_of_filter. split; [done|]. by apply elem_of_map_to_list.
Qed.


(** Every iteration that does not stop lowers the potential. *)
Lemma scan_step_potential fs st :
  match scan_step fs st with
  | ScanStop => stack st = []
  | ScanSkip st' => potential fs st' < potential fs st
  | ScanYield _ st' => potential fs st' < potential fs st
  end.
Proof.
  unfold scan_step, potential. destruct st as [[|path stk] V]; simpl; [done|].
  destruct (decide (os.realpath fs path ∈ V)) as [Hin|Hin]; simpl; [lia|].
  destruct (os.scandir fs path) as [entries|e] eqn:Hs; simpl.
  - destruct (scandir_Ok _ _ _ Hs) as (c & m & Hr & Hi & _ & _).
    pose proof (scandir_subdirs_length _ _ _ _ _ Hr Hi Hs) as Hlen.
    destruct (classify entries) as [dirs fls] eqn:Hc. simpl in *.
    rewrite length_app, length_reverse, Hlen.
    assert (os.realpath fs path = os.canon_str c) as Hreal
      by (unfold os.realpath; by rewrite Hr).
    rewrite Hreal in *.
    pose proof (pending_visit (os.inodes fs) V c (dir_keys_elem _ _ _ Hi) Hin). lia.
  - pose proof (pending_mono (os.inodes fs) V ({[os.realpath fs path]} ∪ V)
                  ltac:(set_solver)). lia.
Qed.

Lemma scan_all_terminates fs st fuel :
  potential fs st < fuel → is_Some (scan_all fuel fs st).
Proof.
  revert st. induction fuel as [|fuel IH]; intros st Hp; [lia|].
  simpl. pose proof (scan_step_potential fs st) as Hstep.
  destruct (scan_step fs st) as [|st'|e st']; [done| |].
  - apply IH. lia.
  - destruct (IH st' ltac:(lia)) as [l Hl]. rewrite Hl. done.
Qed.

Lemma scan_all_fuel_irrelevant fs st fuel fuel' out :
  scan_all fuel fs st = Some out → fuel ≤ fuel' → scan_all fuel' fs st = Some out.
Proof.
  revert st fuel' out. induction fuel as [|fuel IH]; intros st fuel' out; [done|].
  intros Hs Hle. destruct fuel' as [|fuel']; [lia|]. simpl in *.
  destruct (scan_step fs st) as [|st'|e st']; [done| |].
  - apply IH; [done|lia].
  - destruct (scan_all fuel fs st') as [l|] eqn:Hl; [|done].
    rewrite (IH st' fuel' l Hl) by lia. done.
Qed.

Lemma fast_scan_scan_all fs base_path :
  scan_all (scan_bound fs) fs (scan_init base_path) = Some (fast_scan fs base_path).
Proof.
  unfold fast_scan.
  destruct (scan_all_terminates fs (scan_init base_path) (scan_bound fs)) as [l ->];
    [|done].
  unfold potential, scan_bound, scan_init. simpl. lia.
Qed.

(** The canonical paths of the directories yielded from [st] on are
    pairwise different and were not visited before. *)
Lemma scan_all_fresh fs fuel st out :
  scan_all fuel fs st = Some out →
  NoDup (os.realpath fs ∘ dir_path <$> out) ∧
  ∀ e, e ∈ out → os.realpath fs (dir_path e) ∉ visited st.
Proof.
  revert st out. induction fuel as [|fuel IH]; intros st out; [done|].
  simpl. unfold scan_step.
  destruct st as [[|path stk] V]; simpl.
  { intros [= <-]. split; [constructor|]. by intros e ?%elem_of_nil. }
  destruct (decide (os.realpath fs path ∈ V)) as [Hin|Hin].
  { intros Hs. apply IH in Hs. done. }
  destruct (os.scandir fs path) as [entries|err] eqn:Hs.
  - destruct (classify entries) as [dirs fls]. simpl.
    destruct (scan_all fuel fs _) as [l|] eqn:Hl; [|done].
    intros [= <-]. apply IH in Hl as [Hnd Hfresh]. simpl in Hfresh. split.
    + rewrite fmap_cons. constructor; [|done]. simpl.
      intros (e & He & Hel)%list_elem_of_fmap. apply Hfresh in Hel.
      simpl in He. rewrite <- He in Hel. set_solver.
    + intros e [->|He]%elem_of_cons; [done|].
      apply Hfresh in He. set_solver.
  - intros Hs'. apply IH in Hs' as [Hnd Hfresh]. simpl in Hfresh. split; [done|].
    intros e He. apply Hfresh in He. set_solver.
Qed.

(** Every yielded path denotes a readable real directory. *)
Lemma scan_all_dirs fs fuel st out e :
  scan_all fuel fs st = Some out → e ∈ out →
  ∃ c m, os.resolve fs (dir_path e) = os.Ok c ∧
         os.inodes fs !! c = Some (os.IDir m) ∧
         os.realpath fs (dir_path e) = os.canon_str c.
Proof.
  revert st out. induction fuel as [|fuel IH]; intros st out; [done|].
  simpl. unfold scan_step.
  destruct st as [[|path stk] V]; simpl.
  { intros [= <-] ?%elem_of_nil. done. }
  destruct (decide (os.realpath fs path ∈ V)) as [Hin|Hin]; [by eauto|].
  destruct (os.scandir fs path) as [entries|err] eqn:Hs; [|by eauto].
  destruct (classify entries) as [dirs fls]. simpl.
  destruct (scan_all fuel fs _) as [l|] eqn:Hl; [|done].
  intros [= <-] [->|He]%elem_of_cons; [|by eauto].
  apply scandir_Ok in Hs as (c & m & Hr & Hi & _ & _). simpl.
  exists c, m. unfold os.realpath. rewrite Hr. done.
Qed.

(** C2.  On every file system (symlink cycles included) and from every
    base path, [fast_scan] terminates: the generator empties its stack
    within [scan_bound fs] iterations (and any larger number gives the same
    result), yielding a finite list of triples; the yielded paths denote
    real directories whose canonical (symlink-resolved) paths are pairwise
    different, so no real directory is yielded twice. *)
Theorem fast_scan_terminates_once (fs : os.filesystem) (base_path : string) :
  (∀ fuel, scan_bound fs ≤ fuel →
     scan_all fuel fs (scan_init base_path) = Some (fast_scan fs base_path)) ∧
  NoDup (os.realpath fs ∘ dir_path <$> fast_scan fs base_path) ∧
  (∀ e, e ∈ fast_scan fs base_path →
     ∃ c m, os.resolve fs (dir_path e) = os.Ok c ∧
            os.inodes fs !! c = Some (os.IDir m) ∧
            os.realpath fs (dir_path e) = os.canon_str c).
Proof.
  pose proof (fast_scan_scan_all fs base_path) as Hs. split; [|split].
  - intros fuel Hle. by apply (scan_all_fuel_irrelevant _ _ _ _ _ Hs).
  - by apply (scan_all_fresh _ _ _ _ Hs).
  - intros e He. by apply (scan_all_dirs _ _ _ _ _ Hs).
Qed.

Example fast_scan_cyclic :
  dir_path <$> fast_scan examples.cyclic "/t" = ["/t"; "/t/a"; "/t/b"].
Proof. vm_compute. reflexivity. Qed.

(* ===================================================================== *)
(** ** [fast_scan]: symlinks are listed as files and never descended into *)
(* ===================================================================== *)

(** Each yielded triple is the classification of one directory listing. *)
Lemma scan_all_listing fs fuel st out e :
  scan_all fuel fs st = Some out → e ∈ out →
  ∃ entries, os.scandir fs (dir_path e) = os.Ok entries ∧
             (subdirs e, files e) = classify entries.
Proof.
  revert st out. induction fuel as [|fuel IH]; intros st out; [done|].
  simpl. unfold scan_step.
  destruct st as [[|path stk] V]; simpl.
  { intros [= <-] ?%elem_of_nil. done. }
  destruct (decide (os.realpath fs path ∈ V)) as [Hin|Hin]; [by eauto|].
  destruct (os.scandir fs path) as [entries|err] eqn:Hs; [|by eauto].
  destruct (classify entries) as [dirs fls] eqn:Hc. simpl.
  destruct (scan_all fuel fs _) as [l|] eqn:Hl; [|done].
  intros [= <-] [->|He]%elem_of_cons; [|by eauto].
  exists entries. simpl. by rewrite Hc.
Qed.

(** Whatever is yielded was on the stack at the start or was listed as a
    sub-directory by an entry yielded before it. *)
Lemma scan_all_origin fs fuel st out l1 e l2 :
  scan_all fuel fs st = Some out → out = l1 ++ e :: l2 →
  dir_path e ∈ stack st ∨ ∃ e', e' ∈ l1 ∧ dir_path e ∈ subdirs e'.
Proof.
  revert st out l1. induction fuel as [|fuel IH]; intros st out l1; [done|].
  simpl. unfold scan_step.
  destruct st as [[|path stk] V]; simpl.
  { intros [= <-] Hnil. by destruct l1. }
  destruct (decide (os.realpath fs path ∈ V)) as [Hin|Hin].
  { intros Hs ->. destruct (IH _ _ _ Hs eq_refl) as [Hst|Hex]; simpl in *.
    - left. by apply elem_of_cons; right.
    - by right. }
  destruct (os.scandir fs path) as [entries|err] eqn:Hs.
  - destruct (classify entries) as [dirs fls] eqn:Hc. simpl.
    destruct (scan_all fuel fs _) as [l|] eqn:Hl; [|done].
    intros [= <-] Hout. destruct l1 as [|e0 l1]; simpl in Hout.
    + inversion Hout; subst. left. simpl. by apply elem_of_cons; left.
    + inversion Hout; subst.
      destruct (IH _ _ _ Hl eq_refl) as [Hst|(e' & He' & Hd)]; simpl in *.
      * apply elem_of_app in Hst as [Hst|Hst].
        -- right. eexists. split; [by apply elem_of_cons; left|].
           simpl. by apply elem_of_reverse.
        -- left. by apply elem_of_cons; right.
      * right. exists e'. split; [by apply elem_of_cons; right|done].
  - intros Hs' ->. destruct (IH _ _ _ Hs' eq_refl) as [Hst|Hex]; simpl in *.
    + left. by apply elem_of_cons; right.
    + by right.
Qed.

(** C9.  In every triple [fast_scan] yields, [subdirs] holds exactly the
    entries of the listing that are directories themselves (a symlink is
    not, whatever it points to) and [files] holds all the other entries:
    each member of [subdirs] is the path of a real directory entry, each
    symlink entry is in [files]; and a directory is only ever scanned
    because it is the base path or was listed in [subdirs] by an earlier
    triple, so no symlink is pushed on the stack or descended into. *)
Theorem fast_scan_no_symlink_descent (fs : os.filesystem) (base_path : string) :
  (∀ e, e ∈ fast_scan fs base_path →
     ∃ entries, os.scandir fs (dir_path e) = os.Ok entries ∧
       subdirs e = os.entry_path <$>
                     filter (λ en, os.is_dir_inode (os.entry_inode en)) entries ∧
       files e = os.entry_path <$>
                     filter (λ en, ¬ os.is_dir_inode (os.entry_inode en)) entries ∧
       (∀ d, d ∈ subdirs e →
          ∃ en m, en ∈ entries ∧ os.entry_path en = d ∧
                  os.entry_inode en = os.IDir m) ∧
       (∀ en t, en ∈ entries → os.entry_inode en = os.ILink t →
          os.entry_path en ∈ files e)) ∧
  (∀ l1 e l2, fast_scan fs base_path = l1 ++ e :: l2 →
     dir_path e = base_path ∨ ∃ e', e' ∈ l1 ∧ dir_path e ∈ subdirs e').
Proof.
  pose proof (fast_scan_scan_all fs base_path) as Hs. split.
  - intros e He.
    destruct (scan_all_listing _ _ _ _ _ Hs He) as (entries & Hsd & Hc).
    rewrite classify_spec in Hc. inversion Hc as [[Hd Hf]].
    exists entries. split; [done|]. split; [done|]. split; [done|]. split.
    + intros d Hin. rewrite Hd in Hin.
      apply list_elem_of_fmap in Hin as (en & -> & Hen).
      apply list_elem_of_filter in Hen as [Hdir Hen].
      destruct (os.entry_inode en) as [? ?|m|?] eqn:Hi; try done.
      by exists en, m.
    + intros en t Hen Hi. rewrite Hf. apply list_elem_of_fmap.
      exists en. split; [done|].
      apply list_elem_of_filter. split; [|done]. rewrite Hi. simpl. tauto.
  - intros l1 e l2 Hout.
    destruct (scan_all_origin _ _ _ _ _ _ _ Hs Hout) as [Hst|Hex]; [|by right].
    left. simpl in Hst. by apply list_elem_of_singleton in Hst.
Qed.

Example fast_scan_cyclic_files :
  files <$> fast_scan examples.cyclic "/t" =
    [[]; ["/t/a/f.txt"; "/t/a/loop"]; ["/t/b/g.txt"; "/t/b/back"]].
Proof. vm_compute. reflexivity. Qed.

(* ===================================================================== *)
(** ** [find_duplicates]: groups have two members or more, all with the
       digest that is the group's key *)
(* ===================================================================== *)

Section dedupe.
Context `{Platform}.
Import MainWindow.


Lemma scan_files_hashed fs min_size exts dirpath (fnames : list string) st :
  foldl (scan_file fs min_size exts dirpath) st fnames =
  foldl record_pair st (omap (hashed_file fs min_size exts dirpath) fnames).
Proof.
  revert st. induction fnames as [|f fnames IH]; intros st; [done|].
  simpl. rewrite IH. unfold scan_file.
  destruct (hashed_file fs min_size exts dirpath f) as [[p h]|]; done.
Qed.

(** The nested loops are one pass over [hashed_files]. *)
Lemma scan_tree_hashed_files fs directory min_size exts :
  scan_tree fs directory min_size exts =
  foldl record_pair dedupe_init (hashed_files fs directory min_size exts).
Proof.
  unfold scan_tree, hashed_files. generalize dedupe_init.
  induction (fast_scan fs directory) as [|e out IH]; intros st; [done|].
  simpl. rewrite IH, scan_files_hashed.
  change (mbind ?f (e :: out)) with (f e ++ mbind f out).
  by rewrite foldl_app.
Qed.

Lemma hashed_file_digest fs min_size exts dirpath filename p h :
  hashed_file fs min_size exts dirpath filename = Some (p, h) →
  chunked_file_hash fs p = os.Ok h.
Proof.
  unfold hashed_file. destruct (extension_rejected exts filename); [done|].
  destruct (os.getsize fs _) as [size|]; [|done].
  destruct (size <? min_size)%Z; [done|].
  destruct (chunked_file_hash fs _) as [h'|] eqn:Hh; [|done].
  by intros [= <- <-].
Qed.

Lemma hashed_files_digest fs directory min_size exts p h :
  (p, h) ∈ hashed_files fs directory min_size exts →
  chunked_file_hash fs p = os.Ok h.
Proof.
  unfold hashed_files. intros (e & Hin & He)%list_elem_of_bind.
  apply list_elem_of_omap in Hin as (f & Hf & Hh).
  by eapply hashed_file_digest.
Qed.

(** Both dictionaries only ever hold pairs that were recorded. *)
Lemma record_pairs_sound (l : list (string * string)) st :
  let st' := foldl record_pair st l in
  (∀ h p, hashes st' !! h = Some p → (p, h) ∈ l ∨ hashes st !! h = Some p) ∧
  (∀ h g p, duplicates st' !! h = Some g → p ∈ g →
     (p, h) ∈ l ∨ hashes st !! h = Some p ∨
     ∃ g0, duplicates st !! h = Some g0 ∧ p ∈ g0).
Proof.
  revert st. induction l as [|[p0 h0] l IH]; intros st; simpl.
  { split; [by auto|]. intros h g p Hg Hp. right. right. by exists g. }
  destruct (IH (record_pair st (p0, h0))) as [IH1 IH2]. split.
  - intros h p Hh. destruct (IH1 h p Hh) as [Hl|Hst].
    + left. by apply elem_of_cons; right.
    + unfold record_pair, record_hash in Hst. simpl in Hst.
      destruct (hashes st !! h0) as [f0|] eqn:Hf0; simpl in Hst; [by right|].
      destruct (decide (h0 = h)) as [->|Hne].
      * rewrite lookup_insert_eq in Hst. inversion Hst; subst.
        left. by apply elem_of_cons; left.
      * rewrite lookup_insert_ne in Hst by done. by right.
  - intros h g p Hg Hp. destruct (IH2 h g p Hg Hp) as [Hl|[Hst|(g0 & Hg0 & Hp0)]].
    + left. by apply elem_of_cons; right.
    + unfold record_pair, record_hash in Hst. simpl in Hst.
      destruct (hashes st !! h0) as [f0|] eqn:Hf0; simpl in Hst; [by auto|].
      destruct (decide (h0 = h)) as [->|Hne].
      * rewrite lookup_insert_eq in Hst. inversion Hst; subst.
        left. by apply elem_of_cons; left.
      * rewrite lookup_insert_ne in Hst by done. by auto.
    + unfold record_pair, record_hash in Hg0. simpl in Hg0.
      destruct (hashes st !! h0) as [f0|] eqn:Hf0; simpl in Hg0;
        [|right; right; by exists g0].
      destruct (decide (h0 = h)) as [->|Hne].
      * rewrite lookup_insert_eq in Hg0. inversion Hg0; subst g0. clear Hg0.
        assert (p ∈ default [] (duplicates st !! h) ++ [p0] ++ [f0]) as Hin.
        { case_bool_decide; [|by rewrite app_assoc].
          apply elem_of_app in Hp0 as [?|?]; apply elem_of_app; [by left|].
          right. apply elem_of_app. by left. }
        apply elem_of_app in Hin as [Hin|Hin].
        -- destruct (duplicates st !! h) as [g1|] eqn:Hg1; simpl in Hin.
           ++ right. right. by exists g1.
           ++ by apply elem_of_nil in Hin.
        -- apply elem_of_app in Hin as [Hin|Hin];
             apply list_elem_of_singleton in Hin; subst p.
           ++ left. by apply elem_of_cons; left.
           ++ by auto.
      * rewrite lookup_insert_ne in Hg0 by done. right. right. by exists g0.
Qed.

(** C3.  Every group [find_duplicates] returns has at least two member
    paths, and every path in it names a file whose [chunked_file_hash] is
    the key of the group; a group of fewer than two members is not returned. *)
Theorem find_duplicates_groups (fs : os.filesystem) (directory : string)
    (min_size : Z) (file_extensions : option (list string))
    (key : string) (group : list string) :
  find_duplicates fs directory min_size file_extensions !! key = Some group →
  2 ≤ length group ∧
  ∀ path, path ∈ group → chunked_file_hash fs path = os.Ok key.
Proof.
  unfold find_duplicates. intros [Hg Hlen]%map_lookup_filter_Some.
  simpl in Hlen. split; [lia|]. intros path Hp.
  rewrite scan_tree_hashed_files in Hg.
  destruct (record_pairs_sound (hashed_files fs directory min_size file_extensions)
              dedupe_init) as [_ Hd].
  destruct (Hd key group path Hg Hp) as [Hl|[Hh|(g0 & Hg0 & _)]].
  - by eapply hashed_files_digest.
  - simpl in Hh. by rewrite lookup_empty in Hh.
  - simpl in Hg0. by rewrite lookup_empty in Hg0.
Qed.

End dedupe.

Lemma find_duplicates_groups_witness :
  MainWindow.find_duplicates (H := examples.sound_posix) examples.twins "/d" 0 None
    !! "0123456789" = Some ["/d/a.txt"; "/d/b.txt"] ∧
  (2 ≤ length ["/d/a.txt"; "/d/b.txt"] ∧
   ∀ path, path ∈ ["/d/a.txt"; "/d/b.txt"] →
     chunked_file_hash (H := examples.sound_posix) examples.twins path =
       os.Ok "0123456789").
Proof.
  split; [vm_compute; reflexivity|].
  apply (find_duplicates_groups (H := examples.sound_posix)
           examples.twins "/d" 0%Z None "0123456789" ["/d/a.txt"; "/d/b.txt"]).
  vm_compute; reflexivity.
Defined.

(* ===================================================================== *)
(** ** Paths built by [os.path.join] from file names *)
(* ===================================================================== *)

Section join_names.
Import pystr.

Lemma app_cons_str c (a b : string) : String c a +:+ b = String c (a +:+ b).
Proof. reflexivity. Qed.

Lemma app_nil_l_str (b : string) : "" +:+ b = b.
Proof. reflexivity. Qed.

Ltac str_simpl := rewrite ?app_cons_str, ?app_nil_l_str in *; simpl in *.

Lemma app_empty_r (s : string) : s +:+ "" = s.
Proof. induction s as [|c s IH]; str_simpl; [done|]. by f_equal. Qed.

Lemma app_assoc_str (a b c : string) : (a +:+ b) +:+ c = a +:+ (b +:+ c).
Proof. induction a as [|x a IH]; str_simpl; [done|]. by f_equal. Qed.

Lemma length_app_str (a b : string) :
  String.length (a +:+ b) = String.length a + String.length b.
Proof. induction a as [|x a IH]; str_simpl; [done|]. by f_equal. Qed.

Lemma app_inv_tail_str (x y z : string) : x +:+ z = y +:+ z → x = y.
Proof.
  revert y. induction x as [|c x IH]; intros [|c' y]; intros Heq.
  - done.
  - apply (f_equal String.length) in Heq.
    rewrite !length_app_str in Heq. simpl in Heq. lia.
  - apply (f_equal String.length) in Heq.
    rewrite !length_app_str in Heq. simpl in Heq. lia.
  - rewrite !app_cons_str in Heq. inversion Heq. f_equal. by apply IH.
Qed.

Lemma valid_name_inv n :
  valid_name n = true → n ≠ "" ∧ has_sep n = false.
Proof.
  unfold valid_name. intros [Hne Hs]%andb_true_iff.
  apply negb_true_iff in Hne, Hs. by apply String.eqb_neq in Hne.
Qed.

Lemma valid_startswith n : valid_name n = true → startswith_sep n = false.
Proof.
  intros [Hne Hs]%valid_name_inv. destruct n as [|c n]; [done|].
  simpl in *. by apply orb_false_iff in Hs as [? _].
Qed.

Lemma no_sep_endswith n : has_sep n = false → endswith_sep n = false.
Proof.
  induction n as [|c n IH]; [done|]. simpl.
  intros [Hc Hn]%orb_false_iff. destruct n; [done|]. by apply IH.
Qed.

Lemma endswith_app_valid x n :
  valid_name n = true → endswith_sep (x +:+ n) = false.
Proof.
  intros [Hne Hs]%valid_name_inv. induction x as [|c x IH].
  - by apply no_sep_endswith.
  - rewrite app_cons_str. simpl.
    destruct (x +:+ n) as [|c' r] eqn:Hr; [|done].
    destruct x; [done|discriminate].
Qed.

Lemma endswith_app_sep a : endswith_sep (a +:+ "/") = true.
Proof.
  induction a as [|c a IH]; [done|]. rewrite app_cons_str. simpl.
  destruct (a +:+ "/") as [|c' r] eqn:Hr; [|done].
  destruct a; discriminate.
Qed.


Lemma join_valid a n :
  valid_name n = true → posixpath.join a n = (a +:+ sepof a) +:+ n.
Proof.
  intros Hn. unfold posixpath.join, sepof. rewrite (valid_startswith _ Hn). simpl.
  destruct (String.eqb a "") eqn:Ha; simpl.
  - apply String.eqb_eq in Ha. by subst a.
  - destruct (endswith_sep a); [by rewrite app_empty_r|].
    by rewrite app_assoc_str.
Qed.

Lemma prefix_sepof a :
  a +:+ sepof a = "" ∨ endswith_sep (a +:+ sepof a) = true.
Proof.
  unfold sepof. destruct (String.eqb a "") eqn:Ha; simpl.
  - apply String.eqb_eq in Ha. subst a. by left.
  - destruct (endswith_sep a) eqn:He.
    + right. by rewrite app_empty_r.
    + right. apply endswith_app_sep.
Qed.

Lemma rpartition_no_sep n : has_sep n = false → rpartition_sep n = ("", n).
Proof.
  induction n as [|c n IH]; [done|]. simpl.
  intros [Hc Hn]%orb_false_iff. rewrite (IH Hn). by rewrite Hc.
Qed.

Lemma rpartition_app x n :
  has_sep n = false → x = "" ∨ endswith_sep x = true →
  rpartition_sep (x +:+ n) = (x, n).
Proof.
  intros Hn. induction x as [|c x IH]; intros Hx.
  - by apply rpartition_no_sep.
  - destruct Hx as [|Hx]; [done|]. rewrite app_cons_str. simpl.
    destruct x as [|c' x].
    + rewrite app_nil_l_str, (rpartition_no_sep _ Hn). simpl in Hx.
      unfold is_sep in *. by apply Ascii.eqb_eq in Hx as ->.
    + rewrite IH by (by right). done.
Qed.

Lemma join_inj_name a a' n n' :
  valid_name n = true → valid_name n' = true →
  posixpath.join a n = posixpath.join a' n' →
  n = n' ∧ a +:+ sepof a = a' +:+ sepof a'.
Proof.
  intros Hn Hn' Heq. rewrite !join_valid in Heq by done.
  apply (f_equal rpartition_sep) in Heq.
  rewrite !rpartition_app in Heq
    by (auto using prefix_sepof; by apply valid_name_inv).
  by inversion Heq.
Qed.

Lemma basename_join a n :
  valid_name n = true → posixpath.basename (posixpath.join a n) = n.
Proof.
  intros Hn. unfold posixpath.basename. rewrite join_valid by done.
  rewrite rpartition_app; [done|by apply valid_name_inv|apply prefix_sepof].
Qed.

Lemma length_join a n :
  valid_name n = true → String.length a < String.length (posixpath.join a n).
Proof.
  intros Hn. rewrite join_valid by done. rewrite !length_app_str.
  destruct (valid_name_inv _ Hn) as [Hne _]. destruct n; [done|]. simpl. lia.
Qed.

Lemma endswith_join a n :
  valid_name n = true → endswith_sep (posixpath.join a n) = false.
Proof.
  intros Hn. rewrite join_valid by done. by apply endswith_app_valid.
Qed.


Lemma below_join base p n :
  below base p → valid_name n = true → below base (posixpath.join p n).
Proof.
  intros Hp Hn. right. split; [|by apply endswith_join].
  pose proof (length_join p n Hn). destruct Hp as [->|[? _]]; lia.
Qed.

Lemma sepof_cases a : sepof a = "" ∨ sepof a = "/".
Proof. unfold sepof. destruct (_ || _); auto. Qed.

Lemma sepof_empty a : sepof a = "" → a = "" ∨ endswith_sep a = true.
Proof.
  unfold sepof. destruct (String.eqb a "") eqn:Ha; simpl.
  - apply String.eqb_eq in Ha. auto.
  - destruct (endswith_sep a); [auto|done].
Qed.

(** Joining names to paths below one base is injective in both. *)
Lemma join_inj base d d' n n' :
  below base d → below base d' →
  valid_name n = true → valid_name n' = true →
  posixpath.join d n = posixpath.join d' n' → d = d' ∧ n = n'.
Proof.
  intros Hd Hd' Hn Hn' Heq.
  destruct (join_inj_name _ _ _ _ Hn Hn' Heq) as [-> Hpre]. split; [|done].
  assert (∀ a b, below base a → below base b →
            sepof a = "" → a = b +:+ "/" → False) as Hmix.
  { intros a b Ha Hb Hsa ->.
    apply sepof_empty in Hsa as [Hsa|Hsa]; [destruct b; discriminate|].
    destruct Ha as [Ha|[_ Ha]]; [|congruence].
    destruct Hb as [Hb|[Hb _]].
    - subst b. apply (f_equal String.length) in Ha.
      rewrite length_app_str in Ha. simpl in Ha. lia.
    - rewrite <- Ha in Hb. rewrite length_app_str in Hb. simpl in Hb. lia. }
  destruct (sepof_cases d) as [Hs|Hs]; destruct (sepof_cases d') as [Hs'|Hs'];
    rewrite Hs, Hs' in Hpre.
  - by rewrite !app_empty_r in Hpre.
  - rewrite app_empty_r in Hpre. exfalso. by eapply (Hmix d d').
  - rewrite app_empty_r in Hpre. exfalso. by eapply (Hmix d' d).
  - by apply app_inv_tail_str in Hpre.
Qed.

End join_names.

(* ===================================================================== *)
(** ** The paths [fast_scan] yields on a file system of valid names *)
(* ===================================================================== *)

Lemma child_name_Some c k n : os.child_name c k = Some n → k = c ++ [n].
Proof.
  unfold os.child_name. destruct (last k) as [n'|]; [|done].
  case_bool_decide; [|done]. by intros [= <-].
Qed.

Lemma children_elem nd c n i :
  (n, i) ∈ os.children nd c → nd !! (c ++ [n]) = Some i.
Proof.
  unfold os.children. intros ([k i'] & Hin & Hf)%list_elem_of_omap.
  simpl in Hf. destruct (os.child_name c k) as [n'|] eqn:Hc; simpl in Hf; [|done].
  inversion Hf; subst. apply child_name_Some in Hc as ->.
  by apply elem_of_map_to_list.
Qed.

Lemma NoDup_omap_inj {A B} (g : A → option B) (l : list A) :
  (∀ x y z, g x = Some z → g y = Some z → x = y) →
  NoDup l → NoDup (omap g l).
Proof.
  intros Hinj. induction 1 as [|x l Hx Hl IH]; simpl; [constructor|].
  destruct (g x) as [z|] eqn:Hg; [|done].
  constructor; [|done]. intros (y & Hy & Hgy)%list_elem_of_omap.
  by rewrite (Hinj x y z Hg Hgy) in Hx.
Qed.

Lemma children_NoDup nd c : NoDup (os.children nd c).*1.
Proof.
  apply NoDup_fmap_fst.
  - intros n i1 i2 H1%children_elem H2%children_elem. congruence.
  - unfold os.children. apply NoDup_omap_inj; [|apply NoDup_map_to_list].
    intros [k1 i1] [k2 i2] [n i]. simpl.
    destruct (os.child_name c k1) as [n1|] eqn:H1; simpl; [|done].
    destruct (os.child_name c k2) as [n2|] eqn:H2; simpl; [|done].
    intros [= -> ->] [= -> ->].
    apply child_name_Some in H1, H2. by subst.
Qed.

Lemma children_valid fs c n i :
  os.valid_fs fs = true → (n, i) ∈ os.children (os.inodes fs) c →
  pystr.valid_name n = true.
Proof.
  unfold os.valid_fs. rewrite forallb_forall. intros Hv Hc%children_elem.
  apply elem_of_map_to_list, list_elem_of_In, Hv in Hc. simpl in Hc.
  rewrite forallb_forall in Hc. apply Hc, list_elem_of_In.
  apply elem_of_app. right. by apply list_elem_of_singleton.
Qed.

(** The classification of a listing in terms of the names listed. *)
Lemma classify_names path (ch : list (string * os.inode)) :
  ∃ nd nf,
    classify (map (λ ni, {| os.entry_name := ni.1;
                            os.entry_path := posixpath.join path ni.1;
                            os.entry_inode := ni.2 |}) ch)
    = (posixpath.join path <$> nd, posixpath.join path <$> nf) ∧
    nd `sublist_of` ch.*1 ∧ nf `sublist_of` ch.*1.
Proof.
  induction ch as [|[n i] ch (nd & nf & Hc & Hd & Hf)].
  { exists [], []. by repeat split. }
  simpl. rewrite Hc. unfold os.is_dir_nofollow. simpl.
  destruct (os.is_dir_inode i).
  - exists (n :: nd), nf. split; [done|]. split.
    + by apply sublist_skip.
    + by apply sublist_cons.
  - exists nd, (n :: nf). split; [done|]. split.
    + by apply sublist_cons.
    + by apply sublist_skip.
Qed.

Lemma listing_names fs base_path e :
  os.valid_fs fs = true → e ∈ fast_scan fs base_path →
  ∃ nd nf,
    subdirs e = posixpath.join (dir_path e) <$> nd ∧
    files e = posixpath.join (dir_path e) <$> nf ∧
    Forall (λ n, pystr.valid_name n = true) nd ∧
    Forall (λ n, pystr.valid_name n = true) nf ∧
    NoDup nf.
Proof.
  intros Hv He.
  destruct (scan_all_listing _ _ _ _ _ (fast_scan_scan_all fs base_path) He)
    as (entries & Hs & Hc).
  apply scandir_Ok in Hs as (c & m & _ & _ & _ & ->).
  destruct (classify_names (dir_path e) (os.children (os.inodes fs) c))
    as (nd & nf & Hcl & Hd & Hf).
  rewrite Hcl in Hc. inversion Hc as [[Hsd Hfl]].
  assert (Forall (λ n, pystr.valid_name n = true) (os.children (os.inodes fs) c).*1)
    as Hall.
  { apply Forall_forall. intros n ([n' i] & -> & Hin)%list_elem_of_fmap.
    by eapply children_valid. }
  rewrite Forall_forall in Hall.
  exists nd, nf. split; [done|]. split; [done|]. split; [|split].
  - apply Forall_forall. intros n Hn. apply Hall. revert Hn. by apply sublist_subseteq.
  - apply Forall_forall. intros n Hn. apply Hall. revert Hn. by apply sublist_subseteq.
  - eapply sublist_NoDup; [apply children_NoDup|done].
Qed.

Lemma fast_scan_below fs base_path e :
  os.valid_fs fs = true → e ∈ fast_scan fs base_path →
  below base_path (dir_path e).
Proof.
  intros Hv.
  assert (∀ l1 l2, fast_scan fs base_path = l1 ++ l2 →
            Forall (λ e, below base_path (dir_path e)) l1) as Hpre.
  { induction l1 as [|x l1 IH] using rev_ind; intros l2 Heq; [constructor|].
    rewrite <- app_assoc in Heq. simpl in Heq.
    specialize (IH _ Heq). apply Forall_app. split; [done|].
    constructor; [|constructor].
    destruct (scan_all_origin _ _ _ _ _ _ _ (fast_scan_scan_all fs base_path) Heq)
      as [Hst|(e' & He' & Hd)].
    - simpl in Hst. apply list_elem_of_singleton in Hst. by left.
    - assert (e' ∈ fast_scan fs base_path) as Hin.
      { rewrite Heq. apply elem_of_app. by left. }
      destruct (listing_names _ _ _ Hv Hin) as (nd & nf & Hsd & _ & Hvd & _ & _).
      rewrite Hsd in Hd. apply list_elem_of_fmap in Hd as (n & -> & Hn).
      rewrite Forall_forall in IH. rewrite Forall_forall in Hvd.
      apply below_join; [by apply IH|by apply Hvd]. }
  intros He. specialize (Hpre (fast_scan fs base_path) [] ltac:(by rewrite app_nil_r)).
  rewrite Forall_forall in Hpre. by apply Hpre.
Qed.

Lemma NoDup_fmap_eq {A B} (f : A → B) (l : list A) x y :
  NoDup (f <$> l) → x ∈ l → y ∈ l → f x = f y → x = y.
Proof.
  induction l as [|a l IH]; [by intros _ ?%elem_of_nil|].
  rewrite fmap_cons. intros [Ha Hl]%NoDup_cons.
  intros [->|Hx]%elem_of_cons [->|Hy]%elem_of_cons Heq.
  - done.
  - destruct Ha. rewrite Heq. apply list_elem_of_fmap. by exists y.
  - destruct Ha. rewrite <- Heq. apply list_elem_of_fmap. by exists x.
  - by apply IH.
Qed.

(** No file path is yielded twice. *)
Lemma fast_scan_files_NoDup fs base_path :
  os.valid_fs fs = true → NoDup (e ← fast_scan fs base_path; files e).
Proof.
  intros Hv. pose proof (fast_scan_scan_all fs base_path) as Hs.
  destruct (scan_all_fresh _ _ _ _ Hs) as [Hnd _].
  assert (NoDup (dir_path <$> fast_scan fs base_path)) as Hnd'.
  { rewrite list_fmap_compose in Hnd. by apply NoDup_fmap_1 in Hnd. }
  apply NoDup_bind.
  - intros e1 e2 y He1 He2 Hy1 Hy2.
    destruct (listing_names _ _ _ Hv He1) as (_ & nf1 & _ & Hf1 & _ & Hv1 & _).
    destruct (listing_names _ _ _ Hv He2) as (_ & nf2 & _ & Hf2 & _ & Hv2 & _).
    rewrite Hf1 in Hy1. rewrite Hf2 in Hy2.
    apply list_elem_of_fmap in Hy1 as (n1 & -> & Hn1).
    apply list_elem_of_fmap in Hy2 as (n2 & Heq & Hn2).
    rewrite Forall_forall in Hv1. rewrite Forall_forall in Hv2.
    destruct (join_inj base_path _ _ _ _
                (fast_scan_below _ _ _ Hv He1) (fast_scan_below _ _ _ Hv He2)
                (Hv1 _ Hn1) (Hv2 _ Hn2) Heq) as [Hd _].
    by eapply (NoDup_fmap_eq dir_path).
  - intros e He.
    destruct (listing_names _ _ _ Hv He) as (_ & nf & _ & -> & _ & Hvf & Hndf).
    apply NoDup_fmap_2_strong; [|done].
    intros n1 n2 Hn1 Hn2 Heq. rewrite Forall_forall in Hvf.
    by destruct (join_inj_name _ _ _ _ (Hvf _ Hn1) (Hvf _ Hn2) Heq).
  - by apply NoDup_fmap_1 in Hnd'.
Qed.

(* ===================================================================== *)
(** ** [find_duplicates]: the order of the paths in a group *)
(* ===================================================================== *)

Section dedupe_order.
Context `{Platform}.
Import MainWindow.

(** On valid names the path that is hashed is the path the scan yielded. *)
Lemma filepath_of_join d n :
  pystr.valid_name n = true → filepath_of d (posixpath.join d n) = posixpath.join d n.
Proof.
  intros Hn. unfold filepath_of.
  destruct (posixpath.isabs (posixpath.join d n)); [done|]. simpl.
  by rewrite basename_join.
Qed.

Lemma omap_fst_sublist {A B} (g : A → option (A * B)) (l : list A) :
  (∀ x y, x ∈ l → g x = Some y → y.1 = x) → (omap g l).*1 `sublist_of` l.
Proof.
  induction l as [|x l IH]; intros Hg; [done|]. simpl.
  assert ((omap g l).*1 `sublist_of` l) as Hl.
  { apply IH. intros x' y Hx'. apply Hg. by apply elem_of_cons; right. }
  destruct (g x) as [y|] eqn:Hgx.
  - rewrite fmap_cons. rewrite (Hg x y); [|by apply elem_of_cons; left|done].
    by apply sublist_skip.
  - by apply sublist_cons.
Qed.

Lemma hashed_files_NoDup fs directory min_size exts :
  os.valid_fs fs = true →
  NoDup (hashed_files fs directory min_size exts).*1.
Proof.
  intros Hv. eapply sublist_NoDup; [by apply (fast_scan_files_NoDup fs directory)|].
  unfold hashed_files.
  assert (∀ e, e ∈ fast_scan fs directory →
            (omap (hashed_file fs min_size exts (dir_path e)) (files e)).*1
              `sublist_of` files e) as Hsub.
  { intros e He. apply omap_fst_sublist. intros f [p h] Hf Hh.
    destruct (listing_names _ _ _ Hv He) as (_ & nf & _ & Hfl & _ & Hvf & _).
    rewrite Hfl in Hf. apply list_elem_of_fmap in Hf as (n & -> & Hn).
    rewrite Forall_forall in Hvf. specialize (Hvf _ Hn).
    unfold hashed_file in Hh.
    destruct (extension_rejected exts _); [done|].
    rewrite filepath_of_join in Hh by done.
    destruct (os.getsize fs _) as [size|]; [|done].
    destruct (size <? min_size)%Z; [done|].
    destruct (chunked_file_hash fs _) as [h'|]; [|done].
    by inversion Hh. }
  induction (fast_scan fs directory) as [|e out IH]; [done|].
  rewrite !bind_cons, fmap_app. apply sublist_app.
  - apply Hsub. by apply elem_of_cons; left.
  - apply IH. intros e' He'. apply Hsub. by apply elem_of_cons; right.
Qed.

Lemma paths_with_hash_snoc h l p h' :
  paths_with_hash h (l ++ [(p, h')]) =
  paths_with_hash h l ++ (if decide (h' = h) then [p] else []).
Proof.
  unfold paths_with_hash. rewrite filter_app, fmap_app. f_equal.
  rewrite filter_cons, filter_nil. simpl. by destruct (decide (h' = h)).
Qed.

Lemma paths_with_hash_elem h l p :
  p ∈ paths_with_hash h l → p ∈ l.*1.
Proof.
  unfold paths_with_hash. intros (ph & -> & Hin)%list_elem_of_fmap.
  apply list_elem_of_filter in Hin as [_ Hin].
  apply list_elem_of_fmap. by exists ph.
Qed.

(** The dictionaries after a pass over files with pairwise different
    paths: [hashes] has the first path met with each digest, and a digest
    met more than once has the group [second; first; third; ...]. *)
Lemma record_pairs_order (l : list (string * string)) (h : string) :
  NoDup l.*1 →
  let st := foldl record_pair dedupe_init l in
  hashes st !! h = head (paths_with_hash h l) ∧
  duplicates st !! h =
    match paths_with_hash h l with
    | first_path :: second_path :: rest => Some (second_path :: first_path :: rest)
    | _ => None
    end.
Proof.
  induction l as [|[p h'] l IH] using rev_ind; intros Hnd; simpl.
  { by rewrite !lookup_empty. }
  rewrite fmap_app in Hnd. apply NoDup_app in Hnd as (Hnd & Hfresh & _).
  specialize (IH Hnd). simpl in IH. destruct IH as [IHh IHd].
  rewrite foldl_snoc, paths_with_hash_snoc.
  set (st := foldl record_pair dedupe_init l) in *.
  unfold record_pair, record_hash. simpl.
  destruct (decide (h' = h)) as [->|Hne].
  - rewrite IHh.
    destruct (paths_with_hash h l) as [|first_path [|second_path rest]] eqn:Hocc;
      simpl.
    + split; [by rewrite lookup_insert_eq|done].
    + split; [done|]. rewrite lookup_insert_eq, IHd. simpl.
      rewrite bool_decide_eq_false_2; [done|].
      intros ->%list_elem_of_singleton.
      apply (Hfresh p); [|by apply list_elem_of_singleton].
      apply (paths_with_hash_elem h). rewrite Hocc. by apply elem_of_cons; left.
    + split; [done|]. rewrite lookup_insert_eq, IHd. simpl.
      rewrite bool_decide_eq_true_2; [done|].
      apply elem_of_cons; right. by apply elem_of_cons; left.
  - rewrite app_nil_r.
    destruct (hashes st !! h') as [f0|] eqn:Hf0; simpl.
    + split; [done|]. by rewrite lookup_insert_ne.
    + split; [|done]. by rewrite lookup_insert_ne.
Qed.

(** C10.  On a file system of valid names, every group [find_duplicates]
    returns starts with the second path the traversal met with that digest,
    followed by the first one, followed by the later ones in the order met:
    index 0 holds the second-seen path and index 1 the first-seen path, so
    the actions that spare [paths[0]] and process [paths[1:]] spare the
    second-seen file and act on the first-seen one. *)
Theorem find_duplicates_second_path_first (fs : os.filesystem) (directory : string)
    (min_size : Z) (file_extensions : option (list string))
    (key : string) (group : list string) :
  os.valid_fs fs = true →
  find_duplicates fs directory min_size file_extensions !! key = Some group →
  ∃ first_path second_path rest,
    paths_with_hash key (hashed_files fs directory min_size file_extensions)
      = first_path :: second_path :: rest ∧
    first_path ≠ second_path ∧
    group = second_path :: first_path :: rest ∧
    group !! 0 = Some second_path ∧
    group !! 1 = Some first_path ∧
    acted_on group = first_path :: rest.
Proof.
  intros Hv. unfold find_duplicates. intros [Hg _]%map_lookup_filter_Some.
  rewrite scan_tree_hashed_files in Hg.
  pose proof (hashed_files_NoDup fs directory min_size file_extensions Hv) as Hnd.
  destruct (record_pairs_order _ key Hnd) as [_ Hd]. simpl in Hd.
  rewrite Hg in Hd.
  destruct (paths_with_hash key _) as [|first_path [|second_path rest]] eqn:Hocc;
    try done.
  inversion Hd; subst group. exists first_path, second_path, rest.
  split; [done|]. split; [|done].
  intros ->. unfold paths_with_hash in Hocc.
  assert (NoDup (second_path :: second_path :: rest)) as Hdup.
  { rewrite <- Hocc. eapply sublist_NoDup; [exact Hnd|].
    apply fmap_sublist, sublist_filter. }
  apply NoDup_cons in Hdup as [Hdup _]. apply Hdup. by apply elem_of_cons; left.
Qed.

End dedupe_order.

Lemma find_duplicates_second_path_first_witness :
  os.valid_fs examples.twins = true ∧
  MainWindow.find_duplicates (H := examples.sound_posix) examples.twins "/d" 0 None
    !! "0123456789" = Some ["/d/a.txt"; "/d/b.txt"] ∧
  ∃ first_path second_path rest,
    MainWindow.paths_with_hash "0123456789"
      (MainWindow.hashed_files (H := examples.sound_posix) examples.twins "/d" 0 None)
      = first_path :: second_path :: rest ∧
    first_path ≠ second_path ∧
    ["/d/a.txt"; "/d/b.txt"] = second_path :: first_path :: rest ∧
    ["/d/a.txt"; "/d/b.txt"] !! 0 = Some second_path ∧
    ["/d/a.txt"; "/d/b.txt"] !! 1 = Some first_path ∧
    MainWindow.acted_on ["/d/a.txt"; "/d/b.txt"] = first_path :: rest.
Proof.
  split; [vm_compute; reflexivity|]. split; [vm_compute; reflexivity|].
  apply (find_duplicates_second_path_first (H := examples.sound_posix)
           examples.twins "/d" 0%Z None "0123456789" ["/d/a.txt"; "/d/b.txt"]);
    vm_compute; reflexivity.
Defined.

Example twins_traversal_order :
  MainWindow.hashed_files (H := examples.sound_posix) examples.twins "/d" 0 None =
    [("/d/c.txt", "abcde"); ("/d/b.txt", "0123456789"); ("/d/a.txt", "0123456789")].
Proof. vm_compute. reflexivity. Qed.

(* ===================================================================== *)
(** ** [PermissionUpdateWorker.run]: what a second run can still change *)
(* ===================================================================== *)

Section permissions.
Context `{Platform}.
Import PermissionUpdateWorker.

Lemma normalise_idemp i : normalise (normalise i) = normalise i.
Proof. by destruct i. Qed.

Lemma normalised_from_refl fs : normalised_from fs fs.
Proof. split; [done|]. intros c. by left. Qed.

Lemma normalised_from_trans fs1 fs2 fs3 :
  normalised_from fs1 fs2 → normalised_from fs2 fs3 → normalised_from fs1 fs3.
Proof.
  intros [Hc12 H12] [Hc23 H23]. split; [congruence|]. intros c.
  destruct (H12 c) as [E12|(i & Hi & E12)], (H23 c) as [E23|(j & Hj & E23)].
  - left. congruence.
  - right. exists j. split; congruence.
  - right. exists i. split; congruence.
  - right. exists i. split; [done|]. rewrite E23.
    rewrite E12 in Hj. inversion Hj. by rewrite normalise_idemp.
Qed.

(** The mode [_set_perms_posix] is called with is the policy mode of the
    inode that [os.chmod] then changes. *)
Lemma set_perms_posix_normalised fs log path fs' log' :
  _set_perms_posix fs log path (os.isdir fs path) = (fs', log') →
  normalised_from fs fs'.
Proof.
  unfold _set_perms_posix, os.chmod, os.isdir, os.stat.
  destruct (os.resolve fs path) as [c|e]; simpl;
    [|intros [= <- _]; apply normalised_from_refl].
  destruct (os.inodes fs !! c) as [i|] eqn:Hi; simpl;
    [|intros [= <- _]; apply normalised_from_refl].
  intros [= <- _]. split; [done|]. intros c'. simpl.
  destruct (decide (c = c')) as [<-|Hne].
  - right. exists i. split; [done|]. rewrite lookup_insert_eq. by destruct i.
  - left. by rewrite lookup_insert_ne.
Qed.

Lemma set_each_normalised items processed total cancel_after fs log pr fs' log' pr' fin :
  set_each items processed total cancel_after fs log pr = (fs', log', pr', fin) →
  normalised_from fs fs'.
Proof.
  revert processed fs log pr.
  induction items as [|path items IH]; intros processed fs log pr; simpl.
  { intros [= <- _ _ _]. apply normalised_from_refl. }
  destruct (cancel_seen cancel_after processed).
  { intros [= <- _ _ _]. apply normalised_from_refl. }
  destruct (_set_perms_posix fs log path (os.isdir fs path)) as [fs1 log1] eqn:Hs.
  intros Hrest. eapply normalised_from_trans.
  - by eapply set_perms_posix_normalised.
  - by eapply IH.
Qed.

Lemma set_perms_windows_fs root_paths fs log :
  (foldl (λ fl base, _set_perms_windows fl.1 fl.2 base) (fs, log) root_paths).1 = fs.
Proof.
  revert log. induction root_paths as [|base l IH]; intros log; [done|].
  simpl. apply IH.
Qed.

(** A run only ever sets policy modes. *)
Lemma run_normalised fs root_paths cancel_after :
  normalised_from fs (fs_after (run fs root_paths cancel_after)).
Proof.
  unfold run. destruct is_windows.
  - pose proof (set_perms_windows_fs root_paths fs []) as Hfs.
    destruct (foldl _ _ root_paths) as [fs1 log1]. simpl in Hfs. subst fs1.
    destruct (count_through _ _ _ _ _) as [pr fin]. simpl.
    apply normalised_from_refl.
  - destruct (set_each _ _ _ _ _ _ _) as [[[fs1 log1] pr] fin] eqn:Hs. simpl.
    by eapply set_each_normalised.
Qed.

(** C7, as amended.  After a second run every inode is as the first run
    left it, or it is an inode the first run left untouched that the second
    run gave its policy mode (0o666 for a file, 0o777 for a directory): the
    operation is idempotent on everything the first run changed, whatever
    the platform and wherever either run is cancelled. *)
Theorem run_twice_changes_only_untouched (fs : os.filesystem)
    (root_paths : list string) (cancel1 cancel2 : option nat) (c : list string) :
  let fs1 := fs_after (run fs root_paths cancel1) in
  let fs2 := fs_after (run fs1 root_paths cancel2) in
  os.inodes fs2 !! c = os.inodes fs1 !! c ∨
  (os.inodes fs1 !! c = os.inodes fs !! c ∧
   ∃ i, os.inodes fs1 !! c = Some i ∧ os.inodes fs2 !! c = Some (normalise i)).
Proof.
  intros fs1 fs2.
  destruct (run_normalised fs root_paths cancel1) as [_ H1].
  destruct (run_normalised fs1 root_paths cancel2) as [_ H2].
  fold fs1 in H1. fold fs2 in H2.
  destruct (H2 c) as [E2|(j & Hj & E2)]; [by left|].
  destruct (H1 c) as [E1|(i & Hi & E1)].
  - right. split; [done|]. by exists j.
  - left. rewrite E2, E1. rewrite E1 in Hj. inversion Hj.
    by rewrite normalise_idemp.
Qed.

End permissions.

(** C7 as stated fails: on [examples.locked] the first run cannot list
    [/t/sub] ([/t] is not searchable while the tree is enumerated), then
    makes [/t] searchable; the second run reaches [/t/sub] and changes its
    mode from 0o700 to 0o777. *)
Lemma run_twice_differs_from_once :
  ¬ (∀ c : list string,
       PermissionUpdateWorker.mode_at
         (PermissionUpdateWorker.fs_after
            (PermissionUpdateWorker.run (H := examples.sound_posix)
               (PermissionUpdateWorker.fs_after
                  (PermissionUpdateWorker.run (H := examples.sound_posix)
                     examples.locked ["/t"] None))
               ["/t"] None)) c =
       PermissionUpdateWorker.mode_at
         (PermissionUpdateWorker.fs_after
            (PermissionUpdateWorker.run (H := examples.sound_posix)
               examples.locked ["/t"] None)) c).
Proof.
  intros Hall. specialize (Hall ["t"; "sub"]). vm_compute in Hall. discriminate.
Qed.

Example locked_first_run :
  let o := PermissionUpdateWorker.run (H := examples.sound_posix)
             examples.locked ["/t"] None in
  PermissionUpdateWorker.progress o = [(1, 2, "/t"); (2, 2, "/t/f")] ∧
  PermissionUpdateWorker.mode_at (PermissionUpdateWorker.fs_after o) ["t"] = Some 511%Z ∧
  PermissionUpdateWorker.mode_at (PermissionUpdateWorker.fs_after o) ["t"; "f"] = Some 438%Z ∧
  PermissionUpdateWorker.mode_at (PermissionUpdateWorker.fs_after o) ["t"; "sub"] = Some 448%Z.
Proof. vm_compute. repeat split. Qed.

Example locked_second_run :
  let o1 := PermissionUpdateWorker.run (H := examples.sound_posix)
              examples.locked ["/t"] None in
  let o2 := PermissionUpdateWorker.run (H := examples.sound_posix)
              (PermissionUpdateWorker.fs_after o1) ["/t"] None in
  PermissionUpdateWorker.progress o2 =
    [(1, 4, "/t"); (2, 4, "/t/f"); (3, 4, "/t/sub"); (4, 4, "/t/sub/g")] ∧
  PermissionUpdateWorker.mode_at (PermissionUpdateWorker.fs_after o2) ["t"; "sub"] = Some 511%Z ∧
  PermissionUpdateWorker.mode_at (PermissionUpdateWorker.fs_after o2) ["t"; "sub"; "g"] = Some 438%Z.
Proof. vm_compute. repeat split. Qed.

(* ===================================================================== *)
(** ** [BackupWorker.run]: the plan *)
(* ===================================================================== *)

Section planning.
Import BackupWorker.
Local Open Scope Z_scope.

Lemma getsize_nonneg fs path n : os.getsize fs path = os.Ok n → 0 ≤ n.
Proof.
  unfold os.getsize. destruct (os.stat fs path) as [[c i]|]; simpl; [|done].
  destruct i; intros [= <-]; [lia|done].
Qed.

Lemma plan_file_ok patterns root dst_folder st fname :
  plan_ok st → plan_ok (plan_file patterns root dst_folder st fname).
Proof.
  intros [Hn Hs]. unfold plan_file. destruct (matches patterns fname); [|done].
  simpl. split; simpl.
  - rewrite length_app. simpl. lia.
  - apply Forall_app. split; [done|]. constructor; [|constructor]. simpl.
    destruct (os.getsize _ _) as [n|] eqn:Hg; [by eapply getsize_nonneg|done].
Qed.

Lemma plan_files_ok patterns root dst_folder (fnames : list string) st :
  plan_ok st → plan_ok (foldl (plan_file patterns root dst_folder) st fnames).
Proof.
  revert st. induction fnames as [|f l IH]; intros st Hst; [done|].
  simpl. by apply IH, plan_file_ok.
Qed.

Lemma plan_dir_ok source_dir destination_root patterns st e :
  plan_ok st → plan_ok (plan_dir source_dir destination_root patterns st e).
Proof.
  intros Hst. unfold plan_dir. destruct (os.makedirs _ _) as [fs1 r].
  by apply plan_files_ok.
Qed.

Lemma build_plan_ok fuel source_dir destination_root patterns scan st p :
  plan_ok st →
  build_plan fuel source_dir destination_root patterns scan st = Some p →
  plan_ok p.
Proof.
  revert scan st. induction fuel as [|fuel IH]; intros scan st Hst; [done|].
  simpl. destruct (scan_step (plan_fs st) scan) as [|scan'|e scan'].
  - by intros [= <-].
  - by apply IH.
  - by apply IH, plan_dir_ok.
Qed.

Lemma make_plan_ok fuel fs source_dir destination_root patterns verify_hash p :
  make_plan fuel fs source_dir destination_root patterns verify_hash = Some p →
  plan_ok p.
Proof. apply build_plan_ok. split; [done|constructor]. Qed.

End planning.

(** C6.  Whenever the planning phase ends with an empty task list, [run]
    ends there: whatever the schedule, it returns with the terminal result
    [(0, False, "No files found to backup in: <source_dir>")], having
    submitted no task to the pool, emitted no progress event, counted no
    file, and left the file system as planning left it. *)
Theorem empty_plan_fails_at_once `{Platform} (fuel : nat) (fs : os.filesystem)
    (source_dir destination_root : string) (patterns : list string)
    (max_workers : option nat) (verify_hash : bool)
    (schedule : list BackupWorker.action) (p : BackupWorker.planning) :
  BackupWorker.make_plan fuel fs source_dir destination_root patterns verify_hash
    = Some p →
  BackupWorker.plan p = [] →
  ∃ st,
    BackupWorker.run fuel fs source_dir destination_root patterns max_workers
      verify_hash schedule = Some st ∧
    BackupWorker.terminal st =
      Some (0%Z, false, "No files found to backup in: " +:+ source_dir) ∧
    BackupWorker.workers st = [] ∧
    BackupWorker.events st = [] ∧
    BackupWorker.files_copied st = 0%Z ∧
    BackupWorker.fs st = BackupWorker.plan_fs p.
Proof.
  intros Hp Hempty. unfold BackupWorker.run. rewrite Hp. simpl.
  destruct (make_plan_ok _ _ _ _ _ _ _ Hp) as [Hn _].
  rewrite Hempty in Hn. simpl in Hn.
  rewrite bool_decide_eq_true_2 by done.
  eexists. split; [done|]. by repeat split.
Qed.

Lemma empty_plan_fails_at_once_witness :
  ∃ p st,
    BackupWorker.make_plan 10 (examples.three_files []) "/src" "/dst" ["*.pdf"] true
      = Some p ∧
    BackupWorker.plan p = [] ∧
    BackupWorker.run (H := examples.sound_posix) 10 (examples.three_files [])
      "/src" "/dst" ["*.pdf"] None true (BackupWorker.sequential 3) = Some st ∧
    BackupWorker.terminal st =
      Some (0%Z, false, "No files found to backup in: " +:+ "/src") ∧
    BackupWorker.workers st = [] ∧
    BackupWorker.events st = [] ∧
    BackupWorker.files_copied st = 0%Z ∧
    BackupWorker.fs st = BackupWorker.plan_fs p.
Proof.
  eexists. 
  assert (BackupWorker.make_plan 10 (examples.three_files []) "/src" "/dst"
            ["*.pdf"] true = Some
            (default (BackupWorker.Build_planning (examples.three_files []) [] [] 0 0)
               (BackupWorker.make_plan 10 (examples.three_files []) "/src" "/dst"
                  ["*.pdf"] true))) as Hp by (vm_compute; reflexivity).
  assert (BackupWorker.plan
            (default (BackupWorker.Build_planning (examples.three_files []) [] [] 0 0)
               (BackupWorker.make_plan 10 (examples.three_files []) "/src" "/dst"
                  ["*.pdf"] true)) = []) as He by (vm_compute; reflexivity).
  destruct (empty_plan_fails_at_once (H := examples.sound_posix) 10
              (examples.three_files []) "/src" "/dst" ["*.pdf"] None true
              (BackupWorker.sequential 3) _ Hp He) as (st & Hst).
  exists st. split; [exact Hp|]. split; [exact He|]. exact Hst.
Defined.

(* ===================================================================== *)
(** ** [BackupWorker.run]: the pool under a schedule *)
(* ===================================================================== *)

(** The cases of a step. *)
Ltac step_cases_of verify_hash pool tasks st a i t Hw :=
  destruct a as [|i|i|]; simpl;
  [ unfold BackupWorker.cancel
  | unfold BackupWorker.work; destruct (tasks !! i) as [t|] eqn:Ht;
    [ destruct (BackupWorker.workers st !! i) as [[| | |?n ?size|?ok ?err]|] eqn:Hw;
      [ destruct (bool_decide (BackupWorker.running (BackupWorker.workers st) < pool)%nat) eqn:Hpool;
        [ destruct (BackupWorker.cancelled st) eqn:Hc | ]
      | destruct (BackupWorker.copy_body verify_hash (BackupWorker.fs st) (BackupWorker.log st) t)
          as [[?fs' ?log'] [?err|]] eqn:Hbody
      | | | | ]
    | ]
  | unfold BackupWorker.collect; destruct (BackupWorker.workers st !! i) as [[| | |?n ?size|?ok ?err]|] eqn:Hw;
    [ | | | |
      destruct (BackupWorker.left_loop st || bool_decide (i ∈ BackupWorker.collected st)
                || bool_decide (is_Some (BackupWorker.terminal st))) eqn:Hguard
    | ]
  | unfold BackupWorker.finish;
    destruct (bool_decide (is_Some (BackupWorker.terminal st))) eqn:Hterm;
    [ | destruct (forallb BackupWorker.is_returned (BackupWorker.workers st)) eqn:Hret; simpl;
        [ destruct (BackupWorker.left_loop st || BackupWorker.all_collected st) eqn:Hloop; simpl;
          [ destruct (BackupWorker.cancelled st) eqn:Hc | ]
        | ] ] ];
  simpl.


Section execution.
Context `{Platform} (verify_hash : bool) (pool : nat) (tasks : list BackupWorker.task).
Import BackupWorker.
Local Open Scope Z_scope.

Ltac step_cases st a i t Hw := step_cases_of verify_hash pool tasks st a i t Hw.

Lemma exec_app st s1 s2 :
  exec verify_hash pool tasks st (s1 ++ s2) =
  exec verify_hash pool tasks (exec verify_hash pool tasks st s1) s2.
Proof. apply foldl_app. Qed.

(** A property kept by every step holds along every schedule. *)
Lemma exec_invariant (P : state → Prop) :
  (∀ st a, P st → P (step verify_hash pool tasks st a)) →
  ∀ s st, P st → P (exec verify_hash pool tasks st s).
Proof.
  intros Hstep s. induction s as [|a s IH]; intros st Hst; [done|].
  simpl. apply IH, Hstep, Hst.
Qed.

Lemma step_workers_length st a :
  length (workers (step verify_hash pool tasks st a)) = length (workers st).
Proof.
  step_cases st a i t Hw; try done; by rewrite length_insert.
Qed.

Lemma exec_workers_length st s :
  length (workers (exec verify_hash pool tasks st s)) = length (workers st).
Proof.
  revert st. induction s as [|a s IH]; intros st; [done|].
  simpl. by rewrite IH, step_workers_length.
Qed.

(** A task that has returned stays as it is. *)
Lemma step_returned st a i ok err :
  workers st !! i = Some (Returned ok err) →
  workers (step verify_hash pool tasks st a) !! i = Some (Returned ok err).
Proof.
  intros Hi. step_cases st a j t Hw; try done;
    (destruct (decide (j = i)) as [->|Hne];
     [congruence | by rewrite list_lookup_insert_ne]).
Qed.

(** The flag is never reset. *)
Lemma step_cancelled st a :
  cancelled st = true → cancelled (step verify_hash pool tasks st a) = true.
Proof. intros Hflag. step_cases st a i t Hw; done. Qed.

Lemma exec_cancelled st s :
  cancelled st = true → cancelled (exec verify_hash pool tasks st s) = true.
Proof. apply (exec_invariant (λ st, cancelled st = true)), step_cancelled. Qed.

Lemma filter_length_insert {A} (f : A → bool) (ws : list A) i w w' :
  ws !! i = Some w →
  (length (filter f (<[i:=w']> ws)) + (if f w then 1 else 0) =
   length (filter f ws) + (if f w' then 1 else 0))%nat.
Proof.
  revert i. induction ws as [|x ws IH]; intros [|i] Hi; simpl in *; try done.
  - inversion Hi; subst. rewrite !filter_cons.
    destruct (f w), (f w'); simpl; lia.
  - specialize (IH i Hi). rewrite !filter_cons.
    destruct (f x); simpl; lia.
Qed.

Lemma step_counters_ok st a :
  counters_ok st → counters_ok (step verify_hash pool tasks st a).
Proof.
  unfold counters_ok. intros Hn.
  step_cases st a i t Hw; try done;
    match goal with
    | |- context [<[?j:=?w]> (workers st)] =>
        pose proof (filter_length_insert counted (workers st) j _ w Hw) as Hlen
    end; simpl in Hlen; lia.
Qed.

Lemma files_copied_bound st :
  counters_ok st →
  Z.of_nat (succeeded (workers st)) ≤ files_copied st ≤ Z.of_nat (length (workers st)).
Proof.
  unfold counters_ok, succeeded. intros ->. split.
  - apply inj_le. induction (workers st) as [|w ws IH]; [done|].
    rewrite !filter_cons. destruct w as [| | | |[] ?]; simpl; lia.
  - apply inj_le, length_filter.
Qed.

(** The counter only grows. *)
Lemma step_files_copied_mono st a :
  files_copied st ≤ files_copied (step verify_hash pool tasks st a).
Proof. step_cases st a i t Hw; lia. Qed.

Lemma exec_files_copied_mono s st :
  files_copied st ≤ files_copied (exec verify_hash pool tasks st s).
Proof.
  revert st. induction s as [|a s IH]; intros st; simpl; [lia|].
  pose proof (step_files_copied_mono st a).
  pose proof (IH (step verify_hash pool tasks st a)). lia.
Qed.

Lemma all_returned_lookup ws i w :
  forallb is_returned ws = true → ws !! i = Some w → is_returned w = true.
Proof.
  rewrite forallb_forall. intros Hall Hi. apply Hall, list_elem_of_In.
  by eapply list_elem_of_lookup_2.
Qed.

Lemma step_terminal_ok st a :
  terminal_ok st → terminal_ok (step verify_hash pool tasks st a).
Proof.
  unfold terminal_ok. intros Hk.
  step_cases st a i t Hw; try exact Hk;
    try (intros r Hr; destruct (Hk r Hr) as [Hall _];
         by pose proof (all_returned_lookup _ _ _ Hall Hw));
    try (intros r [= <-]; done);
    try (intros r Hr; apply bool_decide_eq_false in Hterm; destruct Hterm;
         by rewrite Hr).
Qed.

Lemma step_terminal_stable st a r :
  terminal st = Some r → terminal (step verify_hash pool tasks st a) = Some r.
Proof.
  intros Hr. step_cases st a i t Hw; try done.
  - apply bool_decide_eq_false in Hterm. destruct Hterm. by rewrite Hr.
  - apply bool_decide_eq_false in Hterm. destruct Hterm. by rewrite Hr.
Qed.

Lemma step_cancel_reported st a :
  cancel_reported st → cancel_reported (step verify_hash pool tasks st a).
Proof.
  intros [Hflag Hr]. split; [by apply step_cancelled|].
  step_cases st a i t Hw; try done.
  right. by eexists.
Qed.

(** A task still in the queue when the flag is set can only return
    ["cancelled"], and the step in which it does touches neither the file
    system nor the counters nor the signals. *)
Lemma work_queued_cancelled st i :
  cancelled st = true → workers st !! i = Some Queued →
  let st' := work verify_hash pool tasks i st in
  fs st' = fs st ∧ files_copied st' = files_copied st ∧
  copied_size st' = copied_size st ∧ events st' = events st ∧
  (st' = st ∨
   workers st' !! i = Some (Returned false (Some "cancelled"))).
Proof.
  intros Hflag Hq st'. subst st'. unfold work. rewrite Hq, Hflag.
  destruct (tasks !! i) as [t|]; [|by repeat split; auto].
  destruct (bool_decide _); [|by repeat split; auto]. simpl. repeat split.
  right. apply list_lookup_insert_eq. by eapply lookup_lt_Some.
Qed.

Lemma step_queued_or_cancelled i st a :
  queued_or_cancelled i st →
  queued_or_cancelled i (step verify_hash pool tasks st a).
Proof.
  intros [Hflag Hq]. split; [by apply step_cancelled|].
  destruct Hq as [Hq|Hq]; [|right; by apply step_returned].
  step_cases st a j t Hw; try (by left);
    destruct (decide (j = i)) as [->|Hne];
    try (left; by rewrite list_lookup_insert_ne);
    try congruence.
  right. apply list_lookup_insert_eq. by eapply lookup_lt_Some.
Qed.

End execution.

(* ===================================================================== *)
(** ** [BackupWorker.run]: cancellation *)
(* ===================================================================== *)

Section cancellation.
Context `{Platform}.
Import BackupWorker.
Local Open Scope Z_scope.

Lemma submitted_counters_ok p : counters_ok (submitted p).
Proof.
  unfold counters_ok, submitted. simpl.
  induction (length (plan p)) as [|n IH]; [done|]. simpl.
  rewrite filter_cons. simpl. exact IH.
Qed.

Lemma submitted_terminal_ok p : terminal_ok (submitted p).
Proof. by intros r Hr. Qed.

(** A run that has not ended at once is the pool under its schedule. *)
Lemma run_started fuel fs source_dir destination_root patterns max_workers
    verify_hash schedule p st :
  make_plan fuel fs source_dir destination_root patterns verify_hash = Some p →
  run fuel fs source_dir destination_root patterns max_workers verify_hash schedule
    = Some st →
  (plan p = [] ∧ st = nothing_to_do p source_dir) ∨
  (plan p ≠ [] ∧
   st = exec verify_hash (pool_size max_workers) (plan p) (submitted p) schedule).
Proof.
  intros Hp. unfold run. rewrite Hp. simpl.
  destruct (make_plan_ok _ _ _ _ _ _ _ Hp) as [Hn _].
  case_bool_decide as Hz; intros [= <-].
  - left. split; [|done]. rewrite Hz in Hn. by destruct (plan p).
  - right. split; [|done]. intros He. rewrite He in Hn. simpl in Hn. done.
Qed.

(** C5.  Let [cancel()] be called when the run has not yet finished, the
    schedule being [before] up to the call and [after] from it on.  If the
    run reaches its terminal result [(n, ok, msg)], then [ok] is [False] and
    [msg] is "Backup cancelled by user."; [n] is at least the number of files
    counted when the flag was set (so at least the number of tasks that had
    then returned [True]), it counts the tasks that passed the lock after
    the flag was set, and it is at most the number of planned tasks; every
    task that was still in the queue when the flag was set has returned
    [(False, ..., "cancelled")]; and the step in which a queued task sees
    the flag changes neither the file system nor the counters nor the
    progress events. *)
Theorem cancelled_run_reports_cancellation (fuel : nat) (fs0 : os.filesystem)
    (source_dir destination_root : string) (patterns : list string)
    (max_workers : option nat) (verify_hash : bool)
    (before after : list action) (p : planning) (st1 st : state)
    (n : Z) (ok : bool) (msg : string) :
  make_plan fuel fs0 source_dir destination_root patterns verify_hash = Some p →
  run fuel fs0 source_dir destination_root patterns max_workers verify_hash before
    = Some st1 →
  terminal st1 = None →
  run fuel fs0 source_dir destination_root patterns max_workers verify_hash
      (before ++ Cancel :: after) = Some st →
  terminal st = Some (n, ok, msg) →
  ok = false ∧ msg = "Backup cancelled by user." ∧
  Z.of_nat (succeeded (workers st1)) ≤ files_copied st1 ∧
  files_copied st1 ≤ n ∧
  n = files_copied st ∧
  n ≤ Z.of_nat (length (plan p)) ∧
  (∀ i, workers st1 !! i = Some Queued →
        workers st !! i = Some (Returned false (Some "cancelled"))) ∧
  (∀ st' i, cancelled st' = true → workers st' !! i = Some Queued →
     let st'' := work verify_hash (pool_size max_workers) (plan p) i st' in
     fs st'' = fs st' ∧ files_copied st'' = files_copied st' ∧
     copied_size st'' = copied_size st' ∧ events st'' = events st' ∧
     (st'' = st' ∨ workers st'' !! i = Some (Returned false (Some "cancelled")))).
Proof.
  intros Hp Hrun1 Hnone Hrun Hterm.
  destruct (run_started _ _ _ _ _ _ _ _ _ _ Hp Hrun1) as [[_ ->]|[Hne Hst1]];
    [done|].
  destruct (run_started _ _ _ _ _ _ _ _ _ _ Hp Hrun) as [[He _]|[_ Hst]]; [done|].
  rewrite exec_app in Hst. simpl in Hst. rewrite <- Hst1 in Hst.
  set (pool := pool_size max_workers) in *.
  assert (counters_ok st1) as Hc1.
  { rewrite Hst1. apply (exec_invariant verify_hash pool (plan p) counters_ok);
      [apply step_counters_ok|apply submitted_counters_ok]. }
  assert (counters_ok st) as Hc.
  { rewrite Hst. apply (exec_invariant verify_hash pool (plan p) counters_ok);
      [apply step_counters_ok|]. exact Hc1. }
  assert (terminal_ok st) as Hk.
  { rewrite Hst. apply (exec_invariant verify_hash pool (plan p) terminal_ok);
      [apply step_terminal_ok|]. intros r Hr. simpl in Hr. congruence. }
  assert (cancel_reported st) as [_ Hrep].
  { rewrite Hst. apply (exec_invariant verify_hash pool (plan p) cancel_reported);
      [apply step_cancel_reported|]. split; [done|]. by left. }
  destruct (Hk _ Hterm) as [Hall Hn]. simpl in Hn.
  assert (length (workers st) = length (plan p)) as Hlen.
  { rewrite Hst, exec_workers_length. simpl. rewrite Hst1, exec_workers_length.
    simpl. apply length_replicate. }
  destruct Hrep as [Hrep|[n' Hrep]]; [congruence|].
  rewrite Hterm in Hrep. inversion Hrep; subst n' ok msg.
  pose proof (files_copied_bound st1 Hc1) as [Hlo _].
  pose proof (files_copied_bound st Hc) as [_ Hhi].
  pose proof (exec_files_copied_mono verify_hash pool (plan p) after (cancel st1))
    as Hmono.
  rewrite <- Hst in Hmono. simpl in Hmono. rewrite Hlen in Hhi.
  split; [done|]. split; [done|]. split; [done|]. split; [lia|].
  split; [done|]. split; [lia|]. split.
  - intros i Hq.
    assert (queued_or_cancelled i st) as [_ [Hi|Hi]]; [| |done].
    { rewrite Hst.
      apply (exec_invariant verify_hash pool (plan p) (queued_or_cancelled i));
        [apply step_queued_or_cancelled|]. split; [done|]. by left. }
    by pose proof (all_returned_lookup _ _ _ Hall Hi).
  - intros st' i Hflag Hq. by apply work_queued_cancelled.
Qed.

End cancellation.

(** Five planned tasks; [cancel()] arrives when the first has completed
    and the others are still queued. *)
Lemma cancelled_run_reports_cancellation_witness :
  ∃ p st1 st,
    BackupWorker.make_plan 10 (examples.five_files ["src"]) "." "/dst" ["*"] true
      = Some p ∧
    BackupWorker.run (H := examples.sound_posix) 10 (examples.five_files ["src"])
      "." "/dst" ["*"] None true
      (replicate 4 (BackupWorker.Work 0)) = Some st1 ∧
    BackupWorker.terminal st1 = None ∧
    BackupWorker.run (H := examples.sound_posix) 10 (examples.five_files ["src"])
      "." "/dst" ["*"] None true
      (replicate 4 (BackupWorker.Work 0) ++ BackupWorker.Cancel ::
       (BackupWorker.Work <$> [1; 2; 3; 4]) ++
       [BackupWorker.Collect 0; BackupWorker.Finish]) = Some st ∧
    BackupWorker.terminal st = Some (1%Z, false, "Backup cancelled by user.") ∧
    length (BackupWorker.plan p) = 5 ∧
    BackupWorker.succeeded (BackupWorker.workers st1) = 1 ∧
    (false = false ∧ "Backup cancelled by user." = "Backup cancelled by user." ∧
     (Z.of_nat (BackupWorker.succeeded (BackupWorker.workers st1))
        ≤ BackupWorker.files_copied st1)%Z ∧
     (BackupWorker.files_copied st1 ≤ 1)%Z ∧
     1%Z = BackupWorker.files_copied st ∧
     (1 ≤ Z.of_nat (length (BackupWorker.plan p)))%Z ∧
     (∀ i, BackupWorker.workers st1 !! i = Some BackupWorker.Queued →
           BackupWorker.workers st !! i =
             Some (BackupWorker.Returned false (Some "cancelled"))) ∧
     (∀ st' i, BackupWorker.cancelled st' = true →
        BackupWorker.workers st' !! i = Some BackupWorker.Queued →
        let st'' := BackupWorker.work (H := examples.sound_posix) true
                      (BackupWorker.pool_size (H := examples.sound_posix) None)
                      (BackupWorker.plan p) i st' in
        BackupWorker.fs st'' = BackupWorker.fs st' ∧
        BackupWorker.files_copied st'' = BackupWorker.files_copied st' ∧
        BackupWorker.copied_size st'' = BackupWorker.copied_size st' ∧
        BackupWorker.events st'' = BackupWorker.events st' ∧
        (st'' = st' ∨
         BackupWorker.workers st'' !! i =
           Some (BackupWorker.Returned false (Some "cancelled"))))).
Proof.
  do 3 eexists.
  split; [vm_compute; reflexivity|].
  split; [vm_compute; reflexivity|].
  split; [vm_compute; reflexivity|].
  split; [vm_compute; reflexivity|].
  split; [vm_compute; reflexivity|].
  split; [vm_compute; reflexivity|].
  split; [vm_compute; reflexivity|].
  eapply (cancelled_run_reports_cancellation (H := examples.sound_posix) 10
            (examples.five_files ["src"]) "." "/dst" ["*"] None true
            (replicate 4 (BackupWorker.Work 0))
            ((BackupWorker.Work <$> [1; 2; 3; 4]) ++
             [BackupWorker.Collect 0; BackupWorker.Finish]));
    vm_compute; reflexivity.
Defined.

(** A copy in flight when the flag is set is still counted: the second
    task had been copied but not counted when [cancel()] was called. *)
Example cancelled_run_counts_late_copy :
  (st ← BackupWorker.run (H := examples.sound_posix) 10 (examples.five_files ["src"])
          "." "/dst" ["*"] None true
          (replicate 4 (BackupWorker.Work 0) ++ replicate 2 (BackupWorker.Work 1) ++
           BackupWorker.Cancel ::
           (BackupWorker.Work <$> [1; 1; 2; 3; 4]) ++
           [BackupWorker.Collect 0; BackupWorker.Finish]);
   Some (BackupWorker.terminal st))
  = Some (Some (2%Z, false, "Backup cancelled by user.")).
Proof. vm_compute. reflexivity. Qed.

(* ===================================================================== *)
(** ** [BackupWorker.run]: failures and the terminal result *)
(* ===================================================================== *)

Section failures.
Context `{Platform} (verify_hash : bool) (pool : nat) (tasks : list BackupWorker.task).
Import BackupWorker.
Local Open Scope Z_scope.

Lemma all_collected_elem st i :
  all_collected st = true → (i < length (workers st))%nat → i ∈ collected st.
Proof.
  unfold all_collected. rewrite forallb_forall. intros Hall Hi.
  specialize (Hall i). rewrite bool_decide_eq_true in Hall. apply Hall.
  apply in_seq. lia.
Qed.

(** A step of the pool changes no task that has returned. *)
Lemma work_returned_inv st i j ok err :
  workers (work verify_hash pool tasks i st) !! j = Some (Returned ok err) →
  (∃ ok' err', workers st !! j = Some (Returned ok' err')) →
  workers st !! j = Some (Returned ok err).
Proof.
  intros Hafter (ok' & err' & Hbefore).
  pose proof (step_returned verify_hash pool tasks st (Work i) j ok' err' Hbefore)
    as Hkeep. simpl in Hkeep. congruence.
Qed.

Lemma step_errors_ok st a :
  terminal_ok st → errors_ok st → errors_ok (step verify_hash pool tasks st a).
Proof.
  intros Hk (Hpos & Hcol & Hrun & Hfin).
  destruct a as [|i|i|]; simpl.
  - (* cancel *)
    unfold cancel, errors_ok. simpl.
    split; [done|]. split; [done|]. split; [done|]. exact Hfin.
  - (* work *)
    assert (errors (work verify_hash pool tasks i st) = errors st ∧
            collected (work verify_hash pool tasks i st) = collected st ∧
            left_loop (work verify_hash pool tasks i st) = left_loop st ∧
            cancelled (work verify_hash pool tasks i st) = cancelled st ∧
            terminal (work verify_hash pool tasks i st) = terminal st)
      as (He & Hc & Hl & Hf & Ht).
    { unfold work. destruct (tasks !! i) as [t|]; [|done].
      destruct (workers st !! i) as [[| | |n size|ok err]|]; try done.
      - destruct (bool_decide (running (workers st) < pool)%nat); [|done].
        by destruct (cancelled st) eqn:Hflag.
      - by destruct (copy_body _ _ _ _) as [[fs' log'] [err|]]. }
    unfold errors_ok. rewrite He. split; [done|]. split; [|split].
    + rewrite Hc. intros j Hj. destruct (Hcol j Hj) as (ok & err & Hw).
      exists ok, err. by apply (step_returned verify_hash pool tasks st (Work i)).
    + rewrite Hf, Hl, Hc. intros Hflag. destruct (Hrun Hflag) as [Hloop Hcount].
      split; [done|]. intros j err Hj Hw. apply (Hcount j err Hj).
      by eapply work_returned_inv; eauto.
    + rewrite Ht. intros n ok msg Hterm.
      destruct (Hk _ Hterm) as [Hall _].
      assert (work verify_hash pool tasks i st = st) as ->; [|by eauto].
      unfold work. destruct (tasks !! i) as [t|]; [|done].
      destruct (workers st !! i) as [w|] eqn:Hw; [|done].
      pose proof (all_returned_lookup _ _ _ Hall Hw). by destruct w.
  - (* collect *)
    unfold collect. destruct (workers st !! i) as [[| | |n size|ok err]|] eqn:Hw;
      try done.
    destruct (left_loop st || bool_decide (i ∈ collected st)
              || bool_decide (is_Some (terminal st))) eqn:Hguard; [done|].
    apply orb_false_iff in Hguard as [Hguard Hnoterm].
    apply orb_false_iff in Hguard as [Hloop Hnew].
    apply bool_decide_eq_false in Hnoterm. unfold errors_ok. simpl.
    split; [|split; [|split]].
    + destruct (cancelled st); [done|]. destruct ok; lia.
    + intros j [->|Hj]%elem_of_cons; [by eauto|by apply Hcol].
    + intros Hflag. rewrite Hflag. split; [done|].
      destruct (Hrun Hflag) as [_ Hcount].
      intros j err' [->|Hj]%elem_of_cons Hwj.
      * rewrite Hw in Hwj. inversion Hwj; subst. lia.
      * specialize (Hcount j err' Hj Hwj). destruct ok; lia.
    + intros n' ok' msg Hterm. destruct Hnoterm. by rewrite Hterm.
  - (* finish *)
    unfold finish.
    destruct (bool_decide (is_Some (terminal st))) eqn:Hterm; [done|].
    destruct (forallb is_returned (workers st)) eqn:Hret; simpl; [|done].
    destruct (left_loop st || all_collected st) eqn:Hloop; simpl; [|done].
    destruct (cancelled st) eqn:Hflag; unfold errors_ok; simpl.
    + split; [done|]. split; [done|]. split; [done|].
      intros n ok msg [= <- <- <-]. by left.
    + split; [done|]. split; [done|]. split; [exact Hrun|].
      intros n ok msg [= <- <- <-]. right. split; [done|]. split; [done|].
      destruct (Hrun eq_refl) as [Hl Hcount]. rewrite Hl in Hloop. simpl in Hloop.
      intros i err Hw. apply (Hcount i err); [|done].
      apply all_collected_elem; [done|]. by eapply lookup_lt_Some.
Qed.

Lemma exec_errors_ok s st :
  terminal_ok st → errors_ok st →
  errors_ok (exec verify_hash pool tasks st s).
Proof.
  revert st. induction s as [|a s IH]; intros st Hk He; [done|].
  simpl. apply IH; [by apply step_terminal_ok|by apply step_errors_ok].
Qed.

End failures.

Section verdict.
Context `{Platform} (verify_hash : bool) (pool : nat) (tasks : list BackupWorker.task).
Import BackupWorker.
Local Open Scope Z_scope.

Lemma step_verdict_ok st a :
  terminal_ok st → errors_ok st → verdict_ok st →
  verdict_ok (step verify_hash pool tasks st a).
Proof.
  intros Hk (Hpos & Hcol & Hrun & Hfin) Hv.
  destruct a as [|i|i|]; simpl.
  - (* cancel *)
    intros n ok msg _. by left.
  - (* work *)
    intros n ok msg Hterm.
    assert (terminal (work verify_hash pool tasks i st) = terminal st) as Ht.
    { unfold work. destruct (tasks !! i) as [t|]; [|done].
      destruct (workers st !! i) as [[| | |n' size|ok' err]|]; try done.
      - destruct (bool_decide (running (workers st) < pool)%nat); [|done].
        by destruct (cancelled st).
      - by destruct (copy_body _ _ _ _) as [[fs' log'] [err|]]. }
    rewrite Ht in Hterm. destruct (Hk _ Hterm) as [Hall _].
    assert (work verify_hash pool tasks i st = st) as ->; [|by apply Hv].
    unfold work. destruct (tasks !! i) as [t|]; [|done].
    destruct (workers st !! i) as [w|] eqn:Hw; [|done].
    pose proof (all_returned_lookup _ _ _ Hall Hw). by destruct w.
  - (* collect *)
    unfold collect. destruct (workers st !! i) as [[| | |n size|ok err]|] eqn:Hw;
      try done.
    destruct (left_loop st || bool_decide (i ∈ collected st)
              || bool_decide (is_Some (terminal st))) eqn:Hguard; [done|].
    apply orb_false_iff in Hguard as [_ Hnoterm].
    apply bool_decide_eq_false in Hnoterm.
    intros n' ok' msg Hterm. simpl in Hterm. destruct Hnoterm. by rewrite Hterm.
  - (* finish *)
    unfold finish.
    destruct (bool_decide (is_Some (terminal st))) eqn:Hterm; [done|].
    destruct (forallb is_returned (workers st)) eqn:Hret; simpl; [|done].
    destruct (left_loop st || all_collected st) eqn:Hloop; simpl; [|done].
    destruct (cancelled st) eqn:Hflag; intros n ok msg; simpl.
    + intros _. by left.
    + intros [= <- <- <-]. right. split; [done|]. split; [done|].
      destruct (Hrun eq_refl) as [Hl Hcount]. rewrite Hl in Hloop. simpl in Hloop.
      intros i err Hw. apply (Hcount i err); [|done].
      apply all_collected_elem; [done|]. by eapply lookup_lt_Some.
Qed.

Lemma submitted_verdict_ok p : verdict_ok (submitted p).
Proof. by intros n ok msg Hterm. Qed.

Lemma exec_verdict_ok s st :
  terminal_ok st → errors_ok st → verdict_ok st →
  verdict_ok (exec verify_hash pool tasks st s).
Proof.
  revert st. induction s as [|a s IH]; intros st Hk He Hv; [done|].
  simpl. apply IH;
    [by apply step_terminal_ok|by apply step_errors_ok|by apply step_verdict_ok].
Qed.

End verdict.

Section verification.
Context `{Platform}.
Import BackupWorker.
Local Open Scope Z_scope.

(** No exception prints as ["hash mismatch"]. *)
Lemma str_not_hash_mismatch (e : os.exn) : os.str e ≠ "hash mismatch".
Proof.
  intros Heq.
  apply (f_equal (λ s, match s with String c _ => Some c | EmptyString => None end))
    in Heq.
  destruct e as [[] f|s d]; vm_compute in Heq; discriminate.
Qed.

(** The verification branch of [copy_one]. *)
Lemma copy_body_hash_mismatch fs log t fs1 fs2 src_hash dst_hash :
  os.makedirs fs (posixpath.dirname (dst t)) = (fs1, None) →
  shutil.copy2 fs1 (src t) (dst t) = (fs2, None) →
  chunked_file_hash fs2 (src t) = os.Ok src_hash →
  chunked_file_hash fs2 (dst t) = os.Ok dst_hash →
  src_hash ≠ dst_hash →
  copy_body true fs log t =
    (fs2, log ++ ["HASH MISMATCH " +:+ src t +:+ " -> " +:+ dst t],
     Some "hash mismatch").
Proof.
  intros Hm Hc Hs Hd Hne. unfold copy_body. rewrite Hm, Hc, Hs, Hd.
  apply String.eqb_neq in Hne. by rewrite Hne.
Qed.

Lemma submitted_errors_ok p : errors_ok (submitted p).
Proof.
  split; [done|]. split; [by intros i ?%elem_of_nil|]. split.
  - intros _. split; [done|]. by intros i err ?%elem_of_nil.
  - by intros n ok msg.
Qed.

(** The verdict of the loop is never the text of the cancellation. *)
Lemma verdict_not_cancellation n e :
  (if bool_decide (e = 0) then "Backup completed successfully." else summary n e)
  ≠ cancelled_message.
Proof.
  intros Heq.
  apply (f_equal (λ s, match s with
                       | String _ (String _ (String _ (String _ (String _
                           (String _ (String _ (String _ (String c _)))))))) =>
                           Some c
                       | _ => None
                       end)) in Heq.
  destruct (bool_decide (e = 0)); vm_compute in Heq; discriminate.
Qed.

(** C4, as amended.  Take a run with verification on and a task [t] whose
    worker has passed the flag test after the schedule [before].  If its
    copy goes through and the digests of source and destination then
    differ, the worker's next step logs "HASH MISMATCH ..." and returns
    [(False, ..., "hash mismatch")] without touching the counters; no
    exception of the file operations prints as that string (those return
    [str(e)]), nor is it the "cancelled" outcome.  Every terminal result of
    the run is then a failure.  It is the verdict of the main loop, with
    the mismatch in its error count and the count in its message, in every
    run in which [cancel()] is not called; the only other terminal result
    is the cancellation, emitted with the flag set, which shows no count:
    the loop tests the flag before it adds to [errors]. *)
Theorem hash_mismatch_is_counted_unless_cancelled (fuel : nat) (fs0 : os.filesystem)
    (source_dir destination_root : string) (patterns : list string)
    (max_workers : option nat) (before after : list action)
    (p : planning) (st1 st : state) (i : nat) (t : task)
    (fs1 fs2 : os.filesystem) (src_hash dst_hash : string) :
  make_plan fuel fs0 source_dir destination_root patterns true = Some p →
  run fuel fs0 source_dir destination_root patterns max_workers true before
    = Some st1 →
  plan p !! i = Some t →
  workers st1 !! i = Some Entered →
  os.makedirs (fs st1) (posixpath.dirname (dst t)) = (fs1, None) →
  shutil.copy2 fs1 (src t) (dst t) = (fs2, None) →
  chunked_file_hash fs2 (src t) = os.Ok src_hash →
  chunked_file_hash fs2 (dst t) = os.Ok dst_hash →
  src_hash ≠ dst_hash →
  run fuel fs0 source_dir destination_root patterns max_workers true
      (before ++ Work i :: after) = Some st →
  copy_body true (fs st1) (log st1) t =
    (fs2, log st1 ++ ["HASH MISMATCH " +:+ src t +:+ " -> " +:+ dst t],
     Some "hash mismatch") ∧
  (let st2 := work true (pool_size max_workers) (plan p) i st1 in
   workers st2 !! i = Some (Returned false (Some "hash mismatch")) ∧
   files_copied st2 = files_copied st1 ∧ copied_size st2 = copied_size st1 ∧
   events st2 = events st1) ∧
  workers st !! i = Some (Returned false (Some "hash mismatch")) ∧
  (∀ e, os.str e ≠ "hash mismatch") ∧ "cancelled" ≠ "hash mismatch" ∧
  (∀ n ok msg, terminal st = Some (n, ok, msg) →
     ok = false ∧
     ((cancelled st = true ∧ msg = "Backup cancelled by user.") ∨
      (1 ≤ errors st ∧
       msg = "DONE. Files copied: " +:+ pretty n +:+ "; Errors: "
             +:+ pretty (errors st))) ∧
     (cancelled st = false →
      1 ≤ errors st ∧
      msg = "DONE. Files copied: " +:+ pretty n +:+ "; Errors: "
            +:+ pretty (errors st))).
Proof.
  intros Hp Hrun1 Ht Hw Hm Hc Hs Hd Hne Hrun.
  pose proof (copy_body_hash_mismatch _ (log st1) _ _ _ _ _ Hm Hc Hs Hd Hne) as Hbody.
  assert (plan p ≠ []) as Hnonempty by (by destruct (plan p)).
  destruct (run_started _ _ _ _ _ _ _ _ _ _ Hp Hrun1) as [[He _]|[_ Hst1]]; [done|].
  destruct (run_started _ _ _ _ _ _ _ _ _ _ Hp Hrun) as [[He _]|[_ Hst]]; [done|].
  set (pool := pool_size max_workers) in *.
  assert (terminal_ok st ∧ errors_ok st ∧ verdict_ok st) as (_ & Herr & Hv).
  { rewrite Hst. split; [|split].
    - apply exec_invariant; [apply step_terminal_ok|apply submitted_terminal_ok].
    - apply exec_errors_ok; [apply submitted_terminal_ok|apply submitted_errors_ok].
    - apply exec_verdict_ok;
        [apply submitted_terminal_ok|apply submitted_errors_ok
        |apply submitted_verdict_ok]. }
  rewrite exec_app in Hst. simpl in Hst. rewrite <- Hst1 in Hst.
  assert (workers (work true pool (plan p) i st1) !! i
          = Some (Returned false (Some "hash mismatch")) ∧
          files_copied (work true pool (plan p) i st1) = files_copied st1 ∧
          copied_size (work true pool (plan p) i st1) = copied_size st1 ∧
          events (work true pool (plan p) i st1) = events st1) as Hwork.
  { unfold work. rewrite Ht, Hw, Hbody. simpl. repeat split.
    apply list_lookup_insert_eq. by eapply lookup_lt_Some. }
  assert (workers st !! i = Some (Returned false (Some "hash mismatch"))) as Hfinal.
  { rewrite Hst.
    apply (exec_invariant true pool (plan p)
             (λ s, workers s !! i = Some (Returned false (Some "hash mismatch")))).
    - intros s a. apply step_returned.
    - apply Hwork. }
  split; [done|]. split; [done|]. split; [done|].
  split; [apply str_not_hash_mismatch|]. split; [done|].
  intros n ok msg Hterm.
  destruct Herr as (_ & _ & _ & Hfin).
  assert (cancelled st = false →
          ok = false ∧ 1 ≤ errors st ∧
          msg = "DONE. Files copied: " +:+ pretty n +:+ "; Errors: "
                +:+ pretty (errors st)) as Hclear.
  { intros Hflag.
    destruct (Hv n ok msg Hterm) as [Hset|(-> & -> & Hcount)]; [congruence|].
    specialize (Hcount i _ Hfinal). by rewrite bool_decide_eq_false_2 by lia. }
  destruct (Hfin n ok msg Hterm) as [[-> ->]|(-> & -> & Hcount)].
  - split; [done|]. split; [|intros Hflag; by destruct (Hclear Hflag) as (_ & ? & ?)].
    left. split; [|done].
    destruct (Hv n false cancelled_message Hterm) as [Hset|(_ & Hmsg & _)]; [done|].
    symmetry in Hmsg. by apply verdict_not_cancellation in Hmsg.
  - specialize (Hcount i _ Hfinal).
    rewrite bool_decide_eq_false_2 by lia. split; [done|]. split; [by right|done].
Qed.

End verification.

(** Three files copied to a medium that loses the last byte written: the
    first task's copy goes through and its digests differ; nobody cancels,
    and the run ends with the three mismatches counted. *)
Lemma hash_mismatch_is_counted_unless_cancelled_witness :
  ∃ p st1 st t fs1 fs2 src_hash dst_hash,
    BackupWorker.make_plan 10 (examples.three_files ["src"]) "." "/dst" ["*"] true
      = Some p ∧
    BackupWorker.run (H := examples.lossy_posix) 10 (examples.three_files ["src"])
      "." "/dst" ["*"] None true [BackupWorker.Work 0] = Some st1 ∧
    BackupWorker.plan p !! 0 = Some t ∧
    BackupWorker.workers st1 !! 0 = Some BackupWorker.Entered ∧
    os.makedirs (BackupWorker.fs st1) (posixpath.dirname (BackupWorker.dst t))
      = (fs1, None) ∧
    shutil.copy2 (H := examples.lossy_posix) fs1 (BackupWorker.src t)
      (BackupWorker.dst t) = (fs2, None) ∧
    chunked_file_hash (H := examples.lossy_posix) fs2 (BackupWorker.src t)
      = os.Ok src_hash ∧
    chunked_file_hash (H := examples.lossy_posix) fs2 (BackupWorker.dst t)
      = os.Ok dst_hash ∧
    src_hash ≠ dst_hash ∧
    BackupWorker.run (H := examples.lossy_posix) 10 (examples.three_files ["src"])
      "." "/dst" ["*"] None true
      ([BackupWorker.Work 0] ++ BackupWorker.Work 0 ::
       (BackupWorker.Work <$> [1; 1; 2; 2]) ++
       (BackupWorker.Collect <$> [0; 1; 2]) ++ [BackupWorker.Finish]) = Some st ∧
    BackupWorker.terminal st = Some (0%Z, false, "DONE. Files copied: 0; Errors: 3") ∧
    BackupWorker.cancelled st = false ∧
    BackupWorker.workers st !! 0 =
      Some (BackupWorker.Returned false (Some "hash mismatch")) ∧
    (∀ n ok msg, BackupWorker.terminal st = Some (n, ok, msg) →
       ok = false ∧
       ((BackupWorker.cancelled st = true ∧ msg = "Backup cancelled by user.") ∨
        ((1 ≤ BackupWorker.errors st)%Z ∧
         msg = "DONE. Files copied: " +:+ pretty n +:+ "; Errors: "
               +:+ pretty (BackupWorker.errors st))) ∧
       (BackupWorker.cancelled st = false →
        (1 ≤ BackupWorker.errors st)%Z ∧
        msg = "DONE. Files copied: " +:+ pretty n +:+ "; Errors: "
              +:+ pretty (BackupWorker.errors st))).
Proof.
  do 8 eexists.
  split; [vm_compute; reflexivity|].
  split; [vm_compute; reflexivity|].
  split; [vm_compute; reflexivity|].
  split; [vm_compute; reflexivity|].
  split; [vm_compute; reflexivity|].
  split; [vm_compute; reflexivity|].
  split; [vm_compute; reflexivity|].
  split; [vm_compute; reflexivity|].
  split; [vm_compute; discriminate|].
  split; [vm_compute; reflexivity|].
  split; [vm_compute; reflexivity|].
  split; [vm_compute; reflexivity|].
  assert (∀ A B C D E F : Prop, A ∧ B ∧ C ∧ D ∧ E ∧ F → C ∧ F) as Hsel by tauto.
  eapply Hsel.
  eapply (hash_mismatch_is_counted_unless_cancelled (H := examples.lossy_posix) 10
            (examples.three_files ["src"]) "." "/dst" ["*"] None
            [BackupWorker.Work 0]
            ((BackupWorker.Work <$> [1; 1; 2; 2]) ++
             (BackupWorker.Collect <$> [0; 1; 2]) ++ [BackupWorker.Finish]));
    try (vm_compute; reflexivity).
  vm_compute; discriminate.
Defined.

(** C4 as stated fails.  On the same medium the first task's digests
    differ and its worker returns [(False, ..., "hash mismatch")]; then
    [cancel()] is called.  The main loop receives that future, finds the
    flag set and leaves before [errors += 1]: the run ends with
    [(0, False, "Backup cancelled by user.")], [errors] is 0, and the
    mismatch is counted nowhere in the terminal result. *)
Lemma hash_mismatch_is_not_counted_after_cancel :
  ¬ (∀ st n ok msg,
       BackupWorker.run (H := examples.lossy_posix) 10 (examples.three_files ["src"])
         "." "/dst" ["*"] None true
         ([BackupWorker.Work 0; BackupWorker.Work 0; BackupWorker.Cancel;
           BackupWorker.Work 1; BackupWorker.Work 2;
           BackupWorker.Collect 0; BackupWorker.Finish]) = Some st →
       BackupWorker.workers st !! 0 =
         Some (BackupWorker.Returned false (Some "hash mismatch")) →
       BackupWorker.terminal st = Some (n, ok, msg) →
       ok = false ∧ (1 ≤ BackupWorker.errors st)%Z ∧
       msg = "DONE. Files copied: " +:+ pretty n +:+ "; Errors: "
             +:+ pretty (BackupWorker.errors st)).
Proof.
  intros Hall.
  assert ((λ st, (BackupWorker.workers st !! 0, BackupWorker.terminal st,
                  BackupWorker.errors st)) <$>
            BackupWorker.run (H := examples.lossy_posix) 10
              (examples.three_files ["src"]) "." "/dst" ["*"] None true
              ([BackupWorker.Work 0; BackupWorker.Work 0; BackupWorker.Cancel;
                BackupWorker.Work 1; BackupWorker.Work 2;
                BackupWorker.Collect 0; BackupWorker.Finish])
          = Some (Some (BackupWorker.Returned false (Some "hash mismatch")),
                  Some (0%Z, false, "Backup cancelled by user."), 0%Z)) as Hrun
    by (vm_compute; reflexivity).
  destruct (BackupWorker.run (H := examples.lossy_posix) 10
              (examples.three_files ["src"]) "." "/dst" ["*"] None true _)
    as [st|] eqn:Hst; [|discriminate Hrun].
  injection Hrun as Hw Ht He.
  destruct (Hall st _ _ _ eq_refl Hw Ht) as (_ & Hcount & _).
  rewrite He in Hcount. lia.
Qed.

Example cancelled_after_mismatch_result :
  (st ← BackupWorker.run (H := examples.lossy_posix) 10 (examples.three_files ["src"])
          "." "/dst" ["*"] None true
          ([BackupWorker.Work 0; BackupWorker.Work 0; BackupWorker.Cancel;
            BackupWorker.Work 1; BackupWorker.Work 2;
            BackupWorker.Collect 0; BackupWorker.Finish]);
   Some (BackupWorker.workers st, BackupWorker.terminal st, BackupWorker.errors st))
  = Some ([BackupWorker.Returned false (Some "hash mismatch");
           BackupWorker.Returned false (Some "cancelled");
           BackupWorker.Returned false (Some "cancelled")],
          Some (0%Z, false, "Backup cancelled by user."), 0%Z).
Proof. vm_compute. reflexivity. Qed.

(* ===================================================================== *)
(** ** [BackupWorker.run]: the progress events *)
(* ===================================================================== *)

Section snapshots.
Import BackupWorker.
Local Open Scope Z_scope.

Lemma snaps_ok_fewer fc cs evs (held held' : nat → Z → Z → Prop) :
  (∀ i n s, held' i n s → held i n s) →
  snaps_ok fc cs evs held → snaps_ok fc cs evs held'.
Proof.
  intros Hsub (H0 & He & Hh & Hee & Heh & Hhh & Hnd).
  split; [done|]. split; [done|].
  split; [intros i n s Hi; by apply (Hh i), Hsub|]. split; [done|].
  split; [intros e i n s Hin Hi; apply (Heh e i); [done|by apply Hsub]|].
  split; [|done]. intros i j n s n' s' Hi Hj. apply (Hhh i j); by apply Hsub.
Qed.

(** A worker takes the lock. *)
Lemma snaps_ok_lock fc cs evs (held held' : nat → Z → Z → Prop) i size :
  0 ≤ size →
  (∀ j n s, held' j n s →
     (j = i ∧ n = fc + 1 ∧ s = cs + size) ∨ (j ≠ i ∧ held j n s)) →
  snaps_ok fc cs evs held → snaps_ok (fc + 1) (cs + size) evs held'.
Proof.
  intros Hsize Hnew (H0 & He & Hh & Hee & Heh & Hhh & Hnd).
  split; [lia|]. split; [|split; [|split; [|split; [|split]]]].
  - intros e Hin. specialize (He e Hin). lia.
  - intros j n s [(-> & -> & ->)|[_ Hj]]%Hnew; [lia|].
    specialize (Hh j n s Hj). lia.
  - done.
  - intros e j n s Hin [(-> & -> & ->)|[_ Hj]]%Hnew.
    + specialize (He e Hin). lia.
    + by apply (Heh e j).
  - intros j k n s n' s' [(-> & -> & ->)|[Hji Hj]]%Hnew
                         [(-> & -> & ->)|[Hki Hk]]%Hnew.
    + split; [done|lia].
    + specialize (Hh k n' s' Hk). split; lia.
    + specialize (Hh j n s Hj). split; lia.
    + by apply (Hhh j k).
  - done.
Qed.

Lemma elem_of_snoc {A} (l : list A) (x y : A) : x ∈ l ++ [y] → x ∈ l ∨ x = y.
Proof.
  intros [Hin|Hin]%elem_of_app; [by left|]. right.
  by apply list_elem_of_singleton in Hin.
Qed.

(** A worker emits the snapshot it holds. *)
Lemma snaps_ok_emit fc cs evs (held held' : nat → Z → Z → Prop) i e :
  held i (files_processed e) (copied_so_far e) →
  (∀ j n s, held' j n s → j ≠ i ∧ held j n s) →
  snaps_ok fc cs evs held → snaps_ok fc cs (evs ++ [e]) held'.
Proof.
  intros Hi Hrest (H0 & He & Hh & Hee & Heh & Hhh & Hnd).
  split; [done|]. split; [|split; [|split; [|split; [|split]]]].
  - intros e' [Hin| ->]%elem_of_snoc; [by apply He|].
    by apply (Hh i).
  - intros j n s [_ Hj]%Hrest. by apply (Hh j).
  - intros e1 e2 [H1| ->]%elem_of_snoc [H2| ->]%elem_of_snoc Hlt.
    + by apply Hee.
    + by apply (Heh e1 i _ _ H1 Hi).
    + by apply (Heh e2 i _ _ H2 Hi).
    + lia.
  - intros e' j n s [Hin| ->]%elem_of_snoc [Hji Hj]%Hrest.
    + by apply (Heh e' j).
    + destruct (Hhh i j _ _ _ _ Hi Hj) as [Heq Hlt].
      destruct (Hhh j i _ _ _ _ Hj Hi) as [_ Hgt].
      split; [|split]; [|done|done]. intros Hn. by destruct Hji; rewrite Heq.
  - intros j k n s n' s' [_ Hj]%Hrest [_ Hk]%Hrest. by apply (Hhh j k).
  - rewrite fmap_app. apply NoDup_app. split; [done|]. split; [|apply NoDup_singleton].
    intros n (e' & Hn & Hin)%list_elem_of_fmap Hsame.
    apply list_elem_of_singleton in Hsame. subst n.
    destruct (Heh e' i _ _ Hin Hi) as [Hne _]. by apply Hne.
Qed.

Context `{Platform} (verify_hash : bool) (pool : nat) (tasks : list task).
Hypothesis sizes : Forall (λ t, 0 ≤ fsize t) tasks.

Lemma insert_holds (ws : list worker) i w j n s :
  <[i:=w]> ws !! j = Some (Counted n s) →
  (j = i ∧ w = Counted n s) ∨ (j ≠ i ∧ ws !! j = Some (Counted n s)).
Proof.
  intros Hj. destruct (decide (j = i)) as [->|Hne].
  - left. split; [done|].
    apply list_lookup_insert_Some in Hj as [(_ & <- & _)|[? _]]; done.
  - right. split; [done|]. by rewrite list_lookup_insert_ne in Hj.
Qed.

Lemma step_snapshots_ok st a :
  snapshots_ok st → snapshots_ok (step verify_hash pool tasks st a).
Proof.
  unfold snapshots_ok. intros Hok.
  step_cases_of verify_hash pool tasks st a i t Hw; try exact Hok;
    try (eapply snaps_ok_fewer; [|exact Hok]; unfold holds; simpl;
         intros j n' s' [[_ [=]]|[_ Hj]]%insert_holds; exact Hj).
  - (* the lock *)
    eapply snaps_ok_lock; [| |exact Hok].
    + rewrite Forall_forall in sizes. apply sizes.
      by eapply list_elem_of_lookup_2.
    + unfold holds. simpl. intros j n' s' [[-> [= <- <-]]|[Hne Hj]]%insert_holds.
      * by left.
      * by right.
  - (* the emission *)
    eapply (snaps_ok_emit _ _ _ (holds st) _ i); [| |exact Hok].
    + exact Hw.
    + unfold holds. simpl. intros j n' s' [[_ [=]]|[Hne Hj]]%insert_holds. done.
Qed.

Lemma submitted_snapshots_ok p : snapshots_ok (submitted p).
Proof.
  unfold snapshots_ok, submitted, holds. simpl.
  split; [done|]. split; [by intros e ?%elem_of_nil|]. split.
  { intros i n s [[=] _]%lookup_replicate. }
  split; [by intros e1 e2 ?%elem_of_nil|]. split; [by intros e i n s ?%elem_of_nil|].
  split; [|constructor].
  intros i j n s n' s' [[=] _]%lookup_replicate.
Qed.

End snapshots.

Section serial.
Import BackupWorker.
Local Open Scope Z_scope.
Context `{Platform} (verify_hash : bool) (tasks : list task).
Hypothesis sizes : Forall (λ t, 0 ≤ fsize t) tasks.

Lemma running_insert (ws : list worker) i w w' :
  ws !! i = Some w →
  (running (<[i:=w']> ws) + (if is_running w then 1 else 0) =
   running ws + (if is_running w' then 1 else 0))%nat.
Proof. apply filter_length_insert. Qed.

(** Two tasks under way need two threads. *)
Lemma running_two (ws : list worker) i j w w' :
  ws !! i = Some w → ws !! j = Some w' → i ≠ j →
  is_running w = true → is_running w' = true → (2 ≤ running ws)%nat.
Proof.
  intros Hi Hj Hne Hw Hw'.
  pose proof (running_insert ws i w Queued Hi) as H1. rewrite Hw in H1. simpl in H1.
  assert (<[i:=Queued]> ws !! j = Some w') as Hj'
    by (by rewrite list_lookup_insert_ne).
  pose proof (running_insert _ j w' Queued Hj') as H2. rewrite Hw' in H2.
  simpl in H2. lia.
Qed.

Lemma monotone_progress_snoc evs e :
  monotone_progress evs →
  (∀ e', e' ∈ evs →
     files_processed e' ≤ files_processed e ∧ copied_so_far e' ≤ copied_so_far e) →
  monotone_progress (evs ++ [e]).
Proof.
  intros Hmono Hlast i j e1 e2 Hij H1 H2.
  apply lookup_app_Some in H1 as [H1|[Hi H1]];
    apply lookup_app_Some in H2 as [H2|[Hj H2]].
  - by apply (Hmono i j).
  - apply list_lookup_singleton_Some in H2 as [_ <-].
    apply Hlast. by eapply list_elem_of_lookup_2.
  - apply lookup_lt_Some in H2. lia.
  - apply list_lookup_singleton_Some in H1 as [_ <-].
    apply list_lookup_singleton_Some in H2 as [_ <-]. lia.
Qed.

Lemma step_serial_ok st a :
  serial_ok st → serial_ok (step verify_hash 1 tasks st a).
Proof.
  intros (Hrun & Hmono & Hev & Hheld).
  step_cases_of verify_hash 1%nat tasks st a i t Hw;
    unfold serial_ok; simpl;
    try (split; [done|split; [done|split; done]]);
    try (match goal with
         | |- context [<[?k:=?w]> (workers st)] =>
             pose proof (running_insert (workers st) k _ w Hw) as Hins
         end; simpl in Hins).
  - (* a queued task sees the flag *)
    split; [lia|]. split; [done|]. split; [done|].
    intros j n s [[_ [=]]|[_ Hj]]%insert_holds. by eapply Hheld.
  - (* a queued task starts *)
    apply bool_decide_eq_true in Hpool.
    split; [lia|]. split; [done|]. split; [done|].
    intros j n s [[_ [=]]|[_ Hj]]%insert_holds. by eapply Hheld.
  - (* the copy fails *)
    split; [lia|]. split; [done|]. split; [done|].
    intros j n s [[_ [=]]|[_ Hj]]%insert_holds. by eapply Hheld.
  - (* the copy goes through *)
    split; [lia|]. split; [done|]. split; [done|].
    intros j n s [[_ [=]]|[_ Hj]]%insert_holds. by eapply Hheld.
  - (* the lock *)
    assert (0 ≤ fsize t) as Hsize.
    { rewrite Forall_forall in sizes. apply sizes. by eapply list_elem_of_lookup_2. }
    split; [lia|]. split; [done|]. split.
    + intros e He. specialize (Hev e He). lia.
    + intros j n s [[_ [= <- <-]]|[Hne Hj]]%insert_holds; [done|].
      pose proof (running_two (workers st) i j _ _ Hw Hj ltac:(done) eq_refl eq_refl).
      lia.
  - (* the emission *)
    destruct (Hheld i _ _ Hw) as [-> ->].
    split; [lia|]. split; [|split].
    + apply monotone_progress_snoc; [done|]. intros e' He'. by apply Hev.
    + intros e [He| ->]%elem_of_snoc; [by apply Hev|done].
    + intros j n s [[_ [=]]|[_ Hj]]%insert_holds. by eapply Hheld.
Qed.

Lemma submitted_serial_ok p : serial_ok (submitted p).
Proof.
  unfold serial_ok, submitted. simpl. split; [|split; [|split]].
  - assert (running (replicate (length (plan p)) Queued) = 0%nat) as ->; [|lia].
    unfold running. induction (length (plan p)) as [|n IH]; [done|].
    simpl. rewrite filter_cons. simpl. exact IH.
  - intros i j e1 e2 _ He. by rewrite lookup_nil in He.
  - by intros e ?%elem_of_nil.
  - intros i n s [[=] _]%lookup_replicate.
Qed.

End serial.

(** C8, as amended.  In every run the progress events are snapshots of
    two counters that only grow: each event reports at least one file and
    no more files or bytes than the counters hold, no two events report the
    same number of files, and of two events the one that reports more files
    does not report fewer bytes.  When the pool has a single thread the
    events are moreover emitted in that order.  (With two threads or more,
    the default, they need not be: see [progress_events_can_go_back].) *)
Theorem progress_events_are_consistent_snapshots `{Platform} (fuel : nat)
    (fs0 : os.filesystem) (source_dir destination_root : string)
    (patterns : list string) (max_workers : option nat) (verify_hash : bool)
    (schedule : list BackupWorker.action) (st : BackupWorker.state) :
  BackupWorker.run fuel fs0 source_dir destination_root patterns max_workers
    verify_hash schedule = Some st →
  BackupWorker.consistent_progress (BackupWorker.events st) ∧
  (∀ e, e ∈ BackupWorker.events st →
     (1 ≤ BackupWorker.files_processed e ≤ BackupWorker.files_copied st)%Z ∧
     (BackupWorker.copied_so_far e ≤ BackupWorker.copied_size st)%Z) ∧
  (BackupWorker.pool_size max_workers = 1 →
   BackupWorker.monotone_progress (BackupWorker.events st)).
Proof.
  intros Hrun.
  destruct (BackupWorker.make_plan fuel fs0 source_dir destination_root patterns
              verify_hash) as [p|] eqn:Hp;
    [|unfold BackupWorker.run in Hrun; by rewrite Hp in Hrun].
  destruct (make_plan_ok _ _ _ _ _ _ _ Hp) as [_ Hsizes].
  destruct (run_started _ _ _ _ _ _ _ _ _ _ Hp Hrun) as [[_ ->]|[_ ->]].
  { simpl. split; [|split].
    - split; [constructor|]. by intros e1 e2 ?%elem_of_nil.
    - by intros e ?%elem_of_nil.
    - intros _ i j e1 e2 _ He. by rewrite lookup_nil in He. }
  split; [|split].
  - assert (BackupWorker.snapshots_ok (BackupWorker.exec verify_hash
              (BackupWorker.pool_size max_workers) (BackupWorker.plan p)
              (BackupWorker.submitted p) schedule))
      as (_ & _ & _ & Hee & _ & _ & Hnd).
    { apply exec_invariant; [|apply submitted_snapshots_ok].
      intros s a. by apply step_snapshots_ok. }
    by split.
  - assert (BackupWorker.snapshots_ok (BackupWorker.exec verify_hash
              (BackupWorker.pool_size max_workers) (BackupWorker.plan p)
              (BackupWorker.submitted p) schedule))
      as (_ & He & _).
    { apply exec_invariant; [|apply submitted_snapshots_ok].
      intros s a. by apply step_snapshots_ok. }
    exact He.
  - intros ->.
    assert (BackupWorker.serial_ok (BackupWorker.exec verify_hash 1 (BackupWorker.plan p)
              (BackupWorker.submitted p) schedule)) as (_ & Hmono & _).
    { apply exec_invariant; [|apply submitted_serial_ok].
      intros s a. by apply step_serial_ok. }
    exact Hmono.
Qed.

Lemma progress_events_are_consistent_snapshots_witness :
  ∃ st,
    BackupWorker.run (H := examples.sound_posix) 10 (examples.three_files ["src"])
      "." "/dst" ["*"] (Some 1) true (BackupWorker.sequential 3) = Some st ∧
    BackupWorker.terminal st = Some (3%Z, true, "Backup completed successfully.") ∧
    BackupWorker.consistent_progress (BackupWorker.events st) ∧
    (∀ e, e ∈ BackupWorker.events st →
       (1 ≤ BackupWorker.files_processed e ≤ BackupWorker.files_copied st)%Z ∧
       (BackupWorker.copied_so_far e ≤ BackupWorker.copied_size st)%Z) ∧
    (BackupWorker.pool_size (H := examples.sound_posix) (Some 1) = 1 →
     BackupWorker.monotone_progress (BackupWorker.events st)).
Proof.
  eexists. split; [vm_compute; reflexivity|]. split; [vm_compute; reflexivity|].
  eapply (progress_events_are_consistent_snapshots (H := examples.sound_posix) 10
            (examples.three_files ["src"]) "." "/dst" ["*"] (Some 1) true
            (BackupWorker.sequential 3)).
  vm_compute; reflexivity.
Defined.

(** C8 as stated fails.  Two pool threads copy [c.txt] and [b.txt]; the
    first reads the counters under the lock as (1, 100), the second then
    reads (2, 200) and emits before the first does.  The run ends with
    (3, True, "Backup completed successfully.") and the events
    (2, 200), (1, 100), (3, 300). *)
Lemma progress_events_can_go_back :
  ¬ (∀ st,
       BackupWorker.run (H := examples.sound_posix) 10 (examples.three_files ["src"])
         "." "/dst" ["*"] None true
         ((BackupWorker.Work <$> [0; 0; 0; 1; 1; 1; 1; 0; 2; 2; 2; 2]) ++
          (BackupWorker.Collect <$> [0; 1; 2]) ++ [BackupWorker.Finish]) = Some st →
       BackupWorker.monotone_progress (BackupWorker.events st)).
Proof.
  intros Hall.
  destruct (BackupWorker.run (H := examples.sound_posix) 10
              (examples.three_files ["src"]) "." "/dst" ["*"] None true _)
    as [st|] eqn:Hrun; [|by vm_compute in Hrun].
  specialize (Hall st eq_refl).
  assert (BackupWorker.events st =
          [BackupWorker.Build_progress_event 2 "b.txt" 100 200;
           BackupWorker.Build_progress_event 1 "c.txt" 100 100;
           BackupWorker.Build_progress_event 3 "a.txt" 100 300]) as Hev.
  { vm_compute in Hrun. inversion Hrun. reflexivity. }
  rewrite Hev in Hall.
  destruct (Hall 0%nat 1%nat _ _ ltac:(lia) eq_refl eq_refl) as [Hfiles _].
  simpl in Hfiles. lia.
Qed.

Example interleaved_run_result :
  (st ← BackupWorker.run (H := examples.sound_posix) 10 (examples.three_files ["src"])
          "." "/dst" ["*"] None true
          ((BackupWorker.Work <$> [0; 0; 0; 1; 1; 1; 1; 0; 2; 2; 2; 2]) ++
           (BackupWorker.Collect <$> [0; 1; 2]) ++ [BackupWorker.Finish]);
   Some (BackupWorker.terminal st,
         (λ e, (BackupWorker.files_processed e, BackupWorker.copied_so_far e))
           <$> BackupWorker.events st))
  = Some (Some (3%Z, true, "Backup completed successfully."),
          [(2%Z, 200%Z); (1%Z, 100%Z); (3%Z, 300%Z)]).
Proof. vm_compute. reflexivity. Qed.

(* ===================================================================== *)
(** ** [BackupWorker.run] on an absolute source directory *)
(* ===================================================================== *)

Section absolute_source.
Context `{Platform}.
Import BackupWorker.
Local Open Scope Z_scope.

Lemma join_absolute_r a b :
  posixpath.isabs b = true → posixpath.join a b = b.
Proof. unfold posixpath.join, posixpath.isabs. by intros ->. Qed.

Lemma join_absolute_l a b :
  posixpath.isabs a = true → posixpath.isabs (posixpath.join a b) = true.
Proof.
  unfold posixpath.join, posixpath.isabs. intros Ha.
  destruct (pystr.startswith_sep b) eqn:Hb; simpl; [done|].
  destruct a as [|c a]; [done|]. simpl.
  match goal with |- context [if ?x then _ else _] => destruct x end;
    rewrite app_cons_str; exact Ha.
Qed.

(** From an absolute base path the scan only yields absolute paths: the
    names in [files] are full paths, not names relative to [root]. *)
Lemma scan_step_absolute fs st :
  Forall (λ p, posixpath.isabs p = true) (stack st) →
  match scan_step fs st with
  | ScanStop => True
  | ScanSkip st' => Forall (λ p, posixpath.isabs p = true) (stack st')
  | ScanYield e st' =>
      Forall (λ p, posixpath.isabs p = true) (files e) ∧
      Forall (λ p, posixpath.isabs p = true) (stack st')
  end.
Proof.
  unfold scan_step. destruct st as [[|path stk] V]; simpl; [done|].
  intros [Hpath Hstk]%Forall_cons.
  destruct (decide (os.realpath fs path ∈ V)); [done|].
  destruct (os.scandir fs path) as [entries|e] eqn:Hs; [|done].
  apply scandir_Ok in Hs as (c & m & _ & _ & _ & ->).
  rewrite classify_spec. simpl.
  assert (∀ (P : os.DirEntry → Prop) `{∀ x, Decision (P x)} l,
            Forall (λ p, posixpath.isabs p = true)
              (os.entry_path <$> filter P
                 (map (λ ni : string * os.inode,
                         {| os.entry_name := ni.1;
                            os.entry_path := posixpath.join path ni.1;
                            os.entry_inode := ni.2 |}) l))) as Habs.
  { intros P HP l. apply Forall_forall.
    intros p (en & -> & Hen)%list_elem_of_fmap.
    apply list_elem_of_filter in Hen as [_ Hen].
    apply list_elem_of_fmap in Hen as (ni & -> & _). simpl.
    by apply join_absolute_l. }
  split; [apply Habs|]. apply Forall_app. split; [|done].
  apply Forall_forall. intros p Hp. rewrite elem_of_reverse in Hp. revert p Hp.
  apply Forall_forall, Habs.
Qed.

Lemma plan_file_onto_itself patterns root dst_folder st fname :
  posixpath.isabs fname = true →
  Forall onto_itself (plan st) →
  Forall onto_itself (plan (plan_file patterns root dst_folder st fname)).
Proof.
  intros Habs Hst. unfold plan_file. destruct (matches patterns fname); [|done].
  simpl. apply Forall_app. split; [done|]. constructor; [|constructor].
  unfold onto_itself. simpl. by rewrite !join_absolute_r.
Qed.

Lemma plan_files_onto_itself patterns root dst_folder (fnames : list string) st :
  Forall (λ p, posixpath.isabs p = true) fnames →
  Forall onto_itself (plan st) →
  Forall onto_itself (plan (foldl (plan_file patterns root dst_folder) st fnames)).
Proof.
  revert st. induction fnames as [|f l IH]; intros st Hf Hst; [done|].
  apply Forall_cons in Hf as [Hf Hl]. simpl.
  apply IH; [done|]. by apply plan_file_onto_itself.
Qed.

Lemma build_plan_onto_itself fuel source_dir destination_root patterns scan st p :
  Forall (λ p, posixpath.isabs p = true) (stack scan) →
  Forall onto_itself (plan st) →
  build_plan fuel source_dir destination_root patterns scan st = Some p →
  Forall onto_itself (plan p).
Proof.
  revert scan st. induction fuel as [|fuel IH]; intros scan st Hscan Hst; [done|].
  simpl. pose proof (scan_step_absolute (plan_fs st) scan Hscan) as Hstep.
  destruct (scan_step (plan_fs st) scan) as [|scan'|e scan'].
  - by intros [= <-].
  - by apply IH.
  - destruct Hstep as [Hfiles Hscan']. apply IH; [done|].
    unfold plan_dir. destruct (os.makedirs _ _) as [fs1 r].
    by apply plan_files_onto_itself.
Qed.

(** [shutil.copy2] of a path onto itself always raises. *)
Lemma copy2_onto_itself fs path : ∃ fs' e, shutil.copy2 fs path path = (fs', Some e).
Proof.
  unfold shutil.copy2, shutil.copyfile, os.isdir, os.samefile, os.read_file, os.stat.
  destruct (os.resolve fs path) as [c|e] eqn:Hr; simpl; [|by eauto].
  destruct (os.inodes fs !! c) as [[m d|m|t]|] eqn:Hi; simpl;
    try (rewrite Hr, bool_decide_eq_true_2 by done; by eauto).
  destruct (os.resolve fs (posixpath.join path (posixpath.basename path)))
    as [c'|e']; simpl; [destruct (bool_decide (c = c'))|];
    rewrite ?Hr; simpl; rewrite ?Hi; simpl; by eauto.
Qed.

Lemma copy_body_onto_itself verify_hash fs log t :
  onto_itself t → ∃ fs' log' err, copy_body verify_hash fs log t = (fs', log', Some err).
Proof.
  intros Ht. unfold copy_body. rewrite Ht.
  destruct (os.makedirs fs _) as [fs1 [e|]]; [by eauto|].
  destruct (copy2_onto_itself fs1 (src t)) as (fs2 & e & ->). by eauto.
Qed.

Lemma step_nothing_copied verify_hash pool tasks st a :
  Forall onto_itself tasks →
  nothing_copied st → nothing_copied (step verify_hash pool tasks st a).
Proof.
  intros Htasks (Hn & Hev & Hws).
  assert (∀ i w, (w = Queued ∨ w = Entered ∨ ∃ err, w = Returned false err) →
            ∀ j w', <[i:=w]> (workers st) !! j = Some w' →
              w' = Queued ∨ w' = Entered ∨ ∃ err, w' = Returned false err) as Hins.
  { intros i w Hw j w' Hj. destruct (decide (j = i)) as [->|Hne].
    - apply list_lookup_insert_Some in Hj as [(_ & <- & _)|[? _]]; done.
    - rewrite list_lookup_insert_ne in Hj by done. by eapply Hws. }
  step_cases_of verify_hash pool tasks st a i t Hw; unfold nothing_copied; simpl;
    try (split; [done|split; done]);
    try (split; [done|split; [done|]]; apply Hins; by eauto).
  - rewrite Forall_forall in Htasks.
    destruct (copy_body_onto_itself verify_hash (fs st) (log st) t) as (? & ? & ? & Hb).
    { apply Htasks. by eapply list_elem_of_lookup_2. }
    congruence.
  - destruct (Hws _ _ Hw) as [|[|[? ?]]]; done.
  - destruct (Hws _ _ Hw) as [|[|[? ?]]]; done.
Qed.

Lemma submitted_nothing_copied p : nothing_copied (submitted p).
Proof.
  split; [done|]. split; [done|]. simpl.
  intros i w [-> _]%lookup_replicate. by left.
Qed.

(** Whenever [source_dir] is an absolute path, every planned task copies a
    path onto itself, every copy raises, and the run, whatever its
    schedule, counts no file, emits no progress event and reports failure. *)
Lemma absolute_source_copies_nothing fuel fs0 source_dir destination_root patterns
    max_workers verify_hash schedule st :
  posixpath.isabs source_dir = true →
  run fuel fs0 source_dir destination_root patterns max_workers verify_hash schedule
    = Some st →
  files_copied st = 0 ∧ events st = [] ∧
  ∀ n ok msg, terminal st = Some (n, ok, msg) → n = 0 ∧ ok = false.
Proof.
  intros Habs Hrun.
  destruct (make_plan fuel fs0 source_dir destination_root patterns verify_hash)
    as [p|] eqn:Hp; [|unfold run in Hrun; by rewrite Hp in Hrun].
  assert (Forall onto_itself (plan p)) as Hsame.
  { eapply build_plan_onto_itself; [| |exact Hp]; simpl; [|constructor].
    by constructor. }
  destruct (run_started _ _ _ _ _ _ _ _ _ _ Hp Hrun) as [[_ ->]|[Hne Hst]].
  { simpl. split; [done|]. split; [done|]. by intros n ok msg [= <- <- _]. }
  set (pool := pool_size max_workers) in *.
  assert (nothing_copied st) as (Hn & Hev & Hws).
  { rewrite Hst. apply exec_invariant; [|apply submitted_nothing_copied].
    intros s a. by apply step_nothing_copied. }
  split; [done|]. split; [done|]. intros n ok msg Hterm.
  assert (terminal_ok st) as Hk.
  { rewrite Hst. apply exec_invariant; [apply step_terminal_ok|].
    apply submitted_terminal_ok. }
  assert (errors_ok st) as (_ & _ & _ & Hfin).
  { rewrite Hst. apply exec_errors_ok;
      [apply submitted_terminal_ok|apply submitted_errors_ok]. }
  destruct (Hk _ Hterm) as [Hall Hcount]. simpl in Hcount.
  split; [lia|].
  destruct (Hfin n ok msg Hterm) as [[-> _]|(-> & _ & Herr)]; [done|].
  assert (length (workers st) = length (plan p)) as Hlen.
  { rewrite Hst, exec_workers_length. simpl. apply length_replicate. }
  destruct (workers st) as [|w ws] eqn:Hwst.
  { destruct (plan p); [done|discriminate]. }
  destruct (Hws 0%nat w eq_refl) as [->|[->|[err ->]]]; try done.
  specialize (Herr 0%nat err eq_refl). by rewrite bool_decide_eq_false_2 by lia.
Qed.

End absolute_source.

(** C1 fails on the code.  Three files of 100 bytes under [/src], the
    patterns [["*"]], verification on, the tasks run one after the other:
    each planned task has its source as destination, each copy raises
    [SameFileError], and the run ends with
    [(0, False, "DONE. Files copied: 0; Errors: 3")] and no progress event. *)
Theorem backup_of_three_files_copies_none :
  (p ← BackupWorker.make_plan 10 (examples.three_files []) "/src" "/dst" ["*"] true;
   Some ((λ t, (BackupWorker.src t, BackupWorker.dst t, BackupWorker.fsize t))
           <$> BackupWorker.plan p))
  = Some [("/src/c.txt", "/src/c.txt", 100%Z); ("/src/b.txt", "/src/b.txt", 100%Z);
          ("/src/a.txt", "/src/a.txt", 100%Z)] ∧
  (st ← BackupWorker.run (H := examples.sound_posix) 10 (examples.three_files [])
          "/src" "/dst" ["*"] None true (BackupWorker.sequential 3);
   Some (BackupWorker.terminal st, BackupWorker.events st, BackupWorker.workers st))
  = Some (Some (0%Z, false, "DONE. Files copied: 0; Errors: 3"), [],
          [BackupWorker.Returned false
             (Some "'/src/c.txt' and '/src/c.txt' are the same file");
           BackupWorker.Returned false
             (Some "'/src/b.txt' and '/src/b.txt' are the same file");
           BackupWorker.Returned false
             (Some "'/src/a.txt' and '/src/a.txt' are the same file")]).
Proof. split; vm_compute; reflexivity. Qed.

(** The copy the claim describes does happen when the planned paths are
    right, as they are for the source directory ["."]. *)
Example backup_of_current_directory :
  (st ← BackupWorker.run (H := examples.sound_posix) 10 (examples.three_files ["src"])
          "." "/dst" ["*"] None true (BackupWorker.sequential 3);
   Some (BackupWorker.terminal st,
         BackupWorker.copied_so_far <$> last (BackupWorker.events st)))
  = Some (Some (3%Z, true, "Backup completed successfully."), Some 300%Z).
Proof. vm_compute. reflexivity. Qed.

(* ===================================================================== *)
(** ** [fast_scan]: the base path and the paths yielded *)
(* ===================================================================== *)

Lemma scan_all_unfold fuel fs st :
  scan_all (S fuel) fs st =
    match scan_step fs st with
    | ScanStop => Some []
    | ScanSkip st' => scan_all fuel fs st'
    | ScanYield e st' => cons e <$> scan_all fuel fs st'
    end.
Proof. reflexivity. Qed.

Lemma scan_step_init fs base_path :
  scan_step fs (scan_init base_path) =
    match os.scandir fs base_path with
    | os.Raise _ =>
        ScanSkip {| stack := []; visited := {[os.realpath fs base_path]} ∪ ∅ |}
    | os.Ok entries =>
        let '(dirs, files) := classify entries in
        ScanYield {| dir_path := base_path; subdirs := dirs; files := files |}
                  {| stack := reverse dirs ++ [];
                     visited := {[os.realpath fs base_path]} ∪ ∅ |}
    end.
Proof.
  unfold scan_step, scan_init. simpl.
  destruct (decide (os.realpath fs base_path ∈ (∅ : gset string))); [set_solver|done].
Qed.

(** X1.  [fast_scan] swallows the failure to list its base path: when
    [os.scandir(base_path)] raises (the path is missing, is not a directory,
    or is a directory the process may not read) the generator yields nothing
    and raises nothing.  When the listing succeeds, the first triple is the
    one of [base_path] itself, with every entry of the listing among its
    sub-directories or its files, and no later triple is for [base_path]. *)
Theorem fast_scan_base_path (fs : os.filesystem) (base_path : string) :
  (∀ err, os.scandir fs base_path = os.Raise err → fast_scan fs base_path = []) ∧
  (∀ entries, os.scandir fs base_path = os.Ok entries →
     ∃ rest,
       fast_scan fs base_path =
         {| dir_path := base_path; subdirs := (classify entries).1;
            files := (classify entries).2 |} :: rest ∧
       (∀ en, en ∈ entries →
          os.entry_path en ∈ (classify entries).1 ++ (classify entries).2) ∧
       ∀ e, e ∈ rest → dir_path e ≠ base_path).
Proof.
  pose proof (fast_scan_scan_all fs base_path) as Hs.
  destruct (scan_all_fresh _ _ _ _ Hs) as [Hnd _].
  unfold scan_bound in Hs. rewrite scan_all_unfold, scan_step_init in Hs.
  split.
  - intros err Herr. rewrite Herr in Hs. simpl in Hs. congruence.
  - intros entries Hok. rewrite Hok in Hs.
    destruct (classify entries) as [dirs fls] eqn:Hc.
    match type of Hs with context [scan_all ?f ?a ?b] =>
      destruct (scan_all f a b) as [rest|] eqn:Hrest; [|done] end.
    simpl in Hs. injection Hs as Hs. exists rest. split; [done|]. split.
    + intros en Hen. pose proof (classify_spec entries) as Hsp.
      rewrite Hc in Hsp. injection Hsp as -> ->. simpl. apply elem_of_app.
      destruct (os.is_dir_inode (os.entry_inode en)) eqn:Hd.
      * left. apply list_elem_of_fmap. exists en. split; [done|].
        apply list_elem_of_filter. by rewrite Hd.
      * right. apply list_elem_of_fmap. exists en. split; [done|].
        apply list_elem_of_filter. split; [|done]. rewrite Hd. simpl. tauto.
    + intros e He Heq. rewrite <- Hs in Hnd. rewrite fmap_cons in Hnd.
      apply NoDup_cons in Hnd as [Hnot _]. apply Hnot. simpl.
      apply list_elem_of_fmap. exists e. split; [|done]. simpl. by rewrite Heq.
Qed.

(** X2.  On a file system whose names are file names, the generator
    yields no path twice: the directory paths of the triples are pairwise
    different, no file path occurs twice in the [files] lists (within one
    triple or across triples), and a path yielded as a file is never the
    directory of a triple. *)
Theorem fast_scan_yields_each_path_once (fs : os.filesystem) (base_path : string) :
  os.valid_fs fs = true →
  NoDup (dir_path <$> fast_scan fs base_path) ∧
  NoDup (e ← fast_scan fs base_path; files e) ∧
  ∀ e e' f, e ∈ fast_scan fs base_path → e' ∈ fast_scan fs base_path →
            f ∈ files e → dir_path e' ≠ f.
Proof.
  intros Hv. pose proof (fast_scan_scan_all fs base_path) as Hs.
  destruct (scan_all_fresh _ _ _ _ Hs) as [Hnd _].
  assert (NoDup (dir_path <$> fast_scan fs base_path)) as Hnd'.
  { rewrite list_fmap_compose in Hnd. by apply NoDup_fmap_1 in Hnd. }
  split; [done|]. split; [by apply fast_scan_files_NoDup|].
  intros e e' f He He' Hf Heq.
  destruct (listing_names _ _ _ Hv He) as (nd & nf & Hsd & Hfl & Hvd & Hvf & _).
  rewrite Hfl in Hf. apply list_elem_of_fmap in Hf as (n & -> & Hn).
  rewrite Forall_forall in Hvf. specialize (Hvf _ Hn).
  pose proof (fast_scan_below _ _ _ Hv He) as Hbelow.
  apply list_elem_of_lookup in He' as [k Hk].
  apply take_drop_middle in Hk as Hsplit. symmetry in Hsplit.
  destruct (scan_all_origin _ _ _ _ _ _ _ Hs Hsplit) as [Hst|(e'' & He'' & Hd)].
  - simpl in Hst. apply list_elem_of_singleton in Hst.
    pose proof (length_join (dir_path e) n Hvf) as Hlen.
    rewrite <- Heq, Hst in Hlen.
    destruct Hbelow as [Hb|[Hb _]]; [rewrite Hb in Hlen|]; lia.
  - assert (e'' ∈ fast_scan fs base_path) as Hin.
    { rewrite Hsplit. apply elem_of_app. by left. }
    destruct (scan_all_listing _ _ _ _ _ Hs Hin) as (entries & Hscan & Hcl).
    apply scandir_Ok in Hscan as (c & m & Hr & _ & _ & ->).
    rewrite classify_spec in Hcl. injection Hcl as Hsd'' Hfl''.
    rewrite Hsd'' in Hd. rewrite Heq in Hd.
    apply list_elem_of_fmap in Hd as (en & Hen & Hend).
    apply list_elem_of_filter in Hend as [Hdir Hend].
    apply list_elem_of_fmap in Hend as ([n'' i''] & -> & Hch).
    simpl in Hen, Hdir.
    pose proof (children_valid _ _ _ _ Hv Hch) as Hv''.
    destruct (join_inj base_path _ _ _ _ Hbelow (fast_scan_below _ _ _ Hv Hin)
                Hvf Hv'' Hen) as [Hdp ->].
    assert (e = e'') as <- by by eapply (NoDup_fmap_eq dir_path).
    destruct (scan_all_listing _ _ _ _ _ Hs He) as (entries & Hscan & Hcl).
    apply scandir_Ok in Hscan as (c' & m' & Hr' & _ & _ & ->).
    rewrite classify_spec in Hcl. injection Hcl as _ Hfl'.
    assert (posixpath.join (dir_path e) n'' ∈ files e) as Hf.
    { rewrite Hfl. apply list_elem_of_fmap. by exists n''. }
    rewrite Hfl' in Hf.
    apply list_elem_of_fmap in Hf as (en' & Hen' & Hend').
    apply list_elem_of_filter in Hend' as [Hndir Hend'].
    apply list_elem_of_fmap in Hend' as ([n3 i3] & -> & Hch3).
    simpl in Hen', Hndir.
    pose proof (children_valid _ _ _ _ Hv Hch3) as Hv3.
    destruct (join_inj_name _ _ _ _ Hv'' Hv3 Hen') as [-> _].
    apply children_elem in Hch. apply children_elem in Hch3.
    rewrite Hr in Hr'. injection Hr' as <-. rewrite Hch in Hch3.
    injection Hch3 as <-. done.
Qed.

Lemma fast_scan_yields_each_path_once_witness :
  os.valid_fs examples.cyclic = true ∧
  (NoDup (dir_path <$> fast_scan examples.cyclic "/t") ∧
   NoDup (e ← fast_scan examples.cyclic "/t"; files e) ∧
   ∀ e e' f, e ∈ fast_scan examples.cyclic "/t" →
             e' ∈ fast_scan examples.cyclic "/t" →
             f ∈ files e → dir_path e' ≠ f).
Proof.
  split; [vm_compute; reflexivity|].
  apply (fast_scan_yields_each_path_once examples.cyclic "/t").
  vm_compute; reflexivity.
Defined.

(** X3.  What [fast_scan] puts in [subdirs] and [files] are full paths,
    not names: each is [os.path.join(dir_path, name)] for the name of an
    entry of that directory, so it is strictly longer than the directory
    path and its [basename] is the name; and every directory path is the
    base path or a longer path reached from it. *)
Theorem fast_scan_yields_full_paths (fs : os.filesystem) (base_path : string)
    (e : TraversalEntry) (p : string) :
  os.valid_fs fs = true → e ∈ fast_scan fs base_path → p ∈ subdirs e ++ files e →
  below base_path (dir_path e) ∧
  ∃ name,
    pystr.valid_name name = true ∧
    p = posixpath.join (dir_path e) name ∧
    posixpath.basename p = name ∧
    String.length (dir_path e) < String.length p ∧
    (posixpath.isabs (dir_path e) = true → posixpath.isabs p = true).
Proof.
  intros Hv He Hp. split; [by eapply fast_scan_below|].
  destruct (listing_names _ _ _ Hv He) as (nd & nf & Hsd & Hfl & Hvd & Hvf & _).
  rewrite Forall_forall in Hvd. rewrite Forall_forall in Hvf.
  assert (∃ name, pystr.valid_name name = true ∧ p = posixpath.join (dir_path e) name)
    as (name & Hname & ->).
  { apply elem_of_app in Hp as [Hp|Hp]; [rewrite Hsd in Hp|rewrite Hfl in Hp];
      apply list_elem_of_fmap in Hp as (n & -> & Hn); exists n; split; auto. }
  exists name. split; [done|]. split; [done|]. split; [by apply basename_join|].
  split; [by apply length_join|]. apply join_absolute_l.
Qed.

Lemma fast_scan_yields_full_paths_witness :
  os.valid_fs examples.cyclic = true ∧
  {| dir_path := "/t/a"; subdirs := [];
     files := ["/t/a/f.txt"; "/t/a/loop"] |} ∈ fast_scan examples.cyclic "/t" ∧
  "/t/a/loop" ∈ [] ++ ["/t/a/f.txt"; "/t/a/loop"] ∧
  below "/t" "/t/a" ∧
  ∃ name,
    pystr.valid_name name = true ∧
    "/t/a/loop" = posixpath.join "/t/a" name ∧
    posixpath.basename "/t/a/loop" = name ∧
    String.length "/t/a" < String.length "/t/a/loop" ∧
    (posixpath.isabs "/t/a" = true → posixpath.isabs "/t/a/loop" = true).
Proof.
  assert (os.valid_fs examples.cyclic = true) as Hv by (vm_compute; reflexivity).
  assert ({| dir_path := "/t/a"; subdirs := [];
             files := ["/t/a/f.txt"; "/t/a/loop"] |} ∈ fast_scan examples.cyclic "/t")
    as He.
  { apply (list_elem_of_lookup_2 _ 1). vm_compute; reflexivity. }
  assert ("/t/a/loop" ∈ [] ++ ["/t/a/f.txt"; "/t/a/loop"]) as Hp
    by (apply (list_elem_of_lookup_2 _ 1); reflexivity).
  split; [exact Hv|]. split; [exact He|]. split; [exact Hp|].
  exact (fast_scan_yields_full_paths examples.cyclic "/t" _ "/t/a/loop" Hv He Hp).
Defined.

(* ===================================================================== *)
(** ** [PermissionUpdateWorker.run]: progress, cancellation, what is changed *)
(* ===================================================================== *)

Section permission_progress.
Context `{Platform}.
Import PermissionUpdateWorker.

(** The signals of the loop from item number [processed] on. *)
Lemma set_each_progress items processed total cancel_after fs log pr :
  let n := match cancel_after with
           | Some k => k - processed
           | None => length items
           end in
  ∃ fs' log',
    set_each items processed total cancel_after fs log pr =
      (fs', log',
       pr ++ imap (λ i path, (S (processed + i), total, path)) (take n items),
       if bool_decide (n < length items) then Some (false, cancelled_message)
       else None).
Proof.
  revert processed fs log pr.
  induction items as [|path items IH]; intros processed fs log pr n.
  { exists fs, log. simpl. rewrite take_nil. simpl. by rewrite app_nil_r. }
  simpl. unfold cancel_seen. destruct cancel_after as [k|].
  - destruct (bool_decide (k ≤ processed)) eqn:Hk.
    + apply bool_decide_eq_true in Hk. exists fs, log.
      replace n with 0 by (subst n; lia). simpl. by rewrite app_nil_r.
    + apply bool_decide_eq_false in Hk.
      destruct (_set_perms_posix fs log path (os.isdir fs path)) as [fs1 log1].
      destruct (IH (S processed) fs1 log1 (pr ++ [(S processed, total, path)]))
        as (fs' & log' & ->).
      exists fs', log'. subst n.
      replace (k - processed) with (S (k - S processed)) by lia. simpl.
      rewrite <- app_assoc. simpl. rewrite Nat.add_0_r.
      f_equal; [f_equal; f_equal; f_equal; apply imap_ext; intros; simpl;
                f_equal; f_equal; lia|].
      repeat case_bool_decide; first [done|lia].
  - destruct (_set_perms_posix fs log path (os.isdir fs path)) as [fs1 log1].
    destruct (IH (S processed) fs1 log1 (pr ++ [(S processed, total, path)]))
      as (fs' & log' & ->).
    exists fs', log'. subst n. simpl.
    rewrite <- app_assoc. simpl. rewrite Nat.add_0_r.
    f_equal; [f_equal; f_equal; f_equal; apply imap_ext; intros; simpl;
              f_equal; f_equal; lia|].
    repeat case_bool_decide; first [done|lia].
Qed.

Lemma count_through_progress items processed total cancel_after pr :
  let n := match cancel_after with
           | Some k => k - processed
           | None => length items
           end in
  count_through items processed total cancel_after pr =
    (pr ++ imap (λ i path, (S (processed + i), total, path)) (take n items),
     if bool_decide (n < length items) then Some (false, cancelled_message)
     else None).
Proof.
  revert processed pr.
  induction items as [|path items IH]; intros processed pr n.
  { simpl. rewrite take_nil. simpl. by rewrite app_nil_r. }
  simpl. unfold cancel_seen. destruct cancel_after as [k|].
  - destruct (bool_decide (k ≤ processed)) eqn:Hk.
    + apply bool_decide_eq_true in Hk.
      replace n with 0 by (subst n; lia). simpl. by rewrite app_nil_r.
    + apply bool_decide_eq_false in Hk.
      rewrite (IH (S processed) (pr ++ [(S processed, total, path)])).
      subst n.
      replace (k - processed) with (S (k - S processed)) by lia. simpl.
      rewrite <- app_assoc. simpl. rewrite Nat.add_0_r.
      f_equal; [f_equal; f_equal; apply imap_ext; intros; simpl;
                f_equal; f_equal; lia|].
      repeat case_bool_decide; first [done|lia].
  - rewrite (IH (S processed) (pr ++ [(S processed, total, path)])).
    subst n. simpl.
    rewrite <- app_assoc. simpl. rewrite Nat.add_0_r.
    f_equal; [f_equal; f_equal; apply imap_ext; intros; simpl;
              f_equal; f_equal; lia|].
    repeat case_bool_decide; first [done|lia].
Qed.

(** The signals of a whole run. *)
Lemma run_signals fs root_paths cancel_after :
  let items := enumerate fs root_paths in
  let n := match cancel_after with
           | Some k => k
           | None => length items
           end in
  progress (run fs root_paths cancel_after) =
    imap (λ i path, (S i, length items, path)) (take n items) ∧
  finished (run fs root_paths cancel_after) =
    if bool_decide (n < length items) then (false, cancelled_message)
    else done_message root_paths.
Proof.
  intros items n. unfold run. fold items. destruct is_windows.
  - destruct (foldl _ _ root_paths) as [fs1 log1].
    rewrite count_through_progress. simpl.
    replace (match cancel_after with Some k => k - 0 | None => length items end)
      with n by (subst n; destruct cancel_after; lia).
    split; [done|]. by destruct (bool_decide (n < length items)).
  - destruct (set_each_progress items 0 (length items) cancel_after fs [] [])
      as (fs' & log' & ->). simpl.
    replace (match cancel_after with Some k => k - 0 | None => length items end)
      with n by (subst n; destruct cancel_after; lia).
    split; [done|]. by destruct (bool_decide (n < length items)).
Qed.

End permission_progress.

(** X4.  A run that is not cancelled emits one [progress] signal for every
    item of the enumeration (each yielded directory followed by its files),
    in that order, numbered 1, 2, ... with the number of items as the
    total — whether or not [chmod] failed on the item — and then emits
    [finished(True, "Permissions updated for N top-level path(s).")]. *)
Theorem run_reports_every_item `{Platform} (fs : os.filesystem)
    (root_paths : list string) :
  let items := PermissionUpdateWorker.enumerate fs root_paths in
  let o := PermissionUpdateWorker.run fs root_paths None in
  PermissionUpdateWorker.progress o =
    imap (λ i path, (S i, length items, path)) items ∧
  PermissionUpdateWorker.finished o =
    (true, "Permissions updated for " +:+ pretty (length root_paths)
           +:+ " top-level path(s).").
Proof.
  intros items o.
  destruct (run_signals fs root_paths None) as [Hp Hf]. fold items in Hp, Hf.
  subst o. rewrite Hp, Hf, firstn_all.
  by rewrite bool_decide_eq_false_2 by lia.
Qed.

(** X5.  A [cancel()] that the loop sees once [k] items are done, with
    items still left, stops the run there: exactly the first [k] items have
    been reported, and [finished(False, "Permission update cancelled.")] is
    emitted.  A [cancel()] that comes when no item is left is never looked
    at: the run is the run nobody cancelled, and reports success. *)
Theorem run_cancelled_between_items `{Platform} (fs : os.filesystem)
    (root_paths : list string) (k : nat) :
  let items := PermissionUpdateWorker.enumerate fs root_paths in
  let o := PermissionUpdateWorker.run fs root_paths (Some k) in
  (k < length items →
     PermissionUpdateWorker.progress o =
       imap (λ i path, (S i, length items, path)) (take k items) ∧
     length (PermissionUpdateWorker.progress o) = k ∧
     PermissionUpdateWorker.finished o = (false, "Permission update cancelled.")) ∧
  (length items ≤ k →
     PermissionUpdateWorker.progress o =
       PermissionUpdateWorker.progress (PermissionUpdateWorker.run fs root_paths None) ∧
     PermissionUpdateWorker.finished o =
       (true, "Permissions updated for " +:+ pretty (length root_paths)
              +:+ " top-level path(s).")).
Proof.
  intros items o.
  destruct (run_signals fs root_paths (Some k)) as [Hp Hf].
  destruct (run_signals fs root_paths None) as [Hp' _].
  fold items in Hp, Hf, Hp'. subst o. split; intros Hk.
  - rewrite Hp, Hf. split; [done|]. split.
    + rewrite length_imap, length_take. lia.
    + by rewrite bool_decide_eq_true_2 by lia.
  - rewrite Hp, Hf, Hp', firstn_all, take_ge by lia. split; [done|].
    by rewrite bool_decide_eq_false_2 by lia.
Qed.


(* ===================================================================== *)
(** ** [BackupWorker.run]: what every run satisfies *)
(* ===================================================================== *)

(** X7.  [os.path.join(root, fname)] is applied to the full paths that
    [fast_scan] yields, so with an absolute [source_dir] every planned task
    has its source as destination; every copy then raises, and the run,
    whatever its schedule, pool size, patterns and verification setting,
    counts no file, emits no progress event and never reports success. *)
Theorem backup_from_absolute_source_copies_nothing `{Platform} (fuel : nat)
    (fs0 : os.filesystem) (source_dir destination_root : string)
    (patterns : list string) (max_workers : option nat) (verify_hash : bool)
    (schedule : list BackupWorker.action)
    (p : BackupWorker.planning) (st : BackupWorker.state) :
  posixpath.isabs source_dir = true →
  BackupWorker.make_plan fuel fs0 source_dir destination_root patterns verify_hash
    = Some p →
  BackupWorker.run fuel fs0 source_dir destination_root patterns max_workers
    verify_hash schedule = Some st →
  Forall (λ t, BackupWorker.dst t = BackupWorker.src t) (BackupWorker.plan p) ∧
  BackupWorker.files_copied st = 0%Z ∧
  BackupWorker.events st = [] ∧
  ∀ n ok msg, BackupWorker.terminal st = Some (n, ok, msg) → n = 0%Z ∧ ok = false.
Proof.
  intros Habs Hp Hrun. split.
  - eapply build_plan_onto_itself; [| |exact Hp]; simpl; [|constructor].
    by constructor.
  - by eapply absolute_source_copies_nothing.
Qed.

Lemma backup_from_absolute_source_copies_nothing_witness :
  ∃ p st,
    posixpath.isabs "/src" = true ∧
    BackupWorker.make_plan 10 (examples.three_files []) "/src" "/dst" ["*"] true
      = Some p ∧
    BackupWorker.run (H := examples.sound_posix) 10 (examples.three_files [])
      "/src" "/dst" ["*"] None true (BackupWorker.sequential 3) = Some st ∧
    length (BackupWorker.plan p) = 3 ∧
    BackupWorker.terminal st = Some (0%Z, false, "DONE. Files copied: 0; Errors: 3") ∧
    (Forall (λ t, BackupWorker.dst t = BackupWorker.src t) (BackupWorker.plan p) ∧
     BackupWorker.files_copied st = 0%Z ∧
     BackupWorker.events st = [] ∧
     ∀ n ok msg, BackupWorker.terminal st = Some (n, ok, msg) → n = 0%Z ∧ ok = false).
Proof.
  set (D := BackupWorker.Build_planning (examples.three_files []) [] [] 0 0).
  assert (BackupWorker.make_plan 10 (examples.three_files []) "/src" "/dst" ["*"] true
          = Some (default D (BackupWorker.make_plan 10 (examples.three_files [])
                               "/src" "/dst" ["*"] true))) as Hp
    by (vm_compute; reflexivity).
  assert (BackupWorker.terminal <$>
            BackupWorker.run (H := examples.sound_posix) 10 (examples.three_files [])
              "/src" "/dst" ["*"] None true (BackupWorker.sequential 3)
          = Some (Some (0%Z, false, "DONE. Files copied: 0; Errors: 3"))) as Ht
    by (vm_compute; reflexivity).
  destruct (BackupWorker.run (H := examples.sound_posix) 10 (examples.three_files [])
              "/src" "/dst" ["*"] None true (BackupWorker.sequential 3))
    as [st|] eqn:Hrun; [|discriminate Ht].
  eexists _, st. split; [reflexivity|]. split; [exact Hp|]. split; [reflexivity|].
  split; [vm_compute; reflexivity|].
  split; [by injection Ht|].
  exact (backup_from_absolute_source_copies_nothing (H := examples.sound_posix)
           10 (examples.three_files []) "/src" "/dst" ["*"] None true
           (BackupWorker.sequential 3) _ st eq_refl Hp Hrun).
Defined.

(* --------------------------------------------------------------------- *)
(** *** The tally of an uncancelled run *)

Section tally.
Context `{Platform} (verify_hash : bool) (pool : nat) (tasks : list BackupWorker.task).
Import BackupWorker.
Local Open Scope Z_scope.

Lemma failed_at_insert_ne (ws : list worker) i j w :
  i ≠ j → failed_at (<[i:=w]> ws) j = failed_at ws j.
Proof. intros Hne. unfold failed_at. by rewrite list_lookup_insert_ne. Qed.

Lemma filter_failed_insert (ws : list worker) i w (l : list nat) :
  i ∉ l →
  filter (λ j, failed_at (<[i:=w]> ws) j) l = filter (λ j, failed_at ws j) l.
Proof.
  induction l as [|x l IH]; [done|]. intros [Hx Hl]%not_elem_of_cons.
  rewrite !filter_cons, IH by done. by rewrite failed_at_insert_ne.
Qed.

(** What a step of a pool thread leaves alone. *)
Lemma work_frame st i :
  let st' := work verify_hash pool tasks i st in
  errors st' = errors st ∧ collected st' = collected st ∧
  left_loop st' = left_loop st ∧ cancelled st' = cancelled st ∧
  terminal st' = terminal st ∧
  (workers st' = workers st ∨
   ∃ w w', workers st !! i = Some w ∧ is_returned w = false ∧
           workers st' = <[i:=w']> (workers st)).
Proof.
  unfold work. destruct (tasks !! i) as [t|]; [|by auto 10].
  destruct (workers st !! i) as [[| | |n size|ok err]|] eqn:Hw; simpl;
    try by auto 10.
  - destruct (bool_decide (running (workers st) < pool)%nat); [|by auto 10].
    destruct (cancelled st) eqn:Hflag; simpl; rewrite ?Hflag;
      do 5 (split; [done|]); right; by eauto.
  - destruct (copy_body _ _ _ _) as [[fs' log'] [err|]]; simpl;
      do 5 (split; [done|]); right; by eauto.
  - do 5 (split; [done|]); right; by eauto.
  - do 5 (split; [done|]); right; by eauto.
Qed.

Lemma step_tally_ok st a :
  errors_ok st → tally_ok st → tally_ok (step verify_hash pool tasks st a).
Proof.
  intros (Hpos & Hcol & Hrun & Hfin) (Hnd & Hcount & Hverdict).
  destruct a as [|i|i|]; simpl.
  - (* cancel *)
    unfold cancel, tally_ok. simpl. split; [done|]. split; [done|]. by left.
  - (* work *)
    destruct (work_frame st i) as (He & Hc & Hl & Hf & Ht & Hws).
    unfold tally_ok. rewrite He, Hc, Hf, Ht.
    assert (all_collected (work verify_hash pool tasks i st) = all_collected st)
      as Hall.
    { unfold all_collected. rewrite Hc.
      pose proof (step_workers_length verify_hash pool tasks st (Work i)) as Hlen.
      simpl in Hlen. by rewrite Hlen. }
    rewrite Hall. split; [done|]. split; [|done].
    intros Hflag. rewrite (Hcount Hflag).
    destruct Hws as [->|(w & w' & Hw & Hnot & ->)]; [done|].
    rewrite filter_failed_insert; [done|].
    intros Hi. destruct (Hcol i Hi) as (ok & err & Hw'). rewrite Hw in Hw'.
    by inversion Hw'; subst.
  - (* collect *)
    unfold collect. destruct (workers st !! i) as [[| | |n size|ok err]|] eqn:Hw;
      try done.
    destruct (left_loop st || bool_decide (i ∈ collected st)
              || bool_decide (is_Some (terminal st))) eqn:Hguard; [done|].
    apply orb_false_iff in Hguard as [Hguard Hnoterm].
    apply orb_false_iff in Hguard as [Hloop Hnew].
    apply bool_decide_eq_false in Hnoterm. apply bool_decide_eq_false in Hnew.
    unfold tally_ok. simpl. split; [by constructor|]. split.
    + intros Hflag. rewrite Hflag.
      assert (failed_at (workers st) i = negb ok) as Hfa
        by (unfold failed_at; rewrite Hw; by destruct ok).
      rewrite filter_cons.
      destruct (decide (failed_at (workers st) i)) as [Hd|Hd];
        rewrite Hfa in Hd; destruct ok; simpl in Hd; try done;
        simpl; rewrite (Hcount Hflag); lia.
    + intros n' ok' msg Hterm. destruct Hnoterm. by rewrite Hterm.
  - (* finish *)
    unfold finish.
    destruct (bool_decide (is_Some (terminal st))) eqn:Hterm; [done|].
    destruct (forallb is_returned (workers st)) eqn:Hret; simpl; [|done].
    destruct (left_loop st || all_collected st) eqn:Hloop; simpl; [|done].
    destruct (cancelled st) eqn:Hflag; unfold tally_ok; simpl.
    + split; [done|]. split; [done|]. by left.
    + split; [done|]. split; [exact Hcount|].
      intros n ok msg [= <- <- <-]. right.
      destruct (Hrun eq_refl) as [Hl _]. rewrite Hl in Hloop. simpl in Hloop.
      unfold all_collected in *. simpl. by rewrite Hloop.
Qed.

Lemma submitted_tally_ok p : tally_ok (submitted p).
Proof. split; [constructor|]. split; [done|]. by intros n ok msg Hterm. Qed.

Lemma exec_tally_ok s st :
  terminal_ok st → errors_ok st → tally_ok st →
  tally_ok (exec verify_hash pool tasks st s).
Proof.
  revert st. induction s as [|a s IH]; intros st Hk He Ht; [done|].
  simpl. apply IH;
    [by apply step_terminal_ok|by apply step_errors_ok|by apply step_tally_ok].
Qed.

Lemma failed_seq_from (pre ws : list worker) :
  length (filter (λ i, failed_at (pre ++ ws) i) (seq (length pre) (length ws))) =
  length (filter returned_failed ws).
Proof.
  revert pre. induction ws as [|w ws IH]; intros pre; [done|].
  simpl. rewrite !filter_cons.
  assert (failed_at (pre ++ w :: ws) (length pre) = returned_failed w) as Hw.
  { unfold failed_at. by rewrite list_lookup_middle. }
  specialize (IH (pre ++ [w])). rewrite <- app_assoc, length_app in IH.
  simpl in IH. rewrite Nat.add_1_r in IH.
  destruct (decide (failed_at (pre ++ w :: ws) (length pre))) as [Hd|Hd];
    rewrite Hw in Hd; destruct (decide (returned_failed w)); try done;
    simpl; by rewrite IH.
Qed.

Lemma failed_seq (ws : list worker) :
  length (filter (λ i, failed_at ws i) (seq 0 (length ws))) =
  length (filter returned_failed ws).
Proof. apply (failed_seq_from [] ws). Qed.

(** When every future has been received with the flag clear, [errors] is
    the number of tasks that returned [False]. *)
Lemma tally_all st :
  errors_ok st → tally_ok st → cancelled st = false → all_collected st = true →
  errors st = Z.of_nat (length (filter returned_failed (workers st))).
Proof.
  intros (_ & Hcol & _ & _) (Hnd & Hcount & _) Hflag Hall.
  rewrite (Hcount Hflag), <- failed_seq. apply (f_equal Z.of_nat).
  assert (collected st ≡ₚ seq 0 (length (workers st))) as Hperm.
  { apply NoDup_Permutation; [done|apply NoDup_seq|].
    intros i. rewrite elem_of_seq. split.
    - intros Hi. destruct (Hcol i Hi) as (ok & err & Hw).
      apply lookup_lt_Some in Hw. lia.
    - intros [_ Hi]. apply all_collected_elem; [done|]. simpl in Hi. lia. }
  apply Permutation_length. by rewrite Hperm.
Qed.

Lemma all_returned_counts (ws : list worker) :
  forallb is_returned ws = true →
  (length (filter counted ws) = succeeded ws ∧
   length (filter counted ws) + length (filter returned_failed ws) = length ws)%nat.
Proof.
  unfold succeeded. induction ws as [|w ws IH]; [done|]. simpl.
  intros [Hw Hws]%andb_true_iff. destruct (IH Hws) as [IH1 IH2].
  rewrite !filter_cons. destruct w as [| | | |[] ?]; try done; simpl; lia.
Qed.

End tally.

(** X8.  A run that nobody cancels accounts for every planned task: when
    it emits [finished(n, ok, msg)], [n] is the number of tasks that
    returned [True], every other task has been counted as an error, so that
    the errors are the planned files less [n]; [ok] holds exactly when all
    planned files were copied, with the message "Backup completed
    successfully.", and otherwise the message is
    "DONE. Files copied: n; Errors: (total - n)". *)
Theorem uncancelled_run_accounts_for_every_task `{Platform} (fuel : nat)
    (fs0 : os.filesystem) (source_dir destination_root : string)
    (patterns : list string) (max_workers : option nat) (verify_hash : bool)
    (schedule : list BackupWorker.action)
    (p : BackupWorker.planning) (st : BackupWorker.state)
    (n : Z) (ok : bool) (msg : string) :
  BackupWorker.make_plan fuel fs0 source_dir destination_root patterns verify_hash
    = Some p →
  BackupWorker.plan p ≠ [] →
  BackupWorker.run fuel fs0 source_dir destination_root patterns max_workers
    verify_hash schedule = Some st →
  BackupWorker.cancelled st = false →
  BackupWorker.terminal st = Some (n, ok, msg) →
  n = Z.of_nat (BackupWorker.succeeded (BackupWorker.workers st)) ∧
  BackupWorker.errors st = (BackupWorker.total_files p - n)%Z ∧
  (0 ≤ n ≤ BackupWorker.total_files p)%Z ∧
  ok = bool_decide (n = BackupWorker.total_files p) ∧
  msg = if ok then "Backup completed successfully."
        else "DONE. Files copied: " +:+ pretty n +:+ "; Errors: "
             +:+ pretty (BackupWorker.total_files p - n)%Z.
Proof.
  intros Hp Hne Hrun Hflag Hterm.
  destruct (make_plan_ok _ _ _ _ _ _ _ Hp) as [Htotal _].
  destruct (run_started _ _ _ _ _ _ _ _ _ _ Hp Hrun) as [[He _]|[_ Hst]]; [done|].
  set (pool := BackupWorker.pool_size max_workers) in *.
  assert (BackupWorker.terminal_ok st) as Hk.
  { rewrite Hst. apply exec_invariant; [apply step_terminal_ok|].
    apply submitted_terminal_ok. }
  assert (BackupWorker.errors_ok st) as Herr.
  { rewrite Hst. apply exec_errors_ok;
      [apply submitted_terminal_ok|apply submitted_errors_ok]. }
  assert (BackupWorker.tally_ok st) as Htally.
  { rewrite Hst. apply exec_tally_ok;
      [apply submitted_terminal_ok|apply submitted_errors_ok
      |apply submitted_tally_ok]. }
  assert (BackupWorker.counters_ok st) as Hcnt.
  { rewrite Hst. apply exec_invariant; [apply step_counters_ok|].
    apply submitted_counters_ok. }
  assert (length (BackupWorker.workers st) = length (BackupWorker.plan p)) as Hlen.
  { rewrite Hst, exec_workers_length. simpl. apply length_replicate. }
  destruct (Hk _ Hterm) as [Hall Hn]. simpl in Hn.
  destruct (all_returned_counts _ Hall) as [Hsucc Hsum].
  destruct Htally as (Hnd & Hcount & Hverdict).
  destruct (Hverdict n ok msg Hterm) as [Hc|(Hcoll & Hok & Hmsg)]; [congruence|].
  pose proof (tally_all st Herr (conj Hnd (conj Hcount Hverdict)) Hflag Hcoll)
    as Herrors.
  unfold BackupWorker.counters_ok in Hcnt.
  assert (n = Z.of_nat (BackupWorker.succeeded (BackupWorker.workers st))) as Hn'
    by (rewrite Hn, Hcnt; by f_equal).
  assert (BackupWorker.errors st = (BackupWorker.total_files p - n)%Z) as Hdiff
    by lia.
  split; [done|]. split; [done|]. split; [lia|].
  assert (bool_decide (BackupWorker.errors st = 0%Z)
          = bool_decide (n = BackupWorker.total_files p)) as Hbd
    by (apply bool_decide_ext; lia).
  rewrite Hbd in Hok, Hmsg. split; [done|]. rewrite Hmsg, Hok.
  destruct (bool_decide (n = BackupWorker.total_files p)); [done|].
  unfold BackupWorker.summary. by rewrite Hdiff.
Qed.

Lemma uncancelled_run_accounts_for_every_task_witness :
  ∃ p st,
    BackupWorker.make_plan 10 (examples.three_files ["src"]) "." "/dst" ["*"] true
      = Some p ∧
    BackupWorker.plan p ≠ [] ∧
    BackupWorker.run (H := examples.lossy_posix) 10 (examples.three_files ["src"])
      "." "/dst" ["*"] None true (BackupWorker.sequential 3) = Some st ∧
    BackupWorker.cancelled st = false ∧
    BackupWorker.terminal st = Some (0%Z, false, "DONE. Files copied: 0; Errors: 3") ∧
    BackupWorker.total_files p = 3%Z ∧
    (0%Z = Z.of_nat (BackupWorker.succeeded (BackupWorker.workers st)) ∧
     BackupWorker.errors st = (BackupWorker.total_files p - 0)%Z ∧
     (0 ≤ 0 ≤ BackupWorker.total_files p)%Z ∧
     false = bool_decide (0%Z = BackupWorker.total_files p) ∧
     "DONE. Files copied: 0; Errors: 3" =
       if false then "Backup completed successfully."
       else "DONE. Files copied: " +:+ pretty 0%Z +:+ "; Errors: "
            +:+ pretty (BackupWorker.total_files p - 0)%Z).
Proof.
  set (D := BackupWorker.Build_planning (examples.three_files []) [] [] 0 0).
  assert (BackupWorker.make_plan 10 (examples.three_files ["src"]) "." "/dst" ["*"] true
          = Some (default D (BackupWorker.make_plan 10 (examples.three_files ["src"])
                               "." "/dst" ["*"] true))) as Hp
    by (vm_compute; reflexivity).
  assert ((λ st, (BackupWorker.cancelled st, BackupWorker.terminal st)) <$>
            BackupWorker.run (H := examples.lossy_posix) 10
              (examples.three_files ["src"])
              "." "/dst" ["*"] None true (BackupWorker.sequential 3)
          = Some (false, Some (0%Z, false, "DONE. Files copied: 0; Errors: 3"))) as Ht
    by (vm_compute; reflexivity).
  destruct (BackupWorker.run (H := examples.lossy_posix) 10
              (examples.three_files ["src"])
              "." "/dst" ["*"] None true (BackupWorker.sequential 3))
    as [st|] eqn:Hrun; [|discriminate Ht].
  injection Ht as Hc Ht.
  assert (BackupWorker.plan
            (default D (BackupWorker.make_plan 10 (examples.three_files ["src"])
                          "." "/dst" ["*"] true)) ≠ []) as Hne
    by (vm_compute; discriminate).
  eexists _, st. split; [exact Hp|]. split; [exact Hne|]. split; [reflexivity|].
  split; [exact Hc|]. split; [exact Ht|]. split; [vm_compute; reflexivity|].
  exact (uncancelled_run_accounts_for_every_task (H := examples.lossy_posix)
           10 (examples.three_files ["src"]) "." "/dst" ["*"] None true
           (BackupWorker.sequential 3) _ st 0%Z false _ Hp Hne Hrun Hc Ht).
Defined.

(* --------------------------------------------------------------------- *)
(** *** The byte counter *)

Section bytes.
Context `{Platform} (verify_hash : bool) (pool : nat) (tasks : list BackupWorker.task).
Import BackupWorker.
Local Open Scope Z_scope.

Lemma plan_size_snoc (l : list task) t : plan_size (l ++ [t]) = plan_size l + fsize t.
Proof. unfold plan_size. induction l as [|x l IH]; simpl; lia. Qed.

Lemma plan_file_size_ok patterns root dst_folder st fname :
  size_ok st → size_ok (plan_file patterns root dst_folder st fname).
Proof.
  unfold size_ok, plan_file. intros Hs. destruct (matches patterns fname); [|done].
  simpl. rewrite plan_size_snoc. simpl. lia.
Qed.

Lemma build_plan_size_ok fuel source_dir destination_root patterns scan st p :
  size_ok st →
  build_plan fuel source_dir destination_root patterns scan st = Some p →
  size_ok p.
Proof.
  revert scan st. induction fuel as [|fuel IH]; intros scan st Hst; [done|].
  simpl. destruct (scan_step (plan_fs st) scan) as [|scan'|e scan'].
  - by intros [= <-].
  - by apply IH.
  - apply IH. unfold plan_dir. destruct (os.makedirs _ _) as [fs1 r].
    generalize (files e). intros fnames.
    match goal with |- size_ok (foldl _ ?s _) =>
      assert (size_ok s) as Hs by exact Hst; revert Hs; generalize s end.
    induction fnames as [|f l IHl]; intros s Hs; [done|].
    simpl. by apply IHl, plan_file_size_ok.
Qed.

Lemma size_of_counted_insert (ws : list worker) i t w w' :
  tasks !! i = Some t → ws !! i = Some w →
  size_of_counted tasks (<[i:=w']> ws) =
    size_of_counted tasks ws - (if counted w then fsize t else 0)
      + (if counted w' then fsize t else 0).
Proof.
  revert ws i. induction tasks as [|t0 ts IH]; intros ws i Ht Hw; [done|].
  destruct ws as [|w0 ws]; [done|]. destruct i as [|i]; simpl in *.
  - inversion Ht; inversion Hw; subst. lia.
  - rewrite (IH ws i Ht Hw). lia.
Qed.

Lemma step_bytes_ok st a :
  bytes_ok tasks st → bytes_ok tasks (step verify_hash pool tasks st a).
Proof.
  unfold bytes_ok. intros Hb.
  step_cases_of verify_hash pool tasks st a i t Hw; try done;
    match goal with
    | |- context [<[?j:=?w]> (workers st)] =>
        rewrite (size_of_counted_insert (workers st) j t _ w Ht Hw)
    end; simpl; lia.
Qed.

Lemma size_of_counted_bounds (ws : list worker) :
  Forall (λ t, 0 ≤ fsize t) tasks →
  0 ≤ size_of_counted tasks ws ≤ plan_size tasks.
Proof.
  revert ws. induction tasks as [|t ts IH]; intros ws Hs; [done|].
  apply Forall_cons in Hs as [Ht Hts]. destruct ws as [|w ws]; simpl.
  - unfold plan_size in *. simpl. specialize (IH [] Hts).
    destruct ts; simpl in *; lia.
  - specialize (IH ws Hts). unfold plan_size in *. simpl.
    destruct (counted w); lia.
Qed.

Lemma size_of_counted_all (ws : list worker) :
  length ws = length tasks → forallb counted ws = true →
  size_of_counted tasks ws = plan_size tasks.
Proof.
  revert ws. induction tasks as [|t ts IH]; intros [|w ws] Hlen Hall; try done.
  simpl in *. apply andb_true_iff in Hall as [-> Hall].
  unfold plan_size in *. simpl. rewrite (IH ws); [done|lia|done].
Qed.

End bytes.

Lemma submitted_bytes_ok p : BackupWorker.bytes_ok (BackupWorker.plan p) (BackupWorker.submitted p).
Proof.
  unfold BackupWorker.bytes_ok, BackupWorker.submitted. simpl.
  generalize (length (BackupWorker.plan p)). intros n. revert n.
  induction (BackupWorker.plan p) as [|t ts IH]; intros [|n]; simpl; try done.
  by rewrite <- IH.
Qed.

Lemma filter_forallb {A} (f : A → bool) (l : list A) :
  forallb f l = true → filter f l = l.
Proof.
  induction l as [|x l IH]; [done|]. simpl. intros [Hx Hl]%andb_true_iff.
  rewrite filter_cons, Hx. simpl. by rewrite IH.
Qed.

(** X9.  The counters of a run stay within the plan, under every
    schedule: [copied_size] is between 0 and [total_size],
    [files_copied] between 0 and [total_files], and so is what every
    progress event reports; and a run that reports success has counted every
    planned file and every planned byte: [n = total_files] and
    [copied_size = total_size]. *)
Theorem copied_size_stays_within_total_size `{Platform} (fuel : nat)
    (fs0 : os.filesystem) (source_dir destination_root : string)
    (patterns : list string) (max_workers : option nat) (verify_hash : bool)
    (schedule : list BackupWorker.action)
    (p : BackupWorker.planning) (st : BackupWorker.state) :
  BackupWorker.make_plan fuel fs0 source_dir destination_root patterns verify_hash
    = Some p →
  BackupWorker.run fuel fs0 source_dir destination_root patterns max_workers
    verify_hash schedule = Some st →
  (0 ≤ BackupWorker.copied_size st ≤ BackupWorker.total_size p)%Z ∧
  (0 ≤ BackupWorker.files_copied st ≤ BackupWorker.total_files p)%Z ∧
  (∀ e, e ∈ BackupWorker.events st →
     (BackupWorker.copied_so_far e ≤ BackupWorker.total_size p)%Z ∧
     (1 ≤ BackupWorker.files_processed e ≤ BackupWorker.total_files p)%Z) ∧
  (∀ n msg, BackupWorker.terminal st = Some (n, true, msg) →
     n = BackupWorker.total_files p ∧
     BackupWorker.copied_size st = BackupWorker.total_size p).
Proof.
  intros Hp Hrun.
  destruct (make_plan_ok _ _ _ _ _ _ _ Hp) as [Htotal Hsizes].
  assert (BackupWorker.size_ok p) as Hsize.
  { eapply build_plan_size_ok; [|exact Hp]. done. }
  unfold BackupWorker.size_ok in Hsize.
  destruct (run_started _ _ _ _ _ _ _ _ _ _ Hp Hrun) as [[He ->]|[_ Hst]].
  { simpl. rewrite Hsize, Htotal, He. simpl. split; [done|]. split; [done|].
    split; [by intros e ?%elem_of_nil|]. by intros n msg [=]. }
  set (pool := BackupWorker.pool_size max_workers) in *.
  assert (BackupWorker.terminal_ok st) as Hk.
  { rewrite Hst. apply exec_invariant; [apply step_terminal_ok|].
    apply submitted_terminal_ok. }
  assert (BackupWorker.errors_ok st) as (_ & _ & _ & Hfin).
  { rewrite Hst. apply exec_errors_ok;
      [apply submitted_terminal_ok|apply submitted_errors_ok]. }
  assert (BackupWorker.counters_ok st) as Hcnt.
  { rewrite Hst. apply exec_invariant; [apply step_counters_ok|].
    apply submitted_counters_ok. }
  assert (BackupWorker.bytes_ok (BackupWorker.plan p) st) as Hbytes.
  { rewrite Hst. apply exec_invariant; [apply step_bytes_ok|].
    apply submitted_bytes_ok. }
  assert (BackupWorker.snapshots_ok st) as (_ & Hev & _).
  { rewrite Hst. apply exec_invariant; [|apply submitted_snapshots_ok].
    intros s a. by apply step_snapshots_ok. }
  assert (length (BackupWorker.workers st) = length (BackupWorker.plan p)) as Hlen.
  { rewrite Hst, exec_workers_length. simpl. apply length_replicate. }
  pose proof (files_copied_bound st Hcnt) as [_ Hfc].
  pose proof (size_of_counted_bounds (BackupWorker.plan p) (BackupWorker.workers st)
                Hsizes) as Hb.
  unfold BackupWorker.bytes_ok in Hbytes. unfold BackupWorker.counters_ok in Hcnt.
  split; [lia|]. split; [lia|]. split.
  - intros e He. destruct (Hev e He) as [Hf Hc]. lia.
  - intros n msg Hterm. destruct (Hk _ Hterm) as [Hall Hn]. simpl in Hn.
    assert (forallb BackupWorker.counted (BackupWorker.workers st) = true) as Hcounted.
    { apply forallb_forall. intros w Hw. apply list_elem_of_In in Hw.
      apply list_elem_of_lookup in Hw as [i Hi].
      pose proof (all_returned_lookup _ _ _ Hall Hi) as Hr.
      destruct w as [| | | |[] err]; try done.
      destruct (Hfin n true msg Hterm) as [[? _]|(Hok & _ & Hnone)]; [done|].
      specialize (Hnone i err Hi). symmetry in Hok.
      apply bool_decide_eq_true in Hok. lia. }
    split.
    + rewrite Hn, Hcnt, (filter_forallb _ _ Hcounted). lia.
    + rewrite Hbytes, Hsize. by apply size_of_counted_all.
Qed.

Lemma copied_size_stays_within_total_size_witness :
  ∃ p st,
    BackupWorker.make_plan 10 (examples.three_files ["src"]) "." "/dst" ["*"] true
      = Some p ∧
    BackupWorker.run (H := examples.sound_posix) 10 (examples.three_files ["src"])
      "." "/dst" ["*"] None true (BackupWorker.sequential 3) = Some st ∧
    BackupWorker.terminal st = Some (3%Z, true, "Backup completed successfully.") ∧
    BackupWorker.total_size p = 300%Z ∧
    ((0 ≤ BackupWorker.copied_size st ≤ BackupWorker.total_size p)%Z ∧
     (0 ≤ BackupWorker.files_copied st ≤ BackupWorker.total_files p)%Z ∧
     (∀ e, e ∈ BackupWorker.events st →
        (BackupWorker.copied_so_far e ≤ BackupWorker.total_size p)%Z ∧
        (1 ≤ BackupWorker.files_processed e ≤ BackupWorker.total_files p)%Z) ∧
     (∀ n msg, BackupWorker.terminal st = Some (n, true, msg) →
        n = BackupWorker.total_files p ∧
        BackupWorker.copied_size st = BackupWorker.total_size p)).
Proof.
  set (D := BackupWorker.Build_planning (examples.three_files []) [] [] 0 0).
  assert (BackupWorker.make_plan 10 (examples.three_files ["src"]) "." "/dst" ["*"] true
          = Some (default D (BackupWorker.make_plan 10 (examples.three_files ["src"])
                               "." "/dst" ["*"] true))) as Hp
    by (vm_compute; reflexivity).
  assert (BackupWorker.terminal <$>
            BackupWorker.run (H := examples.sound_posix) 10
              (examples.three_files ["src"])
              "." "/dst" ["*"] None true (BackupWorker.sequential 3)
          = Some (Some (3%Z, true, "Backup completed successfully."))) as Ht
    by (vm_compute; reflexivity).
  destruct (BackupWorker.run (H := examples.sound_posix) 10
              (examples.three_files ["src"])
              "." "/dst" ["*"] None true (BackupWorker.sequential 3))
    as [st|] eqn:Hrun; [|discriminate Ht].
  injection Ht as Ht.
  eexists _, st. split; [exact Hp|]. split; [reflexivity|].
  split; [exact Ht|]. split; [vm_compute; reflexivity|].
  exact (copied_size_stays_within_total_size (H := examples.sound_posix)
           10 (examples.three_files ["src"]) "." "/dst" ["*"] None true
           (BackupWorker.sequential 3) _ st Hp Hrun).
Defined.
